(** * Iterated Prisoner's Dilemma engine: a shallow embedding and its properties

    The engine (seeded random source, payoff matrix, the five strategies,
    the match loop of [Game] and the round-robin of [Tournament]) is
    embedded function by function.

    Numbers.  JavaScript numbers are IEEE doubles.  The embedding uses
    - [Z] for the generator state and for everything that passes through
      the 32-bit integer operators; the one double addition applied to the
      state ([this.seed += 0x6D2B79F5]) is rounded as a double rounds an
      integer ([fp_round]);
    - [Q] for payoffs, scores, probabilities and rates.  A draw is
      [k / 2^32] with [0 <= k < 2^32], which a double holds exactly, so the
      comparisons with a probability are exact.  A rational stands for
      the double the code holds: [+], [/] and [*] on scores and rates are
      written where the code adds, divides and multiplies, in the order
      of the code, and they do not round.  The properties below are
      therefore stated on what the code computes (a score is the fold of
      the additions that [updateScore] makes, a rate is the one quotient
      that the code forms), or order two scores where the order is
      already decided round by round;
    - binary64 itself ([Double], on the Standard Library's [spec_float])
      where the value of a sum as a double decides a statement;
    - [nat] for lengths and counters. *)

From Stdlib Require Import ZArith QArith Qabs Lia Lqa Bool SpecFloat.
From stdpp Require Import base option list strings gmap.
From Equations Require Import Equations.
From Equations.Prop Require Import Logic.

Local Open Scope Z_scope.

(** ** Actions *)

Inductive Action : Type := COOPERATE | DEFECT.

Definition Action_eqb (a b : Action) : bool :=
  match a, b with
  | COOPERATE, COOPERATE | DEFECT, DEFECT => true
  | _, _ => false
  end.

#[global] Instance Action_eq_dec : EqDecision Action.
Proof. solve_decision. Defined.

(** ** 32-bit integer operators of JavaScript, on integer-valued numbers *)

Module JS.

Definition two32 : Z := 4294967296.
Definition two31 : Z := 2147483648.

(** [ToUint32] and [ToInt32] of an integer-valued number. *)
Definition ToUint32 (x : Z) : Z := x mod two32.

Definition ToInt32 (x : Z) : Z :=
  let m := x mod two32 in
  if two31 <=? m then m - two32 else m.

(** [a ^ b], [a | b], [a >>> n] and [Math.imul(a, b)]. *)
Definition xor (a b : Z) : Z := Z.lxor (ToInt32 a) (ToInt32 b).
Definition or (a b : Z) : Z := Z.lor (ToInt32 a) (ToInt32 b).
Definition ushr (a n : Z) : Z := Z.shiftr (ToUint32 a) (n mod 32).
Definition imul (a b : Z) : Z := ToInt32 (ToInt32 a * ToInt32 b).

(** Rounding of an exact integer result to the nearest double, ties to
    even: integers below [2^53] in magnitude are kept, larger ones keep
    53 significant bits. *)
Definition fp_round (z : Z) : Z :=
  let a := Z.abs z in
  if a <? 2 ^ 53 then z
  else
    let e := Z.log2 a - 52 in
    let q := Z.shiftr a e in
    let r := a - Z.shiftl q e in
    let half := Z.shiftl 1 (e - 1) in
    let q' := if r <? half then q
              else if half <? r then q + 1
              else if Z.even q then q else q + 1 in
    Z.sgn z * Z.shiftl q' e.

End JS.

(** ** SeededRandom *)

Record SeededRandom : Type := mkSeededRandom { seed : Z }.

(** The 32-bit numerator of the value that [random()] returns, and the
    state it leaves. *)
Definition random_bits (r : SeededRandom) : Z * SeededRandom :=
  let s := JS.fp_round (seed r + 1831565813) in            (* 0x6D2B79F5 *)
  let t := s in
  let t := JS.imul (JS.xor t (JS.ushr t 15)) (JS.or t 1) in
  let t := JS.xor t (t + JS.imul (JS.xor t (JS.ushr t 7)) (JS.or t 61)) in
  (JS.ushr (JS.xor t (JS.ushr t 14)) 0, mkSeededRandom s).

(** [random()]: the numerator divided by 4294967296. *)
Definition random (r : SeededRandom) : Q * SeededRandom :=
  let '(k, r') := random_bits r in (Qmake k 4294967296, r').

Definition reset_seed (r : SeededRandom) (newSeed : Z) : SeededRandom :=
  mkSeededRandom newSeed.

(** [n] successive draws. *)
Fixpoint draws (n : nat) (r : SeededRandom) : list Q * SeededRandom :=
  match n with
  | O => ([], r)
  | S n' => let '(v, r1) := random r in
            let '(vs, r2) := draws n' r1 in (v :: vs, r2)
  end.

(** ** PayoffMatrix *)

Record PayoffMatrix : Type := mkPayoffMatrix { T : Q; R : Q; P : Q; S_ : Q }.

Definition getPayoff (pm : PayoffMatrix) (action1 action2 : Action) : Q * Q :=
  if Action_eqb action1 COOPERATE && Action_eqb action2 COOPERATE then (R pm, R pm)
  else if Action_eqb action1 COOPERATE && Action_eqb action2 DEFECT then (S_ pm, T pm)
  else if Action_eqb action1 DEFECT && Action_eqb action2 COOPERATE then (T pm, S_ pm)
  else (P pm, P pm).

(** ** The shared random source

    [globalRandom] is the one generator every consumer draws from.  The
    world also holds what was written with [console.warn], and a trace of
    what happened so far: each value drawn, with who drew it, and each
    round completed.  The trace is not program state: it records the calls
    of [globalRandom.random()] and the pushes on [roundHistory], so that
    statements can count and order them. *)

Inductive Consumer : Type := ByStrategy | ByEngine.

Inductive Event : Type :=
| Drew (who : Consumer) (value : Q)
| RoundPlayed (index : nat).

Record World : Type := mkWorld {
  globalRandom : SeededRandom;
  console : list string;
  trace : list Event
}.

Definition M (A : Type) : Type := World -> A * World.

#[global] Instance M_ret : MRet M := fun A a w => (a, w).
#[global] Instance M_bind : MBind M :=
  fun A B f m w => let '(a, w') := m w in f a w'.

(** One call of [globalRandom.random()]. *)
Definition draw (who : Consumer) : M Q :=
  fun w => let '(v, r') := random (globalRandom w) in
           (v, mkWorld r' (console w) (trace w ++ [Drew who v])).

(** [globalRandom.reset(seed)]. *)
Definition resetGlobalRandom (newSeed : Z) : M unit :=
  fun w => (tt, mkWorld (reset_seed (globalRandom w) newSeed) (console w) (trace w)).

(** [console.warn(message)]. *)
Definition warn (message : string) : M unit :=
  fun w => (tt, mkWorld (globalRandom w) (console w ++ [message]) (trace w)).

(** Trace entry for a round pushed on [roundHistory]. *)
Definition logRound (index : nat) : M unit :=
  fun w => (tt, mkWorld (globalRandom w) (console w) (trace w ++ [RoundPlayed index])).

(** [x < y] on numbers. *)
Definition Qltb (x y : Q) : bool :=
  match Qcompare x y with Lt => true | _ => false end.

(** ** Strategies *)

(** The subclasses of [Strategy], with the fields each one adds. *)
Inductive Variant : Type :=
| AlwaysCooperate
| AlwaysDefect
| TitForTat
| GrimTrigger (triggered : bool)
| GenerousTitForTat (forgiveness : Q).

Record Strategy : Type := mkStrategy {
  variant : Variant;
  name : string;
  history : list Action;
  opponentHistory : list Action;
  score : Q
}.

Definition newStrategy (v : Variant) (nm : string) : Strategy :=
  mkStrategy v nm [] [] 0%Q.

Definition newAlwaysCooperate : Strategy :=
  newStrategy AlwaysCooperate "Always Cooperate (ALL-C)".
Definition newAlwaysDefect : Strategy :=
  newStrategy AlwaysDefect "Always Defect (ALL-D)".
Definition newTitForTat : Strategy :=
  newStrategy TitForTat "Tit-for-Tat (TFT)".
Definition newGrimTrigger : Strategy :=
  newStrategy (GrimTrigger false) "Grim Trigger".
Definition newGenerousTitForTat (forgiveness : Q) : Strategy :=
  newStrategy (GenerousTitForTat forgiveness) "Generous TFT".

Definition recordMove (s : Strategy) (myMove opponentMove : Action) : Strategy :=
  mkStrategy (variant s) (name s)
             (history s ++ [myMove]) (opponentHistory s ++ [opponentMove])
             (score s).

(** [this.score += payoff].  The sum is written exactly; the double that
    the code holds is this sum rounded at each addition ([Double.add]
    below).  A score is therefore stated as the fold of these additions
    over the payoffs, in their order, and never as a product. *)
Definition updateScore (s : Strategy) (payoff : Q) : Strategy :=
  mkStrategy (variant s) (name s) (history s) (opponentHistory s)
             (score s + payoff)%Q.

(** [reset()]: the base class clears both histories and the score;
    [GrimTrigger] overrides it to clear [triggered] as well. *)
Definition reset (s : Strategy) : Strategy :=
  let v := match variant s with
           | GrimTrigger _ => GrimTrigger false
           | v => v
           end in
  mkStrategy v (name s) [] [] 0%Q.

Definition getCooperationRate (s : Strategy) : Q :=
  if Nat.eqb (length (history s)) 0 then 0%Q
  else
    let cooperations := length (filter (fun move => move = COOPERATE) (history s)) in
    Qmake (Z.of_nat cooperations) (Pos.of_nat (length (history s))).

Definition setTriggered (s : Strategy) (b : bool) : Strategy :=
  mkStrategy (GrimTrigger b) (name s) (history s) (opponentHistory s) (score s).

(** [makeMove()], per subclass.  It returns the move and the strategy,
    whose [triggered] flag [GrimTrigger] may have set. *)
Definition makeMove (s : Strategy) : M (Action * Strategy) :=
  match variant s with
  | AlwaysCooperate => mret (COOPERATE, s)
  | AlwaysDefect => mret (DEFECT, s)
  | TitForTat =>
      match last (opponentHistory s) with
      | None => mret (COOPERATE, s)
      | Some lastOpponentMove => mret (lastOpponentMove, s)
      end
  | GrimTrigger triggered =>
      if triggered then mret (DEFECT, s)
      else
        match last (opponentHistory s) with
        | Some DEFECT => mret (DEFECT, setTriggered s true)
        | _ => mret (COOPERATE, s)
        end
  | GenerousTitForTat forgiveness =>
      match last (opponentHistory s) with
      | None => mret (COOPERATE, s)
      | Some COOPERATE => mret (COOPERATE, s)
      | Some DEFECT =>
          d ← draw ByStrategy;
          if Qltb d forgiveness then mret (COOPERATE, s) else mret (DEFECT, s)
      end
  end.

(** ** StrategyFactory *)

(** The parameter bundle; [None] is an absent ([undefined]) entry. *)
Record StrategyParams : Type := mkStrategyParams { params_forgiveness : option Q }.

(** The double written [0.1]. *)
Definition double_0_1 : Q := Qmake 3602879701896397 36028797018963968.

(** What a call can throw: [new Error(message)], or the [TypeError] of a
    property access on [undefined]. *)
Inductive Exception : Type :=
| Error (message : string)
| TypeError.

(** A call either returns or throws. *)
Inductive Outcome (A : Type) : Type :=
| Returns (a : A)
| Throws (e : Exception).
Arguments Returns {A} a.
Arguments Throws {A} e.

Definition createStrategy (strategyCode : string) (params : StrategyParams)
  : Outcome Strategy :=
  if String.eqb strategyCode "ALLC" then Returns newAlwaysCooperate
  else if String.eqb strategyCode "ALLD" then Returns newAlwaysDefect
  else if String.eqb strategyCode "TFT" then Returns newTitForTat
  else if String.eqb strategyCode "GRIM" then Returns newGrimTrigger
  else if String.eqb strategyCode "GTFT" then
    let forgiveness := match params_forgiveness params with
                       | Some f => f
                       | None => double_0_1
                       end in
    Returns (newGenerousTitForTat forgiveness)
  else Throws (Error ("Unknown strategy: " +:+ strategyCode)).

Definition getAllStrategyCodes : list string :=
  ["ALLC"; "ALLD"; "TFT"; "GRIM"; "GTFT"].

(** ** Game: one match between two strategies *)

Record RoundRecord : Type := mkRoundRecord {
  round : nat;
  move1 : Action;
  move2 : Action;
  payoff1 : Q;
  payoff2 : Q;
  cumScore1 : Q;
  cumScore2 : Q
}.

Record Game : Type := mkGame {
  strategy1 : Strategy;
  strategy2 : Strategy;
  payoffMatrix : PayoffMatrix;
  numRounds : Z;                   (* an integer, as [parseInt] gives it *)
  continuationProb : option Q;     (* [None] is [null]: fixed rounds *)
  roundHistory : list RoundRecord
}.

Record MatchResult : Type := mkMatchResult {
  strategy1Name : string;
  strategy2Name : string;
  finalScore1 : Q;
  finalScore2 : Q;
  cooperationRate1 : Q;
  cooperationRate2 : Q;
  result_roundHistory : list RoundRecord
}.

(** [playRound()].  The object it returns is dropped by every caller; the
    embedding returns the game after the round. *)
Definition playRound (g : Game) : M Game :=
  '(m1, s1) ← makeMove (strategy1 g);
  '(m2, s2) ← makeMove (strategy2 g);
  let '(p1, p2) := getPayoff (payoffMatrix g) m1 m2 in
  let s1 := recordMove s1 m1 m2 in
  let s2 := recordMove s2 m2 m1 in
  let s1 := updateScore s1 p1 in
  let s2 := updateScore s2 p2 in
  _ ← logRound (length (roundHistory g) + 1);
  mret (mkGame s1 s2 (payoffMatrix g) (numRounds g) (continuationProb g)
          (roundHistory g ++
             [mkRoundRecord (length (roundHistory g) + 1) m1 m2 p1 p2
                            (score s1) (score s2)])).

Definition maxRounds : Z := 10000.

(** The condition of the [while] loop, once its draw [d] is made. *)
Definition loopCond (prob : Q) (roundCount : Z) (d : Q) : bool :=
  Qltb d prob && (roundCount <? maxRounds).

(** Iterations the loop can still make: its termination measure. *)
Definition remaining (roundCount : Z) : nat := Z.to_nat (maxRounds - roundCount).

Lemma loopCond_remaining prob roundCount d :
  loopCond prob roundCount d = true ->
  (remaining (roundCount + 1) < remaining roundCount)%nat.
Proof.
  unfold loopCond, remaining. intros H.
  apply andb_prop in H as [_ Hlt]. apply Z.ltb_lt in Hlt. lia.
Qed.

#[local] Opaque remaining draw playRound loopCond.

(** The loop [while (globalRandom.random() < continuationProb &&
    roundCount < maxRounds) { playRound(); roundCount++ }].  The draw is
    the first operand of [&&]: it is made on every evaluation of the
    condition.  The loop returns the final [roundCount] with the game. *)
#[derive(eliminator=no)]
Equations? whileContinue (prob : Q) (roundCount : Z) (g : Game) (w : World)
  : (Z * Game) * World by wf (remaining roundCount) lt :=
  whileContinue prob roundCount g w with inspect (draw ByEngine w) := {
    | exist _ (d, w1) _ with inspect (loopCond prob roundCount d) := {
        | exist _ true _ with inspect (playRound g w1) := {
            | exist _ (g', w2) _ => whileContinue prob (roundCount + 1) g' w2 } ;
        | exist _ false _ => ((roundCount, g), w1) } }.
Proof.
  exact (loopCond_remaining _ _ _ e0).
Qed.

#[local] Transparent draw playRound loopCond.

(** The loop [for (let i = 0; i < numRounds; i++) playRound()], as the
    number of iterations that remain. *)
Fixpoint forRounds (remaining : nat) (g : Game) : M Game :=
  match remaining with
  | O => mret g
  | S k => g' ← playRound g; forRounds k g'
  end.

Definition play (g : Game) : M MatchResult :=
  let g := mkGame (reset (strategy1 g)) (reset (strategy2 g)) (payoffMatrix g)
                  (numRounds g) (continuationProb g) [] in
  g ← match continuationProb g with
      | Some prob =>
          g ← playRound g;
          '(roundCount, g) ← whileContinue prob 1 g;
          _ ← (if maxRounds <=? roundCount
               then warn "Game reached maximum round limit of 10000 rounds"
               else mret tt);
          mret g
      | None => forRounds (Z.to_nat (numRounds g)) g
      end;
  mret (mkMatchResult (name (strategy1 g)) (name (strategy2 g))
          (score (strategy1 g)) (score (strategy2 g))
          (getCooperationRate (strategy1 g)) (getCooperationRate (strategy2 g))
          (roundHistory g)).

(** ** Tournament *)

(** The fields [payoffMatrix], [numRounds] and [continuationProb] of a
    tournament carry its name here, apart from those of [Game]. *)
Record Tournament : Type := mkTournament {
  tournament_payoffMatrix : PayoffMatrix;
  tournament_numRounds : Z;
  strategyParams : StrategyParams;
  tournament_continuationProb : option Q;
  results : list MatchResult
}.

Record StrategyStats : Type := mkStrategyStats {
  totalScore : Q;
  gamesPlayed : nat;
  cooperationRate : Q;
  cooperationCount : Q;
  averageScore : option Q          (* [None]: the property is not set yet *)
}.

(** The object that [runRoundRobin] returns; [scoreMatrix] is its property
    [payoffMatrix], the mapping from name and opponent name to score.  A
    cell holds [None] for [null]. *)
Record RoundRobinResult : Type := mkRoundRobinResult {
  matchResults : list MatchResult;
  aggregated : gmap string StrategyStats;
  scoreMatrix : gmap string (gmap string (option Q));
  strategyNames : list string
}.

(** Methods of [Tournament] run on the tournament and the world, and may
    throw; what they changed before throwing stays changed. *)
Definition TM (A : Type) : Type :=
  Tournament * World -> Outcome A * (Tournament * World).

#[global] Instance TM_ret : MRet TM := fun A a s => (Returns a, s).
#[global] Instance TM_bind : MBind TM :=
  fun A B f m s =>
    match m s with
    | (Returns a, s') => f a s'
    | (Throws e, s') => (Throws e, s')
    end.

Definition liftM {A} (m : M A) : TM A :=
  fun '(t, w) => let '(a, w') := m w in (Returns a, (t, w')).
Definition liftO {A} (o : Outcome A) : TM A := fun s => (o, s).
Definition this : TM Tournament := fun '(t, w) => (Returns t, (t, w)).
Definition setResults (rs : list MatchResult) : TM unit :=
  fun '(t, w) =>
    (Returns tt,
     (mkTournament (tournament_payoffMatrix t) (tournament_numRounds t)
                   (strategyParams t) (tournament_continuationProb t) rs, w)).

(** A loop over the elements of an array, threading the variables that
    its body assigns. *)
Fixpoint forEach {A S : Type} (l : list A) (body : S -> A -> TM S) (s : S) : TM S :=
  match l with
  | [] => mret s
  | x :: l' => s' ← body s x; forEach l' body s'
  end.

(** [strategyCodes[i]] handed to the factory; out of range the element is
    [undefined]. *)
Definition createStrategyAt (strategyCodes : list string) (i : nat)
  (params : StrategyParams) : Outcome Strategy :=
  match strategyCodes !! i with
  | Some code => createStrategy code params
  | None => Throws (Error "Unknown strategy: undefined")
  end.

(** [m[k1][k2] = v]. *)
Definition setCell (k1 k2 : string) (v : option Q)
  (m : gmap string (gmap string (option Q)))
  : Outcome (gmap string (gmap string (option Q))) :=
  match m !! k1 with
  | Some row => Returns (<[k1 := <[k2 := v]> row]> m)
  | None => Throws TypeError
  end.

Definition newGame (t : Tournament) (s1 s2 : Strategy) : Game :=
  mkGame s1 s2 (tournament_payoffMatrix t) (tournament_numRounds t)
         (tournament_continuationProb t) [].

Definition runPairwise (strategyCode1 strategyCode2 : string) : TM MatchResult :=
  t ← this;
  strategy1 ← liftO (createStrategy strategyCode1 (strategyParams t));
  strategy2 ← liftO (createStrategy strategyCode2 (strategyParams t));
  result ← liftM (play (newGame t strategy1 strategy2));
  _ ← setResults [result];
  mret result.

(** The three updates of [aggregated[name]] for one side of a match. *)
Definition addToStats (nm : string) (finalScore rate : Q)
  (agg : gmap string StrategyStats) : Outcome (gmap string StrategyStats) :=
  match agg !! nm with
  | Some data =>
      Returns (<[nm := mkStrategyStats (totalScore data + finalScore)%Q
                                       (S (gamesPlayed data))
                                       (cooperationRate data)
                                       (cooperationCount data + rate)%Q
                                       (averageScore data)]> agg)
  | None => Throws TypeError
  end.

(** [x / n] for a counter [n].  The round robin divides by counters that
    are 4; for [n = 0] JavaScript gives [NaN] or an infinity where [Q]
    gives 0. *)
Definition divCount (x : Q) (n : nat) : Q := (x / inject_Z (Z.of_nat n))%Q.

Definition withAverages (data : StrategyStats) : StrategyStats :=
  mkStrategyStats (totalScore data) (gamesPlayed data)
                  (divCount (cooperationCount data) (gamesPlayed data))
                  (cooperationCount data)
                  (Some (divCount (totalScore data) (gamesPlayed data))).

(** Every cell of the score mapping starts as [null]. *)
Definition initScoreMatrix (names : list string)
  : gmap string (gmap string (option Q)) :=
  foldl (fun m name1 =>
           <[name1 := foldl (fun row name2 => <[name2 := None]> row) ∅ names]> m)
        ∅ names.

(** Body of the loop over the pairs [i < j]: one match, pushed on
    [matchResults], with both scores stored in the score mapping. *)
Definition playPair (t : Tournament) (strategyCodes : list string) (i j : nat)
  (st : list MatchResult * gmap string (gmap string (option Q)))
  : TM (list MatchResult * gmap string (gmap string (option Q))) :=
  let '(matchResults, payoffMatrix) := st in
  strategy1 ← liftO (createStrategyAt strategyCodes i (strategyParams t));
  strategy2 ← liftO (createStrategyAt strategyCodes j (strategyParams t));
  result ← liftM (play (newGame t strategy1 strategy2));
  let matchResults := matchResults ++ [result] in
  payoffMatrix ←
    liftO (setCell (strategy1Name result) (strategy2Name result)
                   (Some (finalScore1 result)) payoffMatrix);
  payoffMatrix ←
    liftO (setCell (strategy2Name result) (strategy1Name result)
                   (Some (finalScore2 result)) payoffMatrix);
  mret (matchResults, payoffMatrix).

(** Body of the self-play loop: one match between two instances of the
    same code, stored on the diagonal of the score mapping and nowhere
    else. *)
Definition playSelf (t : Tournament) (strategyCodes : list string)
  (payoffMatrix : gmap string (gmap string (option Q))) (i : nat)
  : TM (gmap string (gmap string (option Q))) :=
  strategy1 ← liftO (createStrategyAt strategyCodes i (strategyParams t));
  strategy2 ← liftO (createStrategyAt strategyCodes i (strategyParams t));
  result ← liftM (play (newGame t strategy1 strategy2));
  liftO (setCell (strategy1Name result) (strategy1Name result)
                 (Some (finalScore1 result)) payoffMatrix).

(** Body of the loop that creates the entries of [aggregated]. *)
Definition initStats (t : Tournament) (aggregated : gmap string StrategyStats)
  (code : string) : TM (gmap string StrategyStats) :=
  strategy ← liftO (createStrategy code (strategyParams t));
  mret (<[name strategy := mkStrategyStats 0 0 0 0 None]> aggregated).

(** Body of [matchResults.forEach]: both sides of one match are added. *)
Definition addMatch (aggregated : gmap string StrategyStats) (result : MatchResult)
  : Outcome (gmap string StrategyStats) :=
  match addToStats (strategy1Name result) (finalScore1 result)
                   (cooperationRate1 result) aggregated with
  | Returns aggregated =>
      addToStats (strategy2Name result) (finalScore2 result)
                 (cooperationRate2 result) aggregated
  | Throws e => Throws e
  end.

Definition runRoundRobin : TM RoundRobinResult :=
  t ← this;
  let strategyCodes := getAllStrategyCodes in
  let n := length strategyCodes in
  _ ← setResults [];
  strategyNames ←
    forEach strategyCodes
      (fun names code =>
         s ← liftO (createStrategy code (strategyParams t));
         mret (names ++ [name s])) [];
  (* Play each pair *)
  '(matchResults, payoffMatrix) ←
    forEach (seq 0 n)
      (fun st i =>
         forEach (seq (i + 1) (n - (i + 1)))
                 (fun st j => playPair t strategyCodes i j st) st)
      ([], initScoreMatrix strategyNames);
  (* Also play against themselves *)
  payoffMatrix ← forEach (seq 0 n) (playSelf t strategyCodes) payoffMatrix;
  (* Aggregate results by strategy *)
  aggregated ← forEach strategyCodes (initStats t) (∅ : gmap string StrategyStats);
  aggregated ←
    forEach matchResults (fun aggregated result => liftO (addMatch aggregated result))
            aggregated;
  (* Calculate averages *)
  let aggregated := withAverages <$> aggregated in
  _ ← setResults matchResults;
  mret (mkRoundRobinResult matchResults aggregated payoffMatrix strategyNames).

(** A fresh world: the generator as the page creates it, reset to [seed]. *)
Definition worldWithSeed (s : Z) : World :=
  mkWorld (reset_seed (mkSeededRandom 42) s) [] [].

Definition standardTournament (rounds : Z) (f : Q) : Tournament :=
  mkTournament (mkPayoffMatrix 5 3 1 0) rounds (mkStrategyParams (Some f)) None [].


(** ** Sequences of calls on one strategy object *)

Inductive StrategyOp : Type :=
| OpMakeMove
| OpRecordMove (myMove opponentMove : Action)
| OpUpdateScore (payoff : Q)
| OpReset.

Definition isReset (op : StrategyOp) : bool :=
  match op with OpReset => true | _ => false end.

(** The calls [ops] made in order on [s]; the moves that the [makeMove]
    calls returned are collected in order. *)
Fixpoint runOps (ops : list StrategyOp) (s : Strategy) : M (list Action * Strategy) :=
  match ops with
  | [] => mret ([], s)
  | OpMakeMove :: ops' =>
      '(a, s') ← makeMove s;
      '(moves, s'') ← runOps ops' s';
      mret (a :: moves, s'')
  | OpRecordMove my opp :: ops' => runOps ops' (recordMove s my opp)
  | OpUpdateScore payoff :: ops' => runOps ops' (updateScore s payoff)
  | OpReset :: ops' => runOps ops' (reset s)
  end.

(** The opponent moves that [ops] record. *)
Definition recordedOpponentMoves (ops : list StrategyOp) : list Action :=
  flat_map (fun op => match op with
                      | OpRecordMove _ opp => [opp]
                      | _ => []
                      end) ops.

Definition isTriggered (s : Strategy) : bool :=
  match variant s with GrimTrigger b => b | _ => false end.

(** ** GRIM in a match *)

(** The moves [mine] of one side answer the moves [theirs] of the other
    as GRIM does: the move of round [i+1] is DEFECT exactly when the other
    side defected in one of the rounds 1, ..., [i]. *)
Definition grimMoves (mine theirs : list Action) : Prop :=
  forall (i : nat) (a : Action),
    mine !! i = Some a -> (a = DEFECT <-> DEFECT ∈ take i theirs).

(** The state of a GRIM object in a match whose rounds so far had the
    moves [mine] and [theirs]: the flag, when set, comes from a defection;
    when not set, any defection is the one of the round just recorded. *)
Definition grimInMatch (s : Strategy) (mine theirs : list Action) : Prop :=
  exists b : bool,
    variant s = GrimTrigger b
    /\ opponentHistory s = theirs
    /\ length mine = length theirs
    /\ grimMoves mine theirs
    /\ (b = true -> DEFECT ∈ theirs)
    /\ (b = false -> DEFECT ∉ take (length theirs - 1) theirs).

(** ** Reading the trace *)

(** What the match engine itself did: strategy draws are left out. *)
Definition isEngineEvent (e : Event) : bool :=
  match e with Drew ByStrategy _ => false | _ => true end.

Definition engineEvents (t : list Event) : list Event :=
  filter (fun e => isEngineEvent e) t.

(** Rounds [k], [k+1], ... each followed by one engine draw. *)
Fixpoint alternation (k : nat) (ds : list Q) : list Event :=
  match ds with
  | [] => []
  | d :: ds' => RoundPlayed k :: Drew ByEngine d :: alternation (S k) ds'
  end.

(** ** Strategies that never read the random source *)

(** A strategy whose moves do not depend on a drawn value: every variant
    but GTFT with a forgiveness above 0. *)
Definition drawInsensitive (s : Strategy) : Prop :=
  match variant s with
  | GenerousTitForTat f => f = 0%Q
  | _ => True
  end.

(** The move of a draw-insensitive strategy, as a function of its state. *)
Definition detMove (s : Strategy) : Action * Strategy :=
  match variant s with
  | AlwaysCooperate => (COOPERATE, s)
  | AlwaysDefect => (DEFECT, s)
  | TitForTat | GenerousTitForTat _ =>
      (match last (opponentHistory s) with
       | None => COOPERATE
       | Some a => a
       end, s)
  | GrimTrigger b =>
      if b then (DEFECT, s)
      else match last (opponentHistory s) with
           | Some DEFECT => (DEFECT, setTriggered s true)
           | _ => (COOPERATE, s)
           end
  end.

(** The TFT object with the state of [s]. *)
Definition asTitForTat (s : Strategy) : Strategy :=
  mkStrategy TitForTat "Tit-for-Tat (TFT)"
             (history s) (opponentHistory s) (score s).

(** One round between two draw-insensitive strategies, and [n] of them. *)
Definition detRound (g : Game) : Game :=
  let '(m1, s1) := detMove (strategy1 g) in
  let '(m2, s2) := detMove (strategy2 g) in
  let '(p1, p2) := getPayoff (payoffMatrix g) m1 m2 in
  let s1 := updateScore (recordMove s1 m1 m2) p1 in
  let s2 := updateScore (recordMove s2 m2 m1) p2 in
  mkGame s1 s2 (payoffMatrix g) (numRounds g) (continuationProb g)
         (roundHistory g ++
            [mkRoundRecord (length (roundHistory g) + 1) m1 m2 p1 p2
                           (score s1) (score s2)]).

Fixpoint detRounds (n : nat) (g : Game) : Game :=
  match n with
  | O => g
  | S k => detRounds k (detRound g)
  end.

(** The game with its first strategy replaced by the TFT object of the
    same state. *)
Definition withTitForTat1 (g : Game) : Game :=
  mkGame (asTitForTat (strategy1 g)) (strategy2 g) (payoffMatrix g)
         (numRounds g) (continuationProb g) (roundHistory g).

(** The result object that [play] builds from the game after the loop. *)
Definition resultOf (g : Game) : MatchResult :=
  mkMatchResult (name (strategy1 g)) (name (strategy2 g))
    (score (strategy1 g)) (score (strategy2 g))
    (getCooperationRate (strategy1 g)) (getCooperationRate (strategy2 g))
    (roundHistory g).

(** The game as [play] starts it: strategies reset, round log cleared. *)
Definition started (g : Game) : Game :=
  mkGame (reset (strategy1 g)) (reset (strategy2 g)) (payoffMatrix g)
         (numRounds g) (continuationProb g) [].

(** Rounds [k+1], ..., [k+n] completed one after the other. *)
Definition roundsFrom (k n : nat) : list Event := map RoundPlayed (seq (S k) n).


(** ** Reading a round-robin result *)

(** The final scores that [name] obtained in a match, one for each side
    it played. *)
Definition scoresOf (nm : string) (r : MatchResult) : list Q :=
  (if decide (strategy1Name r = nm) then [finalScore1 r] else [])
  ++ (if decide (strategy2Name r = nm) then [finalScore2 r] else []).

(** All the final scores of [name] in a list of matches, in order, and
    their sum, added from the left starting at 0 as the code adds them. *)
Definition scoresIn (nm : string) (rs : list MatchResult) : list Q :=
  flat_map (scoresOf nm) rs.

Definition sumScores (qs : list Q) : Q := foldl Qplus 0%Q qs.

Definition pairing (r : MatchResult) : string * string :=
  (strategy1Name r, strategy2Name r).

Definition rrOutcome (t : Tournament) (w : World) : Outcome RoundRobinResult :=
  fst (runRoundRobin (t, w)).

(** A loop whose body neither plays nor reads the tournament: the fold
    of its body, stopped by the first throw. *)
Fixpoint foldOutcome {A S : Type} (f : S -> A -> Outcome S) (l : list A) (s : S)
  : Outcome S :=
  match l with
  | [] => Returns s
  | x :: l' => match f s x with
               | Returns s' => foldOutcome f l' s'
               | Throws e => Throws e
               end
  end.

(** The diagonal cell of [nm] holds a score. *)
Definition diagonalSet (m : gmap string (gmap string (option Q))) (nm : string) : Prop :=
  exists row x, m !! nm = Some row /\ row !! nm = Some (Some x).

(** The display names in the order of the strategy codes, and the pairs
    of distinct strategies in the order in which they are played. *)
Definition rrNames : list string :=
  ["Always Cooperate (ALL-C)"; "Always Defect (ALL-D)"; "Tit-for-Tat (TFT)";
   "Grim Trigger"; "Generous TFT"].

Definition rrPairs : list (string * string) :=
  [("Always Cooperate (ALL-C)", "Always Defect (ALL-D)");
   ("Always Cooperate (ALL-C)", "Tit-for-Tat (TFT)");
   ("Always Cooperate (ALL-C)", "Grim Trigger");
   ("Always Cooperate (ALL-C)", "Generous TFT");
   ("Always Defect (ALL-D)", "Tit-for-Tat (TFT)");
   ("Always Defect (ALL-D)", "Grim Trigger");
   ("Always Defect (ALL-D)", "Generous TFT");
   ("Tit-for-Tat (TFT)", "Grim Trigger");
   ("Tit-for-Tat (TFT)", "Generous TFT");
   ("Grim Trigger", "Generous TFT")].

(** How many sides of the pairings [ps] the name [nm] takes. *)
Fixpoint appearances (nm : string) (ps : list (string * string)) : nat :=
  match ps with
  | [] => 0
  | p :: ps' =>
      ((if decide (fst p = nm) then 1 else 0)
       + (if decide (snd p = nm) then 1 else 0)
       + appearances nm ps')%nat
  end.

(** ** Reading a match result *)

(** The sums [acc + p1], [acc + p1 + p2], ... of the payoffs [ps], added
    from the left as [updateScore] adds them. *)
Fixpoint runningSums (acc : Q) (ps : list Q) : list Q :=
  match ps with
  | [] => []
  | p :: ps' => (acc + p)%Q :: runningSums (acc + p)%Q ps'
  end.

(** The books of a game agree: both strategies hold the two columns of
    moves of the round log, each record holds the payoffs of its moves and
    the scores after it, the records are numbered from 1, and the scores
    are the sums of the payoffs. *)
Definition bookkept (pm : PayoffMatrix) (g : Game) : Prop :=
  payoffMatrix g = pm
  /\ history (strategy1 g) = map move1 (roundHistory g)
  /\ opponentHistory (strategy1 g) = map move2 (roundHistory g)
  /\ history (strategy2 g) = map move2 (roundHistory g)
  /\ opponentHistory (strategy2 g) = map move1 (roundHistory g)
  /\ map round (roundHistory g) = seq 1 (length (roundHistory g))
  /\ Forall (fun r => getPayoff pm (move1 r) (move2 r) = (payoff1 r, payoff2 r))
            (roundHistory g)
  /\ map cumScore1 (roundHistory g) = runningSums 0 (map payoff1 (roundHistory g))
  /\ map cumScore2 (roundHistory g) = runningSums 0 (map payoff2 (roundHistory g))
  /\ score (strategy1 g) = foldl Qplus 0%Q (map payoff1 (roundHistory g))
  /\ score (strategy2 g) = foldl Qplus 0%Q (map payoff2 (roundHistory g)).

(** The number of COOPERATE in a column of moves. *)
Definition cooperations (moves : list Action) : nat :=
  length (filter (fun move => move = COOPERATE) moves).

(** [cooperations / n], and 0 for no move. *)
Definition rateOf (moves : list Action) : Q :=
  if Nat.eqb (length moves) 0 then 0%Q
  else Qmake (Z.of_nat (cooperations moves)) (Pos.of_nat (length moves)).

(** The move that the other side made in the round before round [i+1]. *)
Definition previous (theirs : list Action) (i : nat) : option Action :=
  match i with
  | O => None
  | S j => theirs !! j
  end.

(** Every move of [mine] obeys [rule] with respect to the move of the
    other side in the round before. *)
Definition responds (rule : option Action -> Action -> Prop)
  (mine theirs : list Action) : Prop :=
  forall (i : nat) (a : Action), mine !! i = Some a -> rule (previous theirs i) a.

(** The rules of the strategies with no memory of their own. *)
Definition tftRule (prev : option Action) (a : Action) : Prop :=
  a = match prev with None => COOPERATE | Some m => m end.

Definition provokedRule (prev : option Action) (a : Action) : Prop :=
  a = DEFECT -> prev = Some DEFECT.

(** A strategy that never calls the random source: every variant but
    GTFT. *)
Definition neverDraws (s : Strategy) : Prop :=
  match variant s with
  | GenerousTitForTat _ => False
  | _ => True
  end.

(** The game with another fixed round count. *)
Definition withNumRounds (n : Z) (g : Game) : Game :=
  mkGame (strategy1 g) (strategy2 g) (payoffMatrix g) n (continuationProb g)
         (roundHistory g).

(** ** Reading the score mapping *)

(** [m[a][b]]: [None] when the row or the cell is absent, [Some None] for
    [null]. *)
Definition cell (m : gmap string (gmap string (option Q))) (a b : string)
  : option (option Q) :=
  m !! a ≫= (fun row => row !! b).

(** A successful [m[k1][k2] = v], and those that a pair match and a
    self-play match make. *)
Definition writeCell (m : gmap string (gmap string (option Q)))
  (c : string * string * Q) : gmap string (gmap string (option Q)) :=
  let '(k1, k2, v) := c in <[k1 := <[k2 := Some v]> (m !!! k1)]> m.

Definition writesOf (r : MatchResult) : list (string * string * Q) :=
  [(strategy1Name r, strategy2Name r, finalScore1 r);
   (strategy2Name r, strategy1Name r, finalScore2 r)].

Definition selfWriteOf (r : MatchResult) : string * string * Q :=
  (strategy1Name r, strategy1Name r, finalScore1 r).

Definition coordinates (ws : list (string * string * Q)) : list (string * string) :=
  map fst ws.

(** The cooperation rates that [name] had in a list of matches, one for
    each side it played, in order. *)
Definition ratesOf (nm : string) (r : MatchResult) : list Q :=
  (if decide (strategy1Name r = nm) then [cooperationRate1 r] else [])
  ++ (if decide (strategy2Name r = nm) then [cooperationRate2 r] else []).

Definition ratesIn (nm : string) (rs : list MatchResult) : list Q :=
  flat_map (ratesOf nm) rs.

(** A result that a call of [play] returned. *)
Definition played (r : MatchResult) : Prop :=
  exists g w, r = fst (play g w).

(** The cells that the matches of the pairings [ps] write, and the
    diagonal cells of the names [ns]. *)
Definition pairCells (ps : list (string * string)) : list (string * string) :=
  flat_map (fun p => [(fst p, snd p); (snd p, fst p)]) ps.

Definition diagonalCells (ns : list string) : list (string * string) :=
  map (fun n => (n, n)) ns.

(** ** Score gaps *)

(** What the other side is ahead by after a round in which it made the
    move [prev], against a strategy that answers DEFECT with DEFECT. *)
Definition gapOf (pm : PayoffMatrix) (prev : option Action) : Q :=
  match prev with
  | Some DEFECT => (T pm - S_ pm)%Q
  | _ => 0%Q
  end.

(** ** The application: the check of the payoff matrix

    [validatePayoffMatrix] of [app.js].  A matrix that fails it is only
    reported; the simulation runs with it all the same. *)
Definition validatePayoffMatrix (T R P S : Q) : bool :=
  let condition1 := Qltb R T && Qltb P R && Qltb S P in
  let condition2 := Qltb (T + S) (2 * R) in
  condition1 && condition2.

(** ** The visualizer: what it computes from a result

    The data of [createCooperationChart]: the loop over [roundHistory]
    with its three counters and its three series. *)
Record ChartData : Type := mkChartData {
  coop1Count : nat;
  coop2Count : nat;
  totalCoopCount : nat;
  coop1Data : list Q;
  coop2Data : list Q;
  overallCoopData : list Q
}.

(** [(count / n) * 100]: the quotient, then the product, as the code
    forms them. *)
Definition percent (count n : nat) : Q :=
  (inject_Z (Z.of_nat count) / inject_Z (Z.of_nat n) * 100)%Q.

Definition chartStep (index : nat) (r : RoundRecord) (d : ChartData) : ChartData :=
  let coop1Count :=
    if Action_eqb (move1 r) COOPERATE then S (coop1Count d) else coop1Count d in
  let coop2Count :=
    if Action_eqb (move2 r) COOPERATE then S (coop2Count d) else coop2Count d in
  let totalCoopCount :=
    if Action_eqb (move1 r) COOPERATE || Action_eqb (move2 r) COOPERATE
    then (totalCoopCount d
          + ((if Action_eqb (move1 r) COOPERATE then 1 else 0)
             + (if Action_eqb (move2 r) COOPERATE then 1 else 0)))%nat
    else totalCoopCount d in
  mkChartData coop1Count coop2Count totalCoopCount
    (coop1Data d ++ [percent coop1Count (index + 1)])
    (coop2Data d ++ [percent coop2Count (index + 1)])
    (overallCoopData d ++ [percent totalCoopCount ((index + 1) * 2)]).

Fixpoint chartLoop (index : nat) (roundHistory : list RoundRecord) (d : ChartData)
  : ChartData :=
  match roundHistory with
  | [] => d
  | r :: rest => chartLoop (S index) rest (chartStep index r d)
  end.

Definition cooperationChartData (roundHistory : list RoundRecord) : ChartData :=
  chartLoop 0 roundHistory (mkChartData 0 0 0 [] [] []).

(** The rows of [displayPairwiseTable]: the first 20 and the last 10
    rounds when there are more than 30, with the flag [truncated]; and the
    two numbers of its note "rounds 21 - n omitted". *)
Definition roundsToShow (roundHistory : list RoundRecord) : list RoundRecord * bool :=
  if (30 <? length roundHistory)%nat
  then (take 20 roundHistory ++ drop (length roundHistory - 10) roundHistory, true)
  else (roundHistory, false).

Definition omittedRounds (roundHistory : list RoundRecord) : nat * nat :=
  (21%nat, (length roundHistory - 10)%nat).

(** The point of a series of the cooperation chart for the first [k]
    rounds. *)
Definition pointOf (mv : RoundRecord -> Action) (rh : list RoundRecord) (k : nat) : Q :=
  percent (cooperations (map mv (take k rh))) k.

Definition overallPointOf (rh : list RoundRecord) (k : nat) : Q :=
  percent (cooperations (map move1 (take k rh)) + cooperations (map move2 (take k rh)))
          (k * 2).

(** ** The two sides exchanged *)

Definition swapRecord (r : RoundRecord) : RoundRecord :=
  mkRoundRecord (round r) (move2 r) (move1 r) (payoff2 r) (payoff1 r)
                (cumScore2 r) (cumScore1 r).

Definition swapGame (g : Game) : Game :=
  mkGame (strategy2 g) (strategy1 g) (payoffMatrix g) (numRounds g)
         (continuationProb g) (map swapRecord (roundHistory g)).

Definition swapResult (res : MatchResult) : MatchResult :=
  mkMatchResult (strategy2Name res) (strategy1Name res)
                (finalScore2 res) (finalScore1 res)
                (cooperationRate2 res) (cooperationRate1 res)
                (map swapRecord (result_roundHistory res)).

(** A strategy of the tit-for-tat family whose last recorded opponent
    move is not DEFECT: its next [makeMove] returns COOPERATE and makes no
    draw. *)
Definition peaceful (s : Strategy) : Prop :=
  match variant s with
  | TitForTat | GenerousTitForTat _ => last (opponentHistory s) <> Some DEFECT
  | _ => False
  end.

(** ** Doubles

    The binary64 operations of the engine's number type, for the places
    where rounding decides: [this.score += payoff] is [Double.add]. *)
Module Double.

Definition t : Type := spec_float.
Definition add (x y : t) : t := SFadd 53 1024 x y.



End Double.

(** ** Counting rounds *)

(** The number of rounds in which the side [mine] played [a] and the
    side [theirs] played [b]; and the one round that a side which answers
    DEFECT with DEFECT has not answered yet when the other side's last
    move was DEFECT. *)
Fixpoint countRounds (a b : Action) (mine theirs : RoundRecord -> Action)
  (rh : list RoundRecord) : nat :=
  match rh with
  | [] => 0
  | r :: rest =>
      ((if Action_eqb (mine r) a && Action_eqb (theirs r) b then 1 else 0)
       + countRounds a b mine theirs rest)%nat
  end.

Definition unanswered (prev : option Action) : nat :=
  match prev with
  | Some DEFECT => 1
  | _ => 0
  end.

(** ** The matches of a round robin, in the order of the run *)

(** The strategy that the factory creates for the [i]-th code (the loops
    never leave the range of the codes, where this is ALL-C). *)
Definition strategyAt (t : Tournament) (i : nat) : Strategy :=
  match createStrategyAt getAllStrategyCodes i (strategyParams t) with
  | Returns s => s
  | Throws _ => newAlwaysCooperate
  end.

(** The matches of a list of pairs of indices, each played on the world
    that the one before left. *)
Fixpoint playAll (t : Tournament) (pairs : list (nat * nat)) (w : World)
  : list MatchResult * World :=
  match pairs with
  | [] => ([], w)
  | p :: rest =>
      let m := play (newGame t (strategyAt t (fst p)) (strategyAt t (snd p))) w in
      let ms := playAll t rest (snd m) in
      (fst m :: fst ms, snd ms)
  end.

(** The pairs [i < j] in the order of the two nested loops, and the
    pairs [(i, i)] of the self-play loop. *)
Definition rrPairIndices : list (nat * nat) :=
  flat_map (fun i => map (pair i) (seq (i + 1) (5 - (i + 1)))) (seq 0 5).

Definition rrSelfIndices : list (nat * nat) :=
  map (fun i => (i, i)) (seq 0 5).

(** * Properties *)

(** The loop, unfolded once. *)
Lemma whileContinue_step prob roundCount g w :
  whileContinue prob roundCount g w =
  let '(d, w1) := draw ByEngine w in
  if loopCond prob roundCount d then
    let '(g', w2) := playRound g w1 in
    whileContinue prob (roundCount + 1) g' w2
  else ((roundCount, g), w1).
Proof.
  rewrite whileContinue_equation_1.
  destruct (inspect (draw ByEngine w)) as [[d w1] e].
  transitivity
    (if loopCond prob roundCount d then
       let '(g', w2) := playRound g w1 in
       whileContinue prob (roundCount + 1) g' w2
     else ((roundCount, g), w1)); [| now rewrite e].
  rewrite whileContinue_clause_1_equation_1.
  destruct (inspect (loopCond prob roundCount d)) as [[] e0].
  - rewrite whileContinue_clause_1_clause_1_equation_1.
    destruct (inspect (playRound g w1)) as [[g' w2] e1].
    rewrite whileContinue_clause_1_clause_1_clause_1_equation_1.
    transitivity (let '(g', w2) := playRound g w1 in
                  whileContinue prob (roundCount + 1) g' w2);
      [now rewrite e1 | now rewrite e0].
  - rewrite whileContinue_clause_1_clause_1_equation_2. now rewrite e0.
Qed.


(** ** The random source *)

Lemma ToUint32_range x : 0 <= JS.ToUint32 x < JS.two32.
Proof. unfold JS.ToUint32, JS.two32. apply Z.mod_pos_bound. lia. Qed.

Lemma ushr_0 x : JS.ushr x 0 = JS.ToUint32 x.
Proof. unfold JS.ushr. now rewrite Z.mod_0_l, Z.shiftr_0_r. Qed.

Lemma fp_round_exact z : Z.abs z < 2 ^ 53 -> JS.fp_round z = z.
Proof.
  intros H. unfold JS.fp_round. cbv zeta.
  destruct (Z.ltb_spec (Z.abs z) (2 ^ 53)); [reflexivity | lia].
Qed.

Lemma random_bits_range r : 0 <= fst (random_bits r) < 4294967296.
Proof. unfold random_bits. cbn [fst]. rewrite ushr_0. apply ToUint32_range. Qed.

Lemma random_range r : (0 <= fst (random r))%Q /\ (fst (random r) < 1)%Q.
Proof.
  unfold random. pose proof (random_bits_range r) as H.
  destruct (random_bits r) as [k r']. cbn [fst] in *.
  unfold Qle, Qlt. cbn. lia.
Qed.

Lemma draws_range n : forall r,
  Forall (fun v => (0 <= v)%Q /\ (v < 1)%Q) (fst (draws n r)).
Proof.
  induction n as [|n IH]; intros r; cbn [draws].
  - constructor.
  - pose proof (random_range r) as Hr.
    destruct (random r) as [v r1]. specialize (IH r1).
    destruct (draws n r1) as [vs r2]. cbn [fst] in *. now constructor.
Qed.

(** The first value from seed 42 is 2581720956 / 2^32 = 0.6011037519..., the
    value Mulberry32 gives for that seed. *)
Example random_bits_seed_42 : fst (random_bits (mkSeededRandom 42)) = 2581720956.
Proof. vm_compute. reflexivity. Qed.

(** C4.  Two generators reset to the same seed, whatever they held
    before, produce the same values and end in the same state for every
    number of draws; every value drawn lies in [0, 1); seed 0 goes through
    the same transform as every other seed (its first three values are
    given). *)
Theorem seeded_random_deterministic :
  forall (s : Z) (n : nat) (r1 r2 : SeededRandom),
    draws n (reset_seed r1 s) = draws n (reset_seed r2 s)
    /\ Forall (fun v => (0 <= v)%Q /\ (v < 1)%Q) (fst (draws n (reset_seed r1 s)))
    /\ fst (draws 3 (reset_seed r1 0))
       = [Qmake 1144304738 4294967296; Qmake 1416247 4294967296;
          Qmake 958946056 4294967296].
Proof.
  intros s n r1 r2. split; [reflexivity |]. split; [apply draws_range |].
  vm_compute. reflexivity.
Qed.

(** ** The payoff model *)

(** C5.  For every payoff matrix (T, R, P, S), negative and non-standard
    values included, [getPayoff] returns (R, R) when both cooperate,
    (S, T) when the first cooperates and the second defects, (T, S) when
    the first defects and the second cooperates, (P, P) when both defect;
    with T=5, R=3, P=1, S=0 it returns (0, 5) for (COOPERATE, DEFECT) and
    (1, 1) for (DEFECT, DEFECT). *)
Theorem getPayoff_four_cases :
  forall t r p s : Q,
    let pm := mkPayoffMatrix t r p s in
    getPayoff pm COOPERATE COOPERATE = (r, r)
    /\ getPayoff pm COOPERATE DEFECT = (s, t)
    /\ getPayoff pm DEFECT COOPERATE = (t, s)
    /\ getPayoff pm DEFECT DEFECT = (p, p)
    /\ getPayoff (mkPayoffMatrix 5 3 1 0) COOPERATE DEFECT = (0%Q, 5%Q)
    /\ getPayoff (mkPayoffMatrix 5 3 1 0) DEFECT DEFECT = (1%Q, 1%Q).
Proof. intros t r p s pm. repeat split. Qed.

(** ** The strategy factory *)

Lemma createStrategy_unknown code params :
  code ∉ getAllStrategyCodes ->
  createStrategy code params = Throws (Error ("Unknown strategy: " +:+ code)).
Proof.
  intros Hnot. unfold createStrategy.
  repeat match goal with
  | |- context [String.eqb code ?c] =>
      destruct (String.eqb_spec code c) as [-> | _];
      [exfalso; apply Hnot; unfold getAllStrategyCodes; set_solver |]
  end.
  reflexivity.
Qed.

(** C9.  [createStrategy] returns a strategy exactly for the codes ALLC,
    ALLD, TFT, GRIM and GTFT, each time the strategy of that code with its
    display name; for every other code it throws the error
    "Unknown strategy: <code>". *)
Theorem createStrategy_known_codes :
  forall (code : string) (params : StrategyParams),
    ((exists s, createStrategy code params = Returns s)
       <-> code ∈ ["ALLC"; "ALLD"; "TFT"; "GRIM"; "GTFT"])
    /\ (code ∉ ["ALLC"; "ALLD"; "TFT"; "GRIM"; "GTFT"] ->
          createStrategy code params = Throws (Error ("Unknown strategy: " +:+ code)))
    /\ createStrategy "ALLC" params
         = Returns (mkStrategy AlwaysCooperate "Always Cooperate (ALL-C)" [] [] 0)
    /\ createStrategy "ALLD" params
         = Returns (mkStrategy AlwaysDefect "Always Defect (ALL-D)" [] [] 0)
    /\ createStrategy "TFT" params
         = Returns (mkStrategy TitForTat "Tit-for-Tat (TFT)" [] [] 0)
    /\ createStrategy "GRIM" params
         = Returns (mkStrategy (GrimTrigger false) "Grim Trigger" [] [] 0)
    /\ (exists f, createStrategy "GTFT" params
                  = Returns (mkStrategy (GenerousTitForTat f) "Generous TFT" [] [] 0)).
Proof.
  intros code params. split; [| split].
  - split.
    + intros [s Hs].
      destruct (decide (code ∈ getAllStrategyCodes)) as [Hin | Hnot]; [exact Hin |].
      rewrite (createStrategy_unknown _ _ Hnot) in Hs. discriminate.
    + intros Hin. unfold createStrategy.
      repeat (apply elem_of_cons in Hin as [-> | Hin];
              [cbn; eexists; reflexivity |]).
      now apply elem_of_nil in Hin.
  - apply createStrategy_unknown.
  - repeat split. cbn. eexists. reflexivity.
Qed.

Lemma createStrategy_known_codes_witness :
  ("Random" ∉ ["ALLC"; "ALLD"; "TFT"; "GRIM"; "GTFT"])
  /\ createStrategy "Random" (mkStrategyParams None)
     = Throws (Error "Unknown strategy: Random").
Proof.
  split.
  - intros H. repeat (apply elem_of_cons in H as [H | H]; [discriminate H |]).
    now apply elem_of_nil in H.
  - apply (createStrategy_known_codes "Random" (mkStrategyParams None)).
    intros H. repeat (apply elem_of_cons in H as [H | H]; [discriminate H |]).
    now apply elem_of_nil in H.
Defined.

(** [double_0_1] has the 53-bit significand 7205759403792794 at exponent
    -56, and no double is nearer to 1/10: it is within half a unit in the
    last place, [2^-57]. *)
Lemma double_0_1_nearest :
  (4503599627370496 <= 7205759403792794 < 9007199254740992)
  /\ (double_0_1 == Qmake 7205759403792794 72057594037927936)%Q
  /\ (Qabs.Qabs (double_0_1 - (1 # 10)) <= 1 # 144115188075855872)%Q.
Proof.
  split; [lia |]. split; [reflexivity |].
  vm_compute. discriminate.
Qed.

Lemma double_0_1_threshold (k : Z) :
  0 <= k < 4294967296 ->
  Qltb (Qmake k 4294967296) double_0_1 = Qltb (Qmake k 4294967296) (Qmake 1 10).
Proof.
  intros Hk. unfold Qltb, Qcompare, double_0_1. cbn [Qnum Qden].
  destruct (Z.compare_spec (k * 36028797018963968) (3602879701896397 * 4294967296));
    destruct (Z.compare_spec (k * 10) (1 * 4294967296)); try reflexivity; lia.
Qed.

(** C10.  A GTFT strategy created through the factory from a parameter
    bundle without a forgiveness entry is created, not refused, and its
    forgiveness probability is the number 0.1 (the double nearest to 1/10,
    which every draw compares with as it does with 1/10); an entry that is
    present is used as it is. *)
Theorem createStrategy_default_forgiveness :
  createStrategy "GTFT" (mkStrategyParams None)
    = Returns (mkStrategy (GenerousTitForTat double_0_1) "Generous TFT" [] [] 0)
  /\ (Qabs.Qabs (double_0_1 - (1 # 10)) <= 1 # 144115188075855872)%Q
  /\ (forall r : SeededRandom,
        Qltb (fst (random r)) double_0_1 = Qltb (fst (random r)) (Qmake 1 10))
  /\ (forall f : Q,
        createStrategy "GTFT" (mkStrategyParams (Some f))
          = Returns (mkStrategy (GenerousTitForTat f) "Generous TFT" [] [] 0)).
Proof.
  split; [reflexivity |]. split; [apply double_0_1_nearest |].
  split; [| reflexivity].
  intros r. unfold random. pose proof (random_bits_range r) as H.
  destruct (random_bits r) as [k r']. cbn [fst] in *.
  now apply double_0_1_threshold.
Qed.

(** ** Generous tit-for-tat *)

Lemma Qltb_lt x y : Qltb x y = true <-> (x < y)%Q.
Proof.
  unfold Qltb. rewrite Qlt_alt. destruct (x ?= y)%Q; split; congruence.
Qed.

Lemma Qltb_random_0 r : Qltb (fst (random r)) 0 = false.
Proof.
  destruct (Qltb (fst (random r)) 0) eqn:E; [| reflexivity].
  apply Qltb_lt in E. destruct (random_range r) as [H0 _].
  exfalso. exact (Qlt_not_le _ _ E H0).
Qed.

Lemma draw_eq who w :
  draw who w =
  (fst (random (globalRandom w)),
   mkWorld (snd (random (globalRandom w))) (console w)
           (trace w ++ [Drew who (fst (random (globalRandom w)))])).
Proof. unfold draw. now destruct (random (globalRandom w)). Qed.

(** [makeMove] of GTFT, case by case. *)
Lemma makeMove_gtft f nm h oh sc w :
  let s := mkStrategy (GenerousTitForTat f) nm h oh sc in
  makeMove s w =
  match last oh with
  | Some DEFECT =>
      ((if Qltb (fst (random (globalRandom w))) f then COOPERATE else DEFECT, s),
       snd (draw ByStrategy w))
  | _ => ((COOPERATE, s), w)
  end.
Proof.
  intros s. unfold makeMove. cbn [variant opponentHistory s].
  destruct (last oh) as [[|]|]; try reflexivity.
  unfold mbind, M_bind. rewrite draw_eq. cbn [snd].
  now destruct (Qltb _ f).
Qed.

(** ** Matches between draw-insensitive strategies *)

Lemma makeMove_det s w : drawInsensitive s -> fst (makeMove s w) = detMove s.
Proof.
  destruct s as [v nm h oh sc]. unfold drawInsensitive. cbn [variant].
  destruct v as [| | | b | f]; intros Hd.
  - reflexivity.
  - reflexivity.
  - unfold makeMove, detMove. cbn [variant opponentHistory].
    now destruct (last oh).
  - unfold makeMove, detMove. cbn [variant opponentHistory].
    destruct b; [reflexivity |]. now destruct (last oh) as [[|]|].
  - subst f. rewrite makeMove_gtft. unfold detMove. cbn [variant opponentHistory].
    destruct (last oh) as [[|]|]; try reflexivity.
    cbn [fst]. now rewrite Qltb_random_0.
Qed.

Lemma detMove_drawInsensitive s :
  drawInsensitive s -> drawInsensitive (snd (detMove s)).
Proof.
  destruct s as [v nm h oh sc]. unfold drawInsensitive, detMove.
  cbn [variant opponentHistory].
  destruct v as [| | | [] | f]; try (intros; exact I); try (intros H; exact H).
  destruct (last oh) as [[|]|]; intros; exact I.
Qed.

Lemma playRound_det g w :
  drawInsensitive (strategy1 g) -> drawInsensitive (strategy2 g) ->
  fst (playRound g w) = detRound g.
Proof.
  intros H1 H2. unfold playRound, detRound, mbind, M_bind.
  pose proof (makeMove_det (strategy1 g) w H1) as E1.
  destruct (makeMove (strategy1 g) w) as [[m1 s1] w1]. cbn [fst] in E1.
  rewrite <- E1.
  pose proof (makeMove_det (strategy2 g) w1 H2) as E2.
  destruct (makeMove (strategy2 g) w1) as [[m2 s2] w2]. cbn [fst] in E2.
  rewrite <- E2.
  destruct (getPayoff (payoffMatrix g) m1 m2) as [p1 p2]. reflexivity.
Qed.

Lemma detRound_drawInsensitive g :
  drawInsensitive (strategy1 g) -> drawInsensitive (strategy2 g) ->
  drawInsensitive (strategy1 (detRound g)) /\ drawInsensitive (strategy2 (detRound g)).
Proof.
  intros H1 H2. unfold detRound.
  pose proof (detMove_drawInsensitive _ H1) as D1.
  pose proof (detMove_drawInsensitive _ H2) as D2.
  destruct (detMove (strategy1 g)) as [m1 s1].
  destruct (detMove (strategy2 g)) as [m2 s2].
  destruct (getPayoff (payoffMatrix g) m1 m2) as [p1 p2].
  cbn [strategy1 strategy2 snd] in *. split; assumption.
Qed.

Lemma forRounds_det n : forall g w,
  drawInsensitive (strategy1 g) -> drawInsensitive (strategy2 g) ->
  fst (forRounds n g w) = detRounds n g.
Proof.
  induction n as [|n IH]; intros g w H1 H2; [reflexivity |].
  cbn [forRounds detRounds]. unfold mbind, M_bind.
  pose proof (playRound_det g w H1 H2) as E.
  destruct (playRound g w) as [g' w']. cbn [fst] in E. subst g'.
  destruct (detRound_drawInsensitive g H1 H2) as [D1 D2].
  now apply IH.
Qed.

(** [play] in fixed-length mode. *)
Lemma play_fixed g w :
  continuationProb g = None ->
  play g w =
  (resultOf (fst (forRounds (Z.to_nat (numRounds g)) (started g) w)),
   snd (forRounds (Z.to_nat (numRounds g)) (started g) w)).
Proof.
  destruct g as [s1 s2 pm nr cp rh]. cbn [continuationProb]. intros ->.
  unfold play, started, resultOf, mbind, M_bind.
  cbn [continuationProb numRounds strategy1 strategy2 payoffMatrix].
  now destruct (forRounds (Z.to_nat nr) _ w).
Qed.

Lemma detMove_asTitForTat s f :
  variant s = GenerousTitForTat f ->
  exists m, detMove s = (m, s) /\ detMove (asTitForTat s) = (m, asTitForTat s).
Proof.
  destruct s as [v nm h oh sc]. cbn [variant]. intros ->.
  eexists. split; reflexivity.
Qed.

Lemma detRound_withTitForTat1 g f :
  variant (strategy1 g) = GenerousTitForTat f ->
  detRound (withTitForTat1 g) = withTitForTat1 (detRound g)
  /\ variant (strategy1 (detRound g)) = GenerousTitForTat f.
Proof.
  intros Hv. destruct (detMove_asTitForTat _ _ Hv) as (m1 & E1 & E2).
  unfold detRound. cbn [withTitForTat1 strategy1 strategy2 payoffMatrix
                        numRounds continuationProb roundHistory].
  rewrite E2, E1.
  destruct (detMove (strategy2 g)) as [m2 s2].
  destruct (getPayoff (payoffMatrix g) m1 m2) as [p1 p2].
  split; [reflexivity |]. exact Hv.
Qed.

Lemma detRounds_withTitForTat1 n f : forall g,
  variant (strategy1 g) = GenerousTitForTat f ->
  detRounds n (withTitForTat1 g) = withTitForTat1 (detRounds n g).
Proof.
  induction n as [|n IH]; intros g Hv; [reflexivity |].
  cbn [detRounds]. destruct (detRound_withTitForTat1 g f Hv) as [E Hv'].
  rewrite E. now apply IH.
Qed.

Lemma reset_drawInsensitive s : drawInsensitive s -> drawInsensitive (reset s).
Proof.
  destruct s as [v nm h oh sc]. unfold drawInsensitive, reset. cbn [variant].
  now destruct v.
Qed.

(** A fixed-length match of GTFT with forgiveness 0 against a
    draw-insensitive opponent is, round for round, the match of TFT
    against that opponent, whatever the random source holds. *)
Lemma play_gtft0_as_tft opp pm rounds wG wT :
  drawInsensitive opp ->
  let rG := fst (play (mkGame (newGenerousTitForTat 0) opp pm rounds None []) wG) in
  let rT := fst (play (mkGame newTitForTat opp pm rounds None []) wT) in
  result_roundHistory rG = result_roundHistory rT
  /\ finalScore1 rG = finalScore1 rT /\ finalScore2 rG = finalScore2 rT.
Proof.
  intros Hopp. cbv zeta. rewrite !play_fixed by reflexivity. cbn [fst numRounds].
  pose proof (reset_drawInsensitive _ Hopp) as Hr.
  rewrite !forRounds_det by (try exact Hr; reflexivity).
  change (started (mkGame newTitForTat opp pm rounds None []))
    with (withTitForTat1 (started (mkGame (newGenerousTitForTat 0) opp pm rounds None []))).
  rewrite (detRounds_withTitForTat1 _ 0) by reflexivity.
  now destruct (detRounds _ _).
Qed.

(** Against another member of the tit-for-tat family nobody ever defects:
    no draw is made and every round is the deterministic round. *)
Lemma makeMove_peaceful s w :
  peaceful s -> fst (makeMove s w) = detMove s /\ detMove s = (COOPERATE, s).
Proof.
  destruct s as [v nm h oh sc]. unfold peaceful. cbn [variant opponentHistory].
  destruct v as [| | | b | f]; intros Hp; try contradiction.
  - unfold makeMove, detMove. cbn [variant opponentHistory].
    destruct (last oh) as [[|]|]; first [now split | now contradiction Hp].
  - rewrite makeMove_gtft. unfold detMove. cbn [variant opponentHistory].
    destruct (last oh) as [[|]|]; first [now split | now contradiction Hp].
Qed.

Lemma playRound_peaceful g w :
  peaceful (strategy1 g) -> peaceful (strategy2 g) ->
  fst (playRound g w) = detRound g
  /\ peaceful (strategy1 (detRound g)) /\ peaceful (strategy2 (detRound g)).
Proof.
  intros H1 H2. unfold playRound, detRound, mbind, M_bind.
  destruct (makeMove_peaceful (strategy1 g) w H1) as [E1 D1].
  destruct (makeMove (strategy1 g) w) as [[m1 s1] w1]. cbn [fst] in E1.
  rewrite <- E1. injection (eq_trans E1 D1) as -> ->.
  destruct (makeMove_peaceful (strategy2 g) w1 H2) as [E2 D2].
  destruct (makeMove (strategy2 g) w1) as [[m2 s2] w2]. cbn [fst] in E2.
  rewrite <- E2. injection (eq_trans E2 D2) as -> ->.
  destruct (getPayoff (payoffMatrix g) COOPERATE COOPERATE) as [p1 p2].
  cbn [fst strategy1 strategy2 logRound mret M_ret].
  split; [reflexivity |].
  unfold peaceful in *. cbn [updateScore recordMove variant opponentHistory].
  rewrite !last_snoc.
  destruct (variant (strategy1 g)), (variant (strategy2 g));
    try contradiction; split; discriminate.
Qed.

Lemma forRounds_peaceful n : forall g w,
  peaceful (strategy1 g) -> peaceful (strategy2 g) ->
  fst (forRounds n g w) = detRounds n g.
Proof.
  induction n as [|n IH]; intros g w H1 H2; [reflexivity |].
  cbn [forRounds detRounds]. unfold mbind, M_bind.
  destruct (playRound_peaceful g w H1 H2) as (E & P1 & P2).
  destruct (playRound g w) as [g' w']. cbn [fst] in E. subst g'.
  now apply IH.
Qed.

(** A fixed-length match of GTFT with forgiveness 0 against any opponent
    is, round for round, the match of TFT against that opponent,
    whatever the random source holds. *)
Lemma play_gtft0_as_tft_any opp pm rounds wG wT :
  let rG := fst (play (mkGame (newGenerousTitForTat 0) opp pm rounds None []) wG) in
  let rT := fst (play (mkGame newTitForTat opp pm rounds None []) wT) in
  result_roundHistory rG = result_roundHistory rT
  /\ finalScore1 rG = finalScore1 rT /\ finalScore2 rG = finalScore2 rT.
Proof.
  destruct (variant opp) as [| | | b | f] eqn:Hv;
    try (apply play_gtft0_as_tft; unfold drawInsensitive; now rewrite Hv).
  cbv zeta. rewrite !play_fixed by reflexivity. cbn [fst numRounds].
  assert (Hopp : peaceful (reset opp)).
  { destruct opp as [v nm h oh sc]. cbn [variant] in Hv. subst v.
    unfold peaceful, reset. cbn [variant opponentHistory last]. discriminate. }
  rewrite !forRounds_peaceful
    by (cbn [started strategy1 strategy2]; try exact Hopp;
        unfold peaceful; cbn; discriminate).
  change (started (mkGame newTitForTat opp pm rounds None []))
    with (withTitForTat1 (started (mkGame (newGenerousTitForTat 0) opp pm rounds None []))).
  rewrite (detRounds_withTitForTat1 _ 0) by reflexivity.
  now destruct (detRounds _ _).
Qed.

(** C2.  A [makeMove] call of GTFT draws exactly one value from the shared
    source when the opponent's last recorded move is DEFECT and none
    otherwise, and leaves the strategy object as it was; it returns
    COOPERATE exactly when the opponent history is empty, or the
    opponent's last move is COOPERATE, or the value drawn is strictly
    below the forgiveness probability.  With forgiveness 0 it returns the
    move that TFT returns in the same state and still makes the one draw
    after a defection; and a fixed-length match of GTFT(0) against any
    opponent, GTFT included, has the rounds and scores of the match of
    TFT against that opponent, whatever the random source holds.  (In
    continuation mode the two matches can differ: the draws of GTFT(0)
    shift the stream that decides the length of the match.) *)
Theorem gtft_draws_and_decisions :
  forall (f : Q) (nm : string) (h oh : list Action) (sc : Q) (w : World)
         (opp : Strategy) (pm : PayoffMatrix) (rounds : Z) (wG wT : World),
    let s := mkStrategy (GenerousTitForTat f) nm h oh sc in
    let s0 := mkStrategy (GenerousTitForTat 0) nm h oh sc in
    let d := fst (random (globalRandom w)) in
    let drawn := mkWorld (snd (random (globalRandom w))) (console w)
                         (trace w ++ [Drew ByStrategy d]) in
    (last oh = Some DEFECT -> snd (makeMove s w) = drawn)
    /\ (last oh <> Some DEFECT -> snd (makeMove s w) = w)
    /\ snd (fst (makeMove s w)) = s
    /\ (fst (fst (makeMove s w)) = COOPERATE
        <-> oh = [] \/ last oh = Some COOPERATE
            \/ (last oh = Some DEFECT /\ (d < f)%Q))
    /\ fst (fst (makeMove s0 w)) = fst (fst (makeMove (asTitForTat s0) w))
    /\ (last oh = Some DEFECT -> snd (makeMove s0 w) = drawn)
    /\ (let rG := fst (play (mkGame (newGenerousTitForTat 0) opp pm rounds None []) wG) in
        let rT := fst (play (mkGame newTitForTat opp pm rounds None []) wT) in
        result_roundHistory rG = result_roundHistory rT
        /\ finalScore1 rG = finalScore1 rT /\ finalScore2 rG = finalScore2 rT).
Proof.
  intros f nm h oh sc w opp pm rounds wG wT s s0 d drawn.
  assert (Hdrawn : snd (draw ByStrategy w) = drawn) by (now rewrite draw_eq).
  split_and!.
  - intros Hl. subst s. rewrite makeMove_gtft, Hl. exact Hdrawn.
  - intros Hl. subst s. rewrite makeMove_gtft.
    destruct (last oh) as [[|]|]; try reflexivity. now contradiction Hl.
  - subst s. rewrite makeMove_gtft. now destruct (last oh) as [[|]|].
  - subst s. rewrite makeMove_gtft. rewrite <- last_None.
    destruct (last oh) as [[|]|]; cbn [fst].
    + split; [intros _; right; left; reflexivity | reflexivity].
    + fold d. destruct (Qltb d f) eqn:E.
      * apply Qltb_lt in E. split; [intros _; right; right; now split | reflexivity].
      * split; [discriminate |].
        intros [H | [H | [_ H]]]; try discriminate.
        apply Qltb_lt in H. congruence.
    + split; [intros _; left; reflexivity | reflexivity].
  - rewrite !makeMove_det by reflexivity. reflexivity.
  - intros Hl. subst s0. rewrite makeMove_gtft, Hl. exact Hdrawn.
  - apply play_gtft0_as_tft_any.
Qed.

(** C2, as the specification states it, fails in continuation mode: with
    continuation probability 0.7 and seed 42, GTFT(0) against ALL-D plays
    two rounds where TFT against ALL-D plays three, because the draw that
    GTFT(0) makes in round 2 takes the value that would have continued the
    match. *)
Lemma gtft0_differs_from_tft_in_continuation_mode :
  let pm := mkPayoffMatrix 5 3 1 0 in
  let rG := fst (play (mkGame (newGenerousTitForTat 0) newAlwaysDefect pm 0
                              (Some (7 # 10)) []) (worldWithSeed 42)) in
  let rT := fst (play (mkGame newTitForTat newAlwaysDefect pm 0
                              (Some (7 # 10)) []) (worldWithSeed 42)) in
  map move1 (result_roundHistory rG) = [COOPERATE; DEFECT]
  /\ map move1 (result_roundHistory rT) = [COOPERATE; DEFECT; DEFECT]
  /\ map move1 (result_roundHistory rG) <> map move1 (result_roundHistory rT).
Proof.
  cbv zeta.
  assert (EG : map move1 (result_roundHistory
                 (fst (play (mkGame (newGenerousTitForTat 0) newAlwaysDefect
                                    (mkPayoffMatrix 5 3 1 0) 0 (Some (7 # 10)) [])
                            (worldWithSeed 42))))
               = [COOPERATE; DEFECT]) by (vm_compute; reflexivity).
  assert (ET : map move1 (result_roundHistory
                 (fst (play (mkGame newTitForTat newAlwaysDefect
                                    (mkPayoffMatrix 5 3 1 0) 0 (Some (7 # 10)) [])
                            (worldWithSeed 42))))
               = [COOPERATE; DEFECT; DEFECT]) by (vm_compute; reflexivity).
  rewrite EG, ET. split_and!; try reflexivity. discriminate.
Qed.

Lemma gtft_draws_and_decisions_witness :
  last [DEFECT] = Some DEFECT
  /\ snd (makeMove (mkStrategy (GenerousTitForTat (1 # 2)) "Generous TFT"
                               [COOPERATE] [DEFECT] 0) (worldWithSeed 42))
     = mkWorld (snd (random (mkSeededRandom 42))) []
               [Drew ByStrategy (fst (random (mkSeededRandom 42)))].
Proof.
  split; [reflexivity |].
  destruct (gtft_draws_and_decisions (1 # 2) "Generous TFT" [COOPERATE] [DEFECT] 0
              (worldWithSeed 42) newAlwaysDefect (mkPayoffMatrix 5 3 1 0) 3
              (worldWithSeed 42) (worldWithSeed 7)) as [H _].
  apply H. reflexivity.
Defined.

(** ** Grim trigger *)

Lemma runOps_triggered ops : forall nm h oh sc w,
  forallb (fun op => negb (isReset op)) ops = true ->
  let r := runOps ops (mkStrategy (GrimTrigger true) nm h oh sc) w in
  Forall (fun a => a = DEFECT) (fst (fst r)) /\ isTriggered (snd (fst r)) = true.
Proof.
  induction ops as [|op ops IH]; intros nm h oh sc w Hnr; cbv zeta.
  - split; [constructor | reflexivity].
  - cbn [forallb] in Hnr. apply andb_prop in Hnr as [Hop Hnr].
    destruct op as [| my opp | payoff |]; cbn [runOps].
    + unfold makeMove. cbn [variant]. unfold mbind, M_bind, mret, M_ret.
      specialize (IH nm h oh sc w Hnr). cbv zeta in IH.
      destruct (runOps ops _ w) as [[moves s''] w'].
      cbn [fst snd] in *. destruct IH as [IH1 IH2]. split; [now constructor | exact IH2].
    + exact (IH nm (h ++ [my]) (oh ++ [opp]) sc w Hnr).
    + exact (IH nm h oh (sc + payoff)%Q w Hnr).
    + discriminate Hop.
Qed.

Lemma runOps_untriggered ops : forall nm h oh sc w,
  DEFECT ∉ oh -> DEFECT ∉ recordedOpponentMoves ops ->
  Forall (fun a => a = COOPERATE)
         (fst (fst (runOps ops (mkStrategy (GrimTrigger false) nm h oh sc) w))).
Proof.
  induction ops as [|op ops IH]; intros nm h oh sc w Hoh Hops.
  - constructor.
  - destruct op as [| my opp | payoff |]; cbn [runOps].
    + assert (Hm : makeMove (mkStrategy (GrimTrigger false) nm h oh sc) w
                   = ((COOPERATE, mkStrategy (GrimTrigger false) nm h oh sc), w)).
      { unfold makeMove. cbn [variant opponentHistory].
        destruct (last oh) as [[|]|] eqn:El; try reflexivity.
        exfalso. apply Hoh. now apply last_Some_elem_of. }
      unfold mbind, M_bind. rewrite Hm.
      specialize (IH nm h oh sc w Hoh Hops).
      destruct (runOps ops _ w) as [[moves s''] w']. cbn [fst] in *.
      now constructor.
    + cbn [recordedOpponentMoves flat_map] in Hops.
      apply IH.
      * intros Hin. apply elem_of_app in Hin as [Hin | Hin]; [now apply Hoh |].
        apply Hops. apply list_elem_of_singleton in Hin. subst opp.
        cbn. apply list_elem_of_here.
      * intros Hin. apply Hops. cbn. now apply list_elem_of_further.
    + now apply IH.
    + apply IH; [apply not_elem_of_nil | exact Hops].
Qed.

(** ** What one round changes *)

Lemma engineEvents_app t1 t2 :
  engineEvents (t1 ++ t2) = engineEvents t1 ++ engineEvents t2.
Proof. unfold engineEvents. apply filter_app. Qed.

(** A [makeMove] call writes nothing on the console and adds at most
    strategy draws to the trace. *)
Lemma makeMove_world s w :
  console (snd (makeMove s w)) = console w
  /\ engineEvents (trace (snd (makeMove s w))) = engineEvents (trace w).
Proof.
  destruct s as [v nm h oh sc]. destruct v as [| | | b | f].
  - now split.
  - now split.
  - unfold makeMove. cbn [variant opponentHistory]. now destruct (last oh).
  - unfold makeMove. cbn [variant opponentHistory].
    destruct b; [now split |]. now destruct (last oh) as [[|]|].
  - rewrite makeMove_gtft. destruct (last oh) as [[|]|]; try now split.
    rewrite draw_eq. cbn [snd console trace]. split; [reflexivity |].
    rewrite engineEvents_app. cbn. apply app_nil_r.
Qed.

(** A round pushes one record, numbered from 1, and leaves the payoff
    matrix and the mode of the game as they were; on the trace of engine
    events it adds the round and nothing else. *)
Lemma playRound_effect g w :
  let g' := fst (playRound g w) in
  let w' := snd (playRound g w) in
  (exists r, roundHistory g' = roundHistory g ++ [r]
             /\ round r = (length (roundHistory g) + 1)%nat)
  /\ payoffMatrix g' = payoffMatrix g
  /\ continuationProb g' = continuationProb g
  /\ numRounds g' = numRounds g
  /\ console w' = console w
  /\ engineEvents (trace w')
     = engineEvents (trace w) ++ [RoundPlayed (length (roundHistory g) + 1)].
Proof.
  cbv zeta. unfold playRound, mbind, M_bind.
  destruct (makeMove_world (strategy1 g) w) as [C1 T1].
  destruct (makeMove (strategy1 g) w) as [[m1 s1] w1]. cbn [snd] in C1, T1.
  destruct (makeMove_world (strategy2 g) w1) as [C2 T2].
  destruct (makeMove (strategy2 g) w1) as [[m2 s2] w2]. cbn [snd] in C2, T2.
  destruct (getPayoff (payoffMatrix g) m1 m2) as [p1 p2].
  cbn [fst snd logRound mret M_ret roundHistory payoffMatrix continuationProb
       numRounds console trace].
  split_and!; try reflexivity.
  - eexists. split; reflexivity.
  - congruence.
  - rewrite engineEvents_app, T2, T1. reflexivity.
Qed.

Lemma forRounds_effect n : forall g w,
  let g' := fst (forRounds n g w) in
  let w' := snd (forRounds n g w) in
  length (roundHistory g') = (length (roundHistory g) + n)%nat
  /\ console w' = console w
  /\ engineEvents (trace w')
     = engineEvents (trace w) ++ roundsFrom (length (roundHistory g)) n.
Proof.
  induction n as [|n IH]; intros g w; cbv zeta.
  - cbn. rewrite app_nil_r. split_and!; [lia | reflexivity | reflexivity].
  - cbn [forRounds]. unfold mbind, M_bind.
    pose proof (playRound_effect g w) as Hp. cbv zeta in Hp.
    destruct (playRound g w) as [g1 w1]. cbn [fst snd] in Hp.
    destruct Hp as ((r & Hr & _) & _ & _ & _ & Hc & Ht).
    specialize (IH g1 w1). cbv zeta in IH. destruct IH as (IHl & IHc & IHt).
    rewrite Hr, length_app in IHl, IHt. cbn [length] in IHl, IHt.
    split_and!.
    + rewrite IHl. lia.
    + congruence.
    + rewrite IHt, Ht, <- app_assoc. f_equal.
      unfold roundsFrom. cbn [seq map].
      replace (length (roundHistory g) + 1)%nat with (S (length (roundHistory g))) by lia.
      reflexivity.
Qed.

(** ** Fixed-length matches *)

(** C7.  In fixed-length mode [play] executes exactly [numRounds] rounds
    for every non-negative integer [numRounds], numbered 1 to [numRounds],
    and the engine draws nothing; with [numRounds = 0] it returns a result
    with an empty round history, both final scores 0 and both cooperation
    rates 0, and leaves the world as it was; the cooperation rate of a
    strategy with no recorded action of its own is 0. *)
Theorem play_fixed_length :
  forall (s1 s2 : Strategy) (pm : PayoffMatrix) (rounds : Z)
         (rh : list RoundRecord) (w : World)
         (v : Variant) (nm : string) (oh : list Action) (sc : Q),
    0 <= rounds ->
    let g := mkGame s1 s2 pm rounds None rh in
    Z.of_nat (length (result_roundHistory (fst (play g w)))) = rounds
    /\ engineEvents (trace (snd (play g w)))
       = engineEvents (trace w) ++ map RoundPlayed (seq 1 (Z.to_nat rounds))
    /\ play (mkGame s1 s2 pm 0 None rh) w
       = (mkMatchResult (name s1) (name s2) 0 0 0 0 [], w)
    /\ getCooperationRate (mkStrategy v nm [] oh sc) = 0%Q.
Proof.
  intros s1 s2 pm rounds rh w v nm oh sc Hn g.
  subst g. rewrite play_fixed by reflexivity. cbn [fst snd numRounds].
  pose proof (forRounds_effect (Z.to_nat rounds)
                (started (mkGame s1 s2 pm rounds None rh)) w) as H.
  cbv zeta in H. destruct H as (Hl & _ & Ht).
  split_and!.
  - unfold resultOf. cbn [result_roundHistory]. rewrite Hl. cbn [started roundHistory length].
    lia.
  - exact Ht.
  - rewrite play_fixed by reflexivity. reflexivity.
  - reflexivity.
Qed.

Lemma play_fixed_length_witness :
  0 <= 3
  /\ Z.of_nat (length (result_roundHistory
                         (fst (play (mkGame newTitForTat newAlwaysDefect
                                            (mkPayoffMatrix 5 3 1 0) 3 None [])
                                    (worldWithSeed 42))))) = 3.
Proof.
  split; [lia |].
  apply (play_fixed_length newTitForTat newAlwaysDefect (mkPayoffMatrix 5 3 1 0) 3 []
           (worldWithSeed 42) TitForTat "Tit-for-Tat (TFT)" [] 0).
  lia.
Defined.

(** ** Tit-for-tat against itself *)





(** ** Matches with a continuation probability *)

Lemma loopCond_spec prob roundCount d :
  loopCond prob roundCount d = true <-> (d < prob)%Q /\ roundCount < maxRounds.
Proof.
  unfold loopCond. rewrite andb_true_iff, Qltb_lt, Z.ltb_lt. reflexivity.
Qed.

Lemma whileContinue_cases prob roundCount g w :
  whileContinue prob roundCount g w =
  if loopCond prob roundCount (fst (draw ByEngine w)) then
    whileContinue prob (roundCount + 1)
                  (fst (playRound g (snd (draw ByEngine w))))
                  (snd (playRound g (snd (draw ByEngine w))))
  else ((roundCount, g), snd (draw ByEngine w)).
Proof.
  rewrite whileContinue_step. destruct (draw ByEngine w) as [d w1]. cbn [fst snd].
  destruct (loopCond prob roundCount d); [| reflexivity].
  now destruct (playRound g w1).
Qed.

(** The [while] loop entered after round [length (roundHistory g)] with
    [roundCount] counted so far: it makes a first draw [d0] and then, for
    each further draw, plays a round first.  Each draw but the last passed
    the loop condition, and the last failed it. *)
Lemma whileContinue_effect m : forall prob roundCount g w,
  (remaining roundCount < m)%nat ->
  let r := whileContinue prob roundCount g w in
  exists d0 ds,
    engineEvents (trace (snd r))
      = engineEvents (trace w)
        ++ Drew ByEngine d0 :: alternation (S (length (roundHistory g))) ds
    /\ length (roundHistory (snd (fst r))) = (length (roundHistory g) + length ds)%nat
    /\ fst (fst r) = roundCount + Z.of_nat (length ds)
    /\ console (snd r) = console w
    /\ Forall (fun v => (0 <= v)%Q /\ (v < 1)%Q) (d0 :: ds)
    /\ (forall i d, (d0 :: ds) !! i = Some d ->
           ((i < length ds)%nat <-> loopCond prob (roundCount + Z.of_nat i) d = true)).
Proof.
  induction m as [|m IH]; intros prob roundCount g w Hm; [lia |].
  cbv zeta. rewrite whileContinue_cases, draw_eq. cbn [fst snd].
  pose proof (random_range (globalRandom w)) as Hd.
  destruct (random (globalRandom w)) as [d r1]. cbn [fst snd] in Hd |- *.
  remember (mkWorld r1 (console w) (trace w ++ [Drew ByEngine d])) as w1 eqn:Ew1.
  destruct (loopCond prob roundCount d) eqn:Ec.
  - pose proof (playRound_effect g w1) as Hp. cbv zeta in Hp.
    destruct (playRound g w1) as [g1 w2]. cbn [fst snd] in Hp |- *.
    destruct Hp as ((r & Hr & _) & _ & _ & _ & Hc & Ht).
    pose proof (loopCond_remaining _ _ _ Ec) as Hrem.
    specialize (IH prob (roundCount + 1) g1 w2 ltac:(lia)). cbv zeta in IH.
    destruct IH as (d1 & ds & It & Il & Irc & Ic & If & Ii).
    exists d, (d1 :: ds). rewrite Hr, length_app in It, Il. cbn [length] in It, Il.
    split_and!.
    + rewrite It, Ht. subst w1. cbn [trace]. rewrite engineEvents_app.
      cbn [alternation]. rewrite <- !app_assoc. f_equal. cbn.
      replace (length (roundHistory g) + 1)%nat with (S (length (roundHistory g))) by lia.
      reflexivity.
    + rewrite Il. cbn [length]. lia.
    + rewrite Irc. cbn [length]. lia.
    + rewrite Ic, Hc, Ew1. reflexivity.
    + constructor; [exact Hd | exact If].
    + intros [|i] d' Hd'.
      * cbn in Hd'. injection Hd' as <-. rewrite Z.add_0_r, Ec.
        cbn [length]. split; [reflexivity | lia].
      * cbn [lookup list_lookup] in Hd'. specialize (Ii i d' Hd').
        replace (roundCount + Z.of_nat (S i)) with (roundCount + 1 + Z.of_nat i) by lia.
        rewrite <- Ii. cbn [length]. lia.
  - exists d, []. cbn [fst snd alternation length]. split_and!.
    + subst w1. cbn [trace]. now rewrite engineEvents_app.
    + lia.
    + lia.
    + now subst w1.
    + constructor; [exact Hd | constructor].
    + intros [|i] d' Hd'.
      * cbn in Hd'. injection Hd' as <-. rewrite Z.add_0_r, Ec.
        split; [lia | discriminate].
      * cbn in Hd'. discriminate.
Qed.

(** [play] with a continuation probability. *)
Lemma play_continuation g w prob :
  continuationProb g = Some prob ->
  play g w =
  let p1 := playRound (started g) w in
  let r := whileContinue prob 1 (fst p1) (snd p1) in
  (resultOf (snd (fst r)),
   if maxRounds <=? fst (fst r)
   then snd (warn "Game reached maximum round limit of 10000 rounds" (snd r))
   else snd r).
Proof.
  destruct g as [s1 s2 pm nr cp rh]. cbn [continuationProb]. intros ->.
  unfold play, started, resultOf, mbind, M_bind.
  cbn [continuationProb numRounds strategy1 strategy2 payoffMatrix].
  destruct (playRound _ w) as [g1 w1]. cbn [fst snd].
  destruct (whileContinue prob 1 g1 w1) as [[rc g2] w2]. cbn [fst snd].
  now destruct (maxRounds <=? rc).
Qed.

(** C3.  With a continuation probability, [play] plays at least one
    round and at most 10000; after each round, the last one included, the
    engine draws exactly one value, and the next round is played exactly
    when that value is strictly below the probability and fewer than
    10000 rounds were played; the engine draws at no other time.  The
    call always returns its result: at the ceiling it returns after
    writing one warning on the console, and the ceiling is reached when
    the probability is 1 or more. *)
Theorem play_continuation_rounds :
  forall (prob : Q) (s1 s2 : Strategy) (pm : PayoffMatrix) (nr : Z)
         (rh : list RoundRecord) (w : World),
    let g := mkGame s1 s2 pm nr (Some prob) rh in
    let n := Z.of_nat (length (result_roundHistory (fst (play g w)))) in
    let w' := snd (play g w) in
    exists ds : list Q,
      Z.of_nat (length ds) = n
      /\ 1 <= n <= 10000
      /\ engineEvents (trace w') = engineEvents (trace w) ++ alternation 1 ds
      /\ Forall (fun d => (0 <= d)%Q /\ (d < 1)%Q) ds
      /\ (forall (i : nat) (d : Q), ds !! i = Some d ->
             (Z.of_nat i + 1 < n <-> (d < prob)%Q /\ Z.of_nat i + 1 < 10000))
      /\ console w'
         = console w ++ (if n =? 10000
                         then ["Game reached maximum round limit of 10000 rounds"]
                         else [])
      /\ ((1 <= prob)%Q -> n = 10000).
Proof.
  intros prob s1 s2 pm nr rh w g n w'. subst n w'.
  rewrite (play_continuation g w prob) by reflexivity. cbv zeta. cbn [fst snd].
  pose proof (playRound_effect (started g) w) as Hp. cbv zeta in Hp.
  destruct (playRound (started g) w) as [g1 w1]. cbn [fst snd] in Hp |- *.
  destruct Hp as ((r & Hr & _) & _ & _ & _ & Hc & Ht).
  change (roundHistory (started g)) with (@nil RoundRecord) in Hr, Ht.
  cbn [app length Nat.add] in Hr, Ht.
  destruct (whileContinue_effect (S (remaining 1)) prob 1 g1 w1 ltac:(lia))
    as (d0 & ds & Lt & Ll & Lrc & Lc & Lf & Li).
  cbv zeta in Lt, Ll, Lrc, Lc, Li. rewrite Hr in Lt, Ll. cbn [length Nat.add] in Lt, Ll.
  destruct (whileContinue prob 1 g1 w1) as [[rc g2] w2]. cbn [fst snd] in *.
  unfold resultOf. cbn [result_roundHistory]. rewrite Ll.
  assert (Hmax : Z.of_nat (length ds) < maxRounds).
  { destruct (decide (length ds = 0%nat)) as [-> | Hne]; [reflexivity |].
    destruct (lookup_lt_is_Some_2 (d0 :: ds) (length ds - 1)) as [d Hd];
      [cbn [length]; lia |].
    destruct (Li _ _ Hd) as [Hi _].
    apply loopCond_spec in Hi as [_ Hi]; lia. }
  unfold maxRounds in *.
  exists (d0 :: ds). split_and!.
  - cbn [length]. lia.
  - lia.
  - lia.
  - destruct (Z.leb_spec 10000 rc).
    + cbn [warn snd trace]. rewrite Lt, Ht, <- app_assoc. reflexivity.
    + rewrite Lt, Ht, <- app_assoc. reflexivity.
  - exact Lf.
  - intros i d Hd. specialize (Li i d Hd). rewrite loopCond_spec in Li.
    unfold maxRounds in Li. split.
    + intros H. assert (Hi : (i < length ds)%nat) by lia.
      apply Li in Hi as [H1 H2]. split; [exact H1 | lia].
    + intros [H1 H2].
      assert (Hi : (i < length ds)%nat) by (apply Li; split; [exact H1 | lia]).
      lia.
  - subst rc. destruct (Z.leb_spec 10000 (1 + Z.of_nat (length ds)));
      destruct (Z.eqb_spec (Z.of_nat (S (length ds))) 10000); try lia.
    + cbn [warn snd console]. congruence.
    + rewrite app_nil_r. congruence.
  - intros Hprob.
    destruct (decide (Z.of_nat (S (length ds)) = 10000)) as [E | Hne]; [exact E |].
    exfalso.
    destruct (lookup_lt_is_Some_2 (d0 :: ds) (length ds)) as [d Hd];
      [cbn [length]; lia |].
    destruct (Li _ _ Hd) as [_ Hi].
    assert (Hin : (0 <= d)%Q /\ (d < 1)%Q).
    { rewrite Forall_forall in Lf. apply Lf. eapply list_elem_of_lookup_2. exact Hd. }
    assert (Hlt : (length ds < length ds)%nat); [| lia].
    apply Hi. apply loopCond_spec. split.
    + eapply Qlt_le_trans; [apply Hin | exact Hprob].
    + unfold maxRounds. lia.
Qed.

(** ** The round-robin tournament *)

Lemma forEach_liftO {A S : Type} (f : S -> A -> Outcome S) (l : list A) :
  forall (s : S) (st : Tournament * World),
    forEach l (fun s x => liftO (f s x)) s st = (foldOutcome f l s, st).
Proof.
  induction l as [|x l IH]; intros s st; cbn [forEach foldOutcome]; [reflexivity |].
  unfold mbind, TM_bind, liftO at 1. destruct (f s x); [apply IH | reflexivity].
Qed.

Lemma TM_bind_returns {A B : Type} (m : TM A) (f : A -> TM B) st a st' :
  m st = (Returns a, st') -> (m ≫= f) st = f a st'.
Proof. intros H. unfold mbind, TM_bind. now rewrite H. Qed.

(** *** Names survive a match *)

Lemma makeMove_name s w : name (snd (fst (makeMove s w))) = name s.
Proof.
  destruct s as [v nm h oh sc]. destruct v as [| | | b | f].
  - reflexivity.
  - reflexivity.
  - unfold makeMove. cbn [variant opponentHistory]. now destruct (last oh).
  - unfold makeMove. cbn [variant opponentHistory].
    destruct b; [reflexivity |]. now destruct (last oh) as [[|]|].
  - rewrite makeMove_gtft. now destruct (last oh) as [[|]|].
Qed.

Lemma playRound_names g w :
  name (strategy1 (fst (playRound g w))) = name (strategy1 g)
  /\ name (strategy2 (fst (playRound g w))) = name (strategy2 g).
Proof.
  unfold playRound, mbind, M_bind.
  pose proof (makeMove_name (strategy1 g) w) as N1.
  destruct (makeMove (strategy1 g) w) as [[m1 s1] w1]. cbn [fst snd] in N1.
  pose proof (makeMove_name (strategy2 g) w1) as N2.
  destruct (makeMove (strategy2 g) w1) as [[m2 s2] w2]. cbn [fst snd] in N2.
  destruct (getPayoff (payoffMatrix g) m1 m2) as [p1 p2].
  cbn. now split.
Qed.

Lemma forRounds_names n : forall g w,
  name (strategy1 (fst (forRounds n g w))) = name (strategy1 g)
  /\ name (strategy2 (fst (forRounds n g w))) = name (strategy2 g).
Proof.
  induction n as [|n IH]; intros g w; [now split |].
  cbn [forRounds]. unfold mbind, M_bind.
  destruct (playRound_names g w) as [N1 N2].
  destruct (playRound g w) as [g1 w1]. cbn [fst] in N1, N2.
  destruct (IH g1 w1) as [M1 M2]. split; congruence.
Qed.

Lemma whileContinue_names m : forall prob roundCount g w,
  (remaining roundCount < m)%nat ->
  name (strategy1 (snd (fst (whileContinue prob roundCount g w)))) = name (strategy1 g)
  /\ name (strategy2 (snd (fst (whileContinue prob roundCount g w)))) = name (strategy2 g).
Proof.
  induction m as [|m IH]; intros prob roundCount g w Hm; [lia |].
  rewrite whileContinue_cases.
  destruct (loopCond prob roundCount _) eqn:Ec; [| now split].
  pose proof (loopCond_remaining _ _ _ Ec) as Hrem.
  destruct (playRound_names g (snd (draw ByEngine w))) as [N1 N2].
  destruct (IH prob (roundCount + 1) (fst (playRound g (snd (draw ByEngine w))))
               (snd (playRound g (snd (draw ByEngine w)))) ltac:(lia)) as [M1 M2].
  split; congruence.
Qed.

Lemma play_names g w :
  strategy1Name (fst (play g w)) = name (strategy1 g)
  /\ strategy2Name (fst (play g w)) = name (strategy2 g).
Proof.
  assert (Hs : name (strategy1 (started g)) = name (strategy1 g)
               /\ name (strategy2 (started g)) = name (strategy2 g)) by now split.
  destruct Hs as [S1 S2].
  destruct (continuationProb g) as [prob|] eqn:Ec.
  - rewrite (play_continuation g w prob Ec). cbv zeta. cbn [fst resultOf strategy1Name strategy2Name].
    destruct (playRound_names (started g) w) as [N1 N2].
    destruct (whileContinue_names (S (remaining 1)) prob 1
                (fst (playRound (started g) w)) (snd (playRound (started g) w))
                ltac:(lia)) as [M1 M2].
    split; congruence.
  - rewrite (play_fixed g w Ec). cbn [fst resultOf strategy1Name strategy2Name].
    destruct (forRounds_names (Z.to_nat (numRounds g)) (started g) w) as [N1 N2].
    split; congruence.
Qed.

(** *** The score mapping *)

Lemma setCell_returns k1 k2 v (m : gmap string (gmap string (option Q))) :
  k1 ∈ dom m ->
  exists m', setCell k1 k2 v m = Returns m' /\ dom m' = dom m
             /\ (forall nm x, v = Some x -> diagonalSet m nm -> diagonalSet m' nm)
             /\ (forall x, v = Some x -> k1 = k2 -> diagonalSet m' k1).
Proof.
  intros Hin. apply elem_of_dom in Hin as [row Hrow]. unfold setCell. rewrite Hrow.
  eexists. split; [reflexivity |]. split; [| split].
  - apply dom_insert_lookup_L. now exists row.
  - intros nm x -> (row' & y & Hr & Hy). unfold diagonalSet.
    destruct (decide (k1 = nm)) as [-> | Hne].
    + rewrite lookup_insert_eq. rewrite Hrow in Hr. injection Hr as ->.
      destruct (decide (k2 = nm)) as [-> | Hne2].
      * exists (<[nm := Some x]> row'), x. now rewrite lookup_insert_eq.
      * exists (<[k2 := Some x]> row'), y. now rewrite lookup_insert_ne.
    + exists row', y. now rewrite lookup_insert_ne.
  - intros x -> <-. exists (<[k1 := Some x]> row), x.
    now rewrite !lookup_insert_eq.
Qed.

Lemma dom_initScoreMatrix names nm :
  nm ∈ names -> nm ∈ dom (initScoreMatrix names).
Proof.
  unfold initScoreMatrix. generalize (foldl (fun row name2 => <[name2 := None]> row)
                                            (∅ : gmap string (option Q)) names).
  intros row0.
  assert (H : forall l (m0 : gmap string (gmap string (option Q))),
             nm ∈ l \/ nm ∈ dom m0 ->
             nm ∈ dom (foldl (fun m name1 => <[name1 := row0]> m) m0 l)).
  { induction l as [|x l IH]; intros m0 [Hin | Hin]; cbn [foldl].
    - now apply elem_of_nil in Hin.
    - exact Hin.
    - apply IH. apply elem_of_cons in Hin as [-> | Hin]; [right | now left].
      rewrite dom_insert_L. set_solver.
    - apply IH. right. rewrite dom_insert_L. set_solver. }
  intros Hin. apply H. now left.
Qed.

(** *** Aggregation *)

Lemma addToStats_returns nm sc rate (agg : gmap string StrategyStats) :
  nm ∈ dom agg ->
  exists agg', addToStats nm sc rate agg = Returns agg' /\ dom agg' = dom agg
    /\ (forall k st, agg !! k = Some st ->
          exists st', agg' !! k = Some st'
            /\ totalScore st'
               = (if decide (nm = k) then (totalScore st + sc)%Q else totalScore st)
            /\ gamesPlayed st'
               = (if decide (nm = k) then S (gamesPlayed st) else gamesPlayed st)).
Proof.
  intros Hin. apply elem_of_dom in Hin as [data Hdata]. unfold addToStats. rewrite Hdata.
  eexists. split; [reflexivity |]. split.
  - apply dom_insert_lookup_L. now exists data.
  - intros k st Hk. destruct (decide (nm = k)) as [-> | Hne].
    + rewrite lookup_insert_eq. rewrite Hdata in Hk. injection Hk as ->.
      eexists. split; [reflexivity |]. now split.
    + rewrite lookup_insert_ne by exact Hne. eexists. split; [exact Hk |]. now split.
Qed.

(** Adding the matches of [rs] to [agg]: for every entry, the total grows
    by the scores of that name in [rs], added one by one in order, and the
    count by their number. *)
Lemma foldOutcome_addMatch rs : forall (agg : gmap string StrategyStats),
  (forall r, r ∈ rs -> strategy1Name r ∈ dom agg /\ strategy2Name r ∈ dom agg) ->
  exists agg', foldOutcome addMatch rs agg = Returns agg' /\ dom agg' = dom agg
    /\ (forall k st, agg !! k = Some st ->
          exists st', agg' !! k = Some st'
            /\ totalScore st' = foldl Qplus (totalScore st) (scoresIn k rs)
            /\ gamesPlayed st' = (gamesPlayed st + length (scoresIn k rs))%nat).
Proof.
  induction rs as [|r rs IH]; intros agg Hdom.
  - exists agg. split; [reflexivity |]. split; [reflexivity |].
    intros k st Hk. exists st. cbn. split; [exact Hk |]. split; [reflexivity | lia].
  - destruct (Hdom r ltac:(left)) as [H1 H2].
    destruct (addToStats_returns (strategy1Name r) (finalScore1 r) (cooperationRate1 r)
                agg H1) as (agg1 & E1 & D1 & L1).
    destruct (addToStats_returns (strategy2Name r) (finalScore2 r) (cooperationRate2 r)
                agg1 ltac:(now rewrite D1)) as (agg2 & E2 & D2 & L2).
    destruct (IH agg2) as (agg' & E & D & L).
    { intros r' Hr'. rewrite D2, D1. apply Hdom. now right. }
    exists agg'. split; [| split].
    + cbn [foldOutcome]. unfold addMatch at 1. now rewrite E1, E2.
    + congruence.
    + intros k st Hk.
      destruct (L1 k st Hk) as (st1 & K1 & T1 & G1).
      destruct (L2 k st1 K1) as (st2 & K2 & T2 & G2).
      destruct (L k st2 K2) as (st' & K' & T' & G').
      exists st'. split; [exact K' |].
      unfold scoresIn in *. cbn [flat_map]. unfold scoresOf at 1 3.
      rewrite T', G', T2, G2, T1, G1.
      destruct (decide (strategy1Name r = k)), (decide (strategy2Name r = k));
        cbn [app foldl length]; split; try reflexivity; lia.
Qed.

(** *** The matches of the round robin *)

Lemma strategyAt_name (params : StrategyParams) (i : nat) (nm : string) :
  rrNames !! i = Some nm ->
  exists s, createStrategyAt getAllStrategyCodes i params = Returns s /\ name s = nm.
Proof.
  intros Hi.
  do 5 (destruct i as [|i];
        [cbn in Hi; injection Hi as <-; eexists; split; reflexivity |]).
  cbn in Hi. discriminate.
Qed.

Lemma playPair_run t i j mr pm tt w n1 n2 :
  rrNames !! i = Some n1 -> rrNames !! j = Some n2 ->
  (forall nm, nm ∈ rrNames -> nm ∈ dom pm) ->
  exists r pm' w',
    playPair t getAllStrategyCodes i j (mr, pm) (tt, w)
      = (Returns (mr ++ [r], pm'), (tt, w'))
    /\ pairing r = (n1, n2)
    /\ (forall nm, nm ∈ rrNames -> nm ∈ dom pm')
    /\ (forall nm, diagonalSet pm nm -> diagonalSet pm' nm).
Proof.
  intros Hi Hj Hdom.
  destruct (strategyAt_name (strategyParams t) i n1 Hi) as (s1 & E1 & N1).
  destruct (strategyAt_name (strategyParams t) j n2 Hj) as (s2 & E2 & N2).
  unfold playPair. rewrite E1, E2.
  unfold mbind, TM_bind, liftO at 1 2. unfold liftM at 1.
  destruct (play_names (newGame t s1 s2) w) as [P1 P2].
  destruct (play (newGame t s1 s2) w) as [r w']. cbn [fst newGame strategy1 strategy2] in P1, P2.
  rewrite P1, P2, N1, N2.
  apply list_elem_of_lookup_2 in Hi, Hj.
  destruct (setCell_returns n1 n2 (Some (finalScore1 r)) pm (Hdom _ Hi))
    as (pm1 & C1 & D1 & G1 & _).
  destruct (setCell_returns n2 n1 (Some (finalScore2 r)) pm1
              ltac:(rewrite D1; exact (Hdom _ Hj))) as (pm2 & C2 & D2 & G2 & _).
  exists r, pm2, w'. unfold liftO. rewrite C1, C2. split_and!.
  - reflexivity.
  - unfold pairing. now rewrite P1, P2, N1, N2.
  - intros nm Hnm. rewrite D2, D1. now apply Hdom.
  - intros nm Hnm. eapply G2; [reflexivity |]. eapply G1; [reflexivity | exact Hnm].
Qed.

Lemma playSelf_run t i pm tt w n1 :
  rrNames !! i = Some n1 ->
  (forall nm, nm ∈ rrNames -> nm ∈ dom pm) ->
  exists pm' w',
    playSelf t getAllStrategyCodes pm i (tt, w) = (Returns pm', (tt, w'))
    /\ (forall nm, nm ∈ rrNames -> nm ∈ dom pm')
    /\ (forall nm, diagonalSet pm nm -> diagonalSet pm' nm)
    /\ diagonalSet pm' n1.
Proof.
  intros Hi Hdom.
  destruct (strategyAt_name (strategyParams t) i n1 Hi) as (s1 & E1 & N1).
  unfold playSelf. rewrite E1.
  unfold mbind, TM_bind, liftO at 1 2. unfold liftM at 1.
  destruct (play_names (newGame t s1 s1) w) as [P1 _].
  destruct (play (newGame t s1 s1) w) as [r w']. cbn [fst newGame strategy1] in P1.
  rewrite P1, N1.
  apply list_elem_of_lookup_2 in Hi.
  destruct (setCell_returns n1 n1 (Some (finalScore1 r)) pm (Hdom _ Hi))
    as (pm1 & C1 & D1 & G1 & S1).
  exists pm1, w'. unfold liftO. rewrite C1. split_and!.
  - reflexivity.
  - intros nm Hnm. rewrite D1. now apply Hdom.
  - intros nm Hnm. eapply G1; [reflexivity | exact Hnm].
  - eapply S1; reflexivity.
Qed.

Ltac run_playPair Hdom :=
  match goal with
  | |- context [playPair ?t _ ?i ?j (?mr, ?pm) (?tt, ?w)] =>
      let r := fresh "r" in
      let pm' := fresh "pm" in
      let w' := fresh "w" in
      let E := fresh "E" in
      let Hp := fresh "Hp" in
      let D := fresh "D" in
      let G := fresh "G" in
      destruct (playPair_run t i j mr pm tt w _ _ eq_refl eq_refl Hdom)
        as (r & pm' & w' & E & Hp & D & G);
      rewrite E; cbv beta iota; clear E G Hdom; rename D into Hdom
  end.

(** The loop over the pairs plays the ten pairs of distinct strategies in
    order and pushes each result. *)
Lemma playPairs_run t tt w pm0 :
  (forall nm, nm ∈ rrNames -> nm ∈ dom pm0) ->
  exists mr pm w',
    forEach (seq 0 5)
      (fun st i =>
         forEach (seq (i + 1) (5 - (i + 1)))
                 (fun st j => playPair t getAllStrategyCodes i j st) st)
      ([], pm0) (tt, w)
    = (Returns (mr, pm), (tt, w'))
    /\ map pairing mr = rrPairs
    /\ (forall nm, nm ∈ rrNames -> nm ∈ dom pm).
Proof.
  intros Hdom.
  cbn [forEach seq Nat.add Nat.sub]. unfold mbind, TM_bind, mret, TM_ret.
  do 10 run_playPair Hdom.
  eexists _, _, _. split; [reflexivity |]. split; [| exact Hdom].
  rewrite !map_app. cbn [map app]. unfold rrPairs. congruence.
Qed.

(** The self-play loop plays one match for each index and sets the
    diagonal cell of its strategy; it pushes nothing on [matchResults]. *)
Lemma playSelves_run t tt (l : list nat) : forall pm w,
  (forall i, i ∈ l -> (i < 5)%nat) ->
  (forall nm, nm ∈ rrNames -> nm ∈ dom pm) ->
  exists pm' w',
    forEach l (playSelf t getAllStrategyCodes) pm (tt, w) = (Returns pm', (tt, w'))
    /\ (forall nm, nm ∈ rrNames -> nm ∈ dom pm')
    /\ (forall nm, diagonalSet pm nm -> diagonalSet pm' nm)
    /\ (forall i nm, i ∈ l -> rrNames !! i = Some nm -> diagonalSet pm' nm).
Proof.
  induction l as [|i l IH]; intros pm w Hl Hdom.
  - exists pm, w. split_and!; [reflexivity | exact Hdom | tauto |].
    intros i nm Hi. now apply elem_of_nil in Hi.
  - destruct (lookup_lt_is_Some_2 rrNames i) as [n1 Hn1];
      [apply Hl; left |].
    destruct (playSelf_run t i pm tt w n1 Hn1 Hdom) as (pm1 & w1 & E & D & G & S).
    destruct (IH pm1 w1) as (pm' & w' & E' & D' & G' & S').
    { intros k Hk. apply Hl. now right. }
    { exact D. }
    exists pm', w'. split_and!.
    + cbn [forEach]. rewrite (TM_bind_returns _ _ _ _ _ E). exact E'.
    + exact D'.
    + intros nm Hnm. apply G', G, Hnm.
    + intros k nm Hk Hnm. apply elem_of_cons in Hk as [-> | Hk].
      * rewrite Hn1 in Hnm. injection Hnm as <-. apply G', S.
      * eapply S'; eassumption.
Qed.

Lemma names_run t tt w :
  forEach getAllStrategyCodes
    (fun names code =>
       s ← liftO (createStrategy code (strategyParams t));
       mret (names ++ [name s])) [] (tt, w)
  = (Returns rrNames, (tt, w)).
Proof. reflexivity. Qed.

Lemma initStats_run t tt w :
  exists agg0 : gmap string StrategyStats,
    forEach getAllStrategyCodes (initStats t) ∅ (tt, w) = (Returns agg0, (tt, w))
    /\ (forall nm, nm ∈ rrNames ->
          agg0 !! nm = Some (mkStrategyStats 0 0 0 0 None)).
Proof.
  eexists. split; [reflexivity |].
  intros nm Hnm. unfold rrNames in Hnm.
  repeat (apply elem_of_cons in Hnm as [-> | Hnm]; [now simplify_map_eq |]).
  now apply elem_of_nil in Hnm.
Qed.

Lemma scoresIn_length nm rs :
  length (scoresIn nm rs) = appearances nm (map pairing rs).
Proof.
  induction rs as [|r rs IH]; [reflexivity |].
  unfold scoresIn in *. cbn [flat_map map appearances]. rewrite length_app, IH.
  unfold scoresOf, pairing. cbn [fst snd]. rewrite length_app.
  now destruct (decide (strategy1Name r = nm)), (decide (strategy2Name r = nm)).
Qed.

Lemma appearances_rrPairs nm : nm ∈ rrNames -> appearances nm rrPairs = 4%nat.
Proof.
  intros Hnm. unfold rrNames in Hnm.
  repeat (apply elem_of_cons in Hnm as [-> | Hnm]; [vm_compute; reflexivity |]).
  now apply elem_of_nil in Hnm.
Qed.

Lemma rrPairs_names p :
  p ∈ rrPairs -> fst p ∈ rrNames /\ snd p ∈ rrNames.
Proof.
  intros Hp. unfold rrPairs in Hp.
  repeat (apply elem_of_cons in Hp as [-> | Hp];
          [split; unfold rrNames; cbn [fst snd]; set_solver |]).
  now apply elem_of_nil in Hp.
Qed.

(** The whole run, phase by phase. *)
Lemma runRoundRobin_run (t : Tournament) (w : World) :
  exists (out : RoundRobinResult) (w' : World),
    runRoundRobin (t, w)
    = (Returns out,
       (mkTournament (tournament_payoffMatrix t) (tournament_numRounds t)
                     (strategyParams t) (tournament_continuationProb t)
                     (matchResults out), w'))
    /\ map pairing (matchResults out) = rrPairs
    /\ strategyNames out = rrNames
    /\ (forall nm, nm ∈ rrNames ->
          exists data, aggregated out !! nm = Some data
            /\ gamesPlayed data = length (scoresIn nm (matchResults out))
            /\ totalScore data = sumScores (scoresIn nm (matchResults out)))
    /\ (forall nm, nm ∈ rrNames -> diagonalSet (scoreMatrix out) nm).
Proof.
  unfold runRoundRobin.
  rewrite (TM_bind_returns this _ (t, w) t (t, w) eq_refl). cbv zeta.
  set (t0 := mkTournament (tournament_payoffMatrix t) (tournament_numRounds t)
                          (strategyParams t) (tournament_continuationProb t) []).
  rewrite (TM_bind_returns (setResults []) _ (t, w) tt (t0, w) eq_refl).
  rewrite (TM_bind_returns _ _ _ _ _ (names_run t t0 w)).
  destruct (playPairs_run t t0 w (initScoreMatrix rrNames) (dom_initScoreMatrix rrNames))
    as (mr & pm & w1 & E1 & Hp & Hdom).
  rewrite (TM_bind_returns _ _ _ _ _ E1).
  destruct (playSelves_run t t0 (seq 0 5) pm w1) as (pm' & w2 & E2 & _ & _ & Hdiag).
  { intros i Hi. apply elem_of_seq in Hi. lia. }
  { exact Hdom. }
  rewrite (TM_bind_returns _ _ _ _ _ E2).
  destruct (initStats_run t t0 w2) as (agg0 & E3 & H0).
  rewrite (TM_bind_returns _ _ _ _ _ E3).
  destruct (foldOutcome_addMatch mr agg0) as (agg' & E4 & _ & L4).
  { intros r Hr.
    assert (Hin : pairing r ∈ rrPairs).
    { rewrite <- Hp. apply list_elem_of_fmap. now exists r. }
    apply rrPairs_names in Hin as [H1 H2].
    split; apply elem_of_dom; eexists; apply H0; assumption. }
  unfold mbind at 1, TM_bind at 1. rewrite forEach_liftO, E4.
  exists (mkRoundRobinResult mr (withAverages <$> agg') pm' rrNames), w2.
  split; [reflexivity |].
  cbn [matchResults aggregated scoreMatrix strategyNames].
  split_and!; try reflexivity; try assumption.
  - intros nm Hnm.
    destruct (L4 nm _ (H0 nm Hnm)) as (st' & K & T' & G').
    exists (withAverages st'). rewrite lookup_fmap, K. split; [reflexivity |].
    cbn [withAverages gamesPlayed totalScore] in *. split; [exact G' | exact T'].
  - intros nm Hnm. apply list_elem_of_lookup_1 in Hnm as [i Hi].
    apply (Hdiag i nm); [| exact Hi].
    apply elem_of_seq. apply lookup_lt_Some in Hi. cbn in Hi. lia.
Qed.

(** C1 as claimed fails on the code.  With T=5, R=3, P=1, S=0, three
    rounds, forgiveness 1/2 and seed 42, [matchResults] has 10 matches,
    not 15; [gamesPlayed] of TFT is 4, not 5; and [totalScore] of TFT is
    29 = 9 + 2 + 9 + 9, which leaves out the 9 of its self-play match,
    stored on the diagonal of the score mapping. *)
Lemma roundRobin_fifteen_matches_fails :
  match rrOutcome (standardTournament 3 (1 # 2)) (worldWithSeed 42) with
  | Returns out =>
      length (matchResults out) = 10%nat
      /\ length (matchResults out) <> 15%nat
      /\ (gamesPlayed <$> aggregated out !! "Tit-for-Tat (TFT)") = Some 4%nat
      /\ (gamesPlayed <$> aggregated out !! "Tit-for-Tat (TFT)") <> Some 5%nat
      /\ (totalScore <$> aggregated out !! "Tit-for-Tat (TFT)") = Some (29 # 1)
      /\ (scoreMatrix out !! "Tit-for-Tat (TFT)" ≫= (fun row => row !! "Tit-for-Tat (TFT)"))
         = Some (Some (9 # 1))
      /\ (totalScore <$> aggregated out !! "Tit-for-Tat (TFT)") <> Some (29 + 9)%Q
  | Throws _ => False
  end.
Proof.
  vm_compute. split_and!; try reflexivity; intros H; discriminate H.
Qed.

(** GTFT (forgiveness 1/2) against ALL-D with continuation probability
    7/10 and seed 42: the engine draws 0.601 after round 1 and goes on,
    GTFT draws 0.448 and forgives, the engine draws 0.852 after round 2 and
    stops. *)
Example play_continuation_trace :
  trace (snd (play (mkGame (newGenerousTitForTat (1 # 2)) newAlwaysDefect
                           (mkPayoffMatrix 5 3 1 0) 0 (Some (7 # 10)) [])
                   (worldWithSeed 42)))
  = [RoundPlayed 1; Drew ByEngine (Qmake 2581720956 4294967296);
     Drew ByStrategy (Qmake 1925393290 4294967296); RoundPlayed 2;
     Drew ByEngine (Qmake 3661312704 4294967296)].
Proof. vm_compute. reflexivity. Qed.

(** With probability 1 every draw passes, and the match stops at the
    ceiling. *)
Lemma play_continuation_rounds_witness :
  (1 <= 1)%Q
  /\ Z.of_nat (length (result_roundHistory
                         (fst (play (mkGame newTitForTat newAlwaysDefect
                                            (mkPayoffMatrix 5 3 1 0) 0 (Some 1%Q) [])
                                    (worldWithSeed 42))))) = 10000.
Proof.
  assert (H1 : (1 <= 1)%Q) by (apply Qle_refl).
  split; [exact H1 |].
  destruct (play_continuation_rounds 1 newTitForTat newAlwaysDefect
              (mkPayoffMatrix 5 3 1 0) 0 [] (worldWithSeed 42))
    as (ds & _ & _ & _ & _ & _ & _ & H).
  exact (H H1).
Defined.

(** ** Invariants of a match *)

Lemma forRounds_invariant (I : Game -> Prop) :
  (forall g w, I g -> I (fst (playRound g w))) ->
  forall n g w, I g -> I (fst (forRounds n g w)).
Proof.
  intros Hstep. induction n as [|n IH]; intros g w Hg; [exact Hg |].
  cbn [forRounds]. unfold mbind, M_bind.
  specialize (Hstep g w Hg). destruct (playRound g w) as [g1 w1]. now apply IH.
Qed.

Lemma whileContinue_invariant (I : Game -> Prop) :
  (forall g w, I g -> I (fst (playRound g w))) ->
  forall m prob roundCount g w,
    (remaining roundCount < m)%nat ->
    I g -> I (snd (fst (whileContinue prob roundCount g w))).
Proof.
  intros Hstep. induction m as [|m IH]; intros prob roundCount g w Hm Hg; [lia |].
  rewrite whileContinue_cases.
  destruct (loopCond prob roundCount _) eqn:Ec; [| exact Hg].
  pose proof (loopCond_remaining _ _ _ Ec) as Hrem.
  apply IH; [lia |]. now apply Hstep.
Qed.

(** What every round preserves, from the start of the match, holds of the
    game from which [play] builds its result. *)
Lemma play_invariant (I : Game -> Prop) g w :
  (forall g w, I g -> I (fst (playRound g w))) ->
  I (started g) ->
  exists g', I g' /\ fst (play g w) = resultOf g'.
Proof.
  intros Hstep H0. destruct (continuationProb g) as [prob|] eqn:Ec.
  - rewrite (play_continuation g w prob Ec). cbv zeta. cbn [fst].
    eexists. split; [| reflexivity].
    apply (whileContinue_invariant I Hstep (S (remaining 1))); [lia |].
    now apply Hstep.
  - rewrite (play_fixed g w Ec). cbn [fst].
    eexists. split; [| reflexivity]. now apply forRounds_invariant.
Qed.

(** ** GRIM in a match *)

Lemma grimMoves_snoc mine theirs a x :
  length mine = length theirs ->
  grimMoves mine theirs ->
  (a = DEFECT <-> DEFECT ∈ theirs) ->
  grimMoves (mine ++ [a]) (theirs ++ [x]).
Proof.
  intros Hlen Hm Ha i a0 Hi.
  apply lookup_snoc_Some in Hi as [[Hlt Hi] | [-> ->]].
  - rewrite take_app_le by lia. now apply Hm.
  - rewrite Hlen, take_app_length. exact Ha.
Qed.

Lemma no_defect_before_last (theirs : list Action) :
  DEFECT ∉ take (length theirs - 1) theirs ->
  last theirs <> Some DEFECT ->
  DEFECT ∉ theirs.
Proof.
  intros Hinit Hlast Hin.
  destruct (last theirs) as [x|] eqn:El.
  - apply last_Some in El as [pre ->].
    rewrite length_app in Hinit. cbn [length] in Hinit.
    replace (length pre + 1 - 1)%nat with (length pre) in Hinit by lia.
    rewrite take_app_length in Hinit.
    apply elem_of_app in Hin as [Hin | Hin]; [now apply Hinit |].
    apply list_elem_of_singleton in Hin. subst x. now apply Hlast.
  - apply last_None in El. subst theirs. now apply elem_of_nil in Hin.
Qed.

(** One round, seen from a GRIM object: its move reads no draw, and the
    state it is left in after recording the round fits the longer match. *)
Lemma grim_round s mine theirs :
  grimInMatch s mine theirs ->
  exists a s',
    (forall w, makeMove s w = ((a, s'), w))
    /\ forall x p,
         grimInMatch (updateScore (recordMove s' a x) p) (mine ++ [a]) (theirs ++ [x]).
Proof.
  intros (b & Hv & Hoh & Hlen & Hm & Ht & Hf).
  destruct s as [v nm h oh sc]. cbn [variant opponentHistory] in Hv, Hoh. subst v oh.
  assert (Hlen' : forall a x, length (mine ++ [a]) = length (theirs ++ [x])).
  { intros a x. rewrite !length_app. cbn [length]. lia. }
  assert (Htake : forall x, take (length (theirs ++ [x]) - 1) (theirs ++ [x]) = theirs).
  { intros x. rewrite length_app. cbn [length].
    replace (length theirs + 1 - 1)%nat with (length theirs) by lia.
    apply take_app_length. }
  destruct b.
  - exists DEFECT, (mkStrategy (GrimTrigger true) nm h theirs sc).
    split; [reflexivity |]. intros x p. exists true.
    cbn [updateScore recordMove variant opponentHistory].
    split_and!; try reflexivity; try apply Hlen'.
    + apply grimMoves_snoc; [exact Hlen | exact Hm |].
      split; [intros _; now apply Ht | reflexivity].
    + intros _. apply elem_of_app. left. now apply Ht.
    + discriminate.
  - destruct (decide (last theirs = Some DEFECT)) as [Hl | Hl].
    + exists DEFECT, (mkStrategy (GrimTrigger true) nm h theirs sc).
      split.
      { intros w. unfold makeMove. cbn [variant opponentHistory]. now rewrite Hl. }
      intros x p. exists true.
      cbn [updateScore recordMove variant opponentHistory].
      apply last_Some_elem_of in Hl.
      split_and!; try reflexivity; try apply Hlen'.
      * apply grimMoves_snoc; [exact Hlen | exact Hm |]. now split.
      * intros _. apply elem_of_app. now left.
      * discriminate.
    + exists COOPERATE, (mkStrategy (GrimTrigger false) nm h theirs sc).
      split.
      { intros w. unfold makeMove. cbn [variant opponentHistory].
        destruct (last theirs) as [[|]|]; try reflexivity. now contradiction Hl. }
      intros x p. exists false.
      cbn [updateScore recordMove variant opponentHistory].
      pose proof (no_defect_before_last theirs (Hf eq_refl) Hl) as Hno.
      split_and!; try reflexivity; try apply Hlen'.
      * apply grimMoves_snoc; [exact Hlen | exact Hm |].
        split; [discriminate | intros Hin; now contradiction Hno].
      * discriminate.
      * intros _. now rewrite Htake.
Qed.

(** GRIM as the first strategy of a game, and as the second. *)
Lemma playRound_grim1 g w :
  grimInMatch (strategy1 g) (map move1 (roundHistory g)) (map move2 (roundHistory g)) ->
  let g' := fst (playRound g w) in
  grimInMatch (strategy1 g') (map move1 (roundHistory g')) (map move2 (roundHistory g')).
Proof.
  intros Hg. cbv zeta. destruct (grim_round _ _ _ Hg) as (a & s' & Hmv & Hnext).
  unfold playRound, mbind, M_bind. rewrite Hmv.
  destruct (makeMove (strategy2 g) w) as [[m2 s2] w2].
  destruct (getPayoff (payoffMatrix g) a m2) as [p1 p2].
  cbn [fst logRound mret M_ret strategy1 roundHistory].
  rewrite !map_app. cbn [map move1 move2]. apply Hnext.
Qed.

Lemma playRound_grim2 g w :
  grimInMatch (strategy2 g) (map move2 (roundHistory g)) (map move1 (roundHistory g)) ->
  let g' := fst (playRound g w) in
  grimInMatch (strategy2 g') (map move2 (roundHistory g')) (map move1 (roundHistory g')).
Proof.
  intros Hg. cbv zeta. destruct (grim_round _ _ _ Hg) as (a & s' & Hmv & Hnext).
  unfold playRound, mbind, M_bind.
  destruct (makeMove (strategy1 g) w) as [[m1 s1] w1]. rewrite Hmv.
  destruct (getPayoff (payoffMatrix g) m1 a) as [p1 p2].
  cbn [fst logRound mret M_ret strategy2 roundHistory].
  rewrite !map_app. cbn [map move1 move2]. apply Hnext.
Qed.

Lemma grimInMatch_started b nm h oh sc :
  grimInMatch (reset (mkStrategy (GrimTrigger b) nm h oh sc)) [] [].
Proof.
  exists false. cbn. split_and!; try reflexivity.
  - intros i a Hi. discriminate Hi.
  - discriminate.
  - intros _. apply not_elem_of_nil.
Qed.

(** In every match, fixed-length or not, against any opponent, GRIM
    defects in a round exactly when the opponent defected in an earlier
    round of that match. *)
Lemma play_grim b nm h oh sc (opp : Strategy) pm nr cp rh w :
  (let res := fst (play (mkGame (mkStrategy (GrimTrigger b) nm h oh sc) opp pm nr cp rh) w) in
   grimMoves (map move1 (result_roundHistory res)) (map move2 (result_roundHistory res)))
  /\ (let res := fst (play (mkGame opp (mkStrategy (GrimTrigger b) nm h oh sc) pm nr cp rh) w) in
      grimMoves (map move2 (result_roundHistory res)) (map move1 (result_roundHistory res))).
Proof.
  split; cbv zeta.
  - destruct (play_invariant
                (fun g => grimInMatch (strategy1 g) (map move1 (roundHistory g))
                                      (map move2 (roundHistory g)))
                (mkGame (mkStrategy (GrimTrigger b) nm h oh sc) opp pm nr cp rh) w)
      as (g' & (b' & _ & _ & _ & Hm & _) & ->).
    + intros g w0. apply playRound_grim1.
    + apply grimInMatch_started.
    + exact Hm.
  - destruct (play_invariant
                (fun g => grimInMatch (strategy2 g) (map move2 (roundHistory g))
                                      (map move1 (roundHistory g)))
                (mkGame opp (mkStrategy (GrimTrigger b) nm h oh sc) pm nr cp rh) w)
      as (g' & (b' & _ & _ & _ & Hm & _) & ->).
    + intros g w0. apply playRound_grim2.
    + apply grimInMatch_started.
    + exact Hm.
Qed.

(** C6.  Within a match (no [reset] among the calls): a [makeMove] call
    of GRIM made when the opponent's most recent move is DEFECT returns
    DEFECT, and so does every [makeMove] among any calls that follow,
    whatever opponent moves are recorded in between; once [triggered] is
    set it stays set through every call but [reset], which clears it.
    Before any opponent DEFECT is recorded, every [makeMove] returns
    COOPERATE.  In a match played by the engine, in either mode and on
    either side, GRIM defects in a round exactly when the opponent
    defected in an earlier round of that match. *)
Theorem grim_latch :
  forall (b : bool) (nm : string) (h oh oh' : list Action) (sc : Q) (w : World)
         (ops ops' : list StrategyOp)
         (opp : Strategy) (pm : PayoffMatrix) (nr : Z) (cp : option Q)
         (rh : list RoundRecord),
    forallb (fun op => negb (isReset op)) ops = true ->
    DEFECT ∉ oh' ->
    DEFECT ∉ recordedOpponentMoves ops' ->
    (let s := mkStrategy (GrimTrigger b) nm h (oh ++ [DEFECT]) sc in
     Forall (fun a => a = DEFECT) (fst (fst (runOps (OpMakeMove :: ops) s w))))
    /\ (let s := mkStrategy (GrimTrigger true) nm h oh sc in
        Forall (fun a => a = DEFECT) (fst (fst (runOps ops s w)))
        /\ isTriggered (snd (fst (runOps ops s w))) = true
        /\ isTriggered (reset s) = false)
    /\ (let s := mkStrategy (GrimTrigger false) nm h oh' sc in
        Forall (fun a => a = COOPERATE) (fst (fst (runOps ops' s w))))
    /\ (let s := mkStrategy (GrimTrigger b) nm h oh sc in
        let res1 := fst (play (mkGame s opp pm nr cp rh) w) in
        let res2 := fst (play (mkGame opp s pm nr cp rh) w) in
        grimMoves (map move1 (result_roundHistory res1))
                  (map move2 (result_roundHistory res1))
        /\ grimMoves (map move2 (result_roundHistory res2))
                     (map move1 (result_roundHistory res2))).
Proof.
  intros b nm h oh oh' sc w ops ops' opp pm nr cp rh Hnr Hoh Hops. cbv zeta.
  split_and!.
  - cbn [runOps]. unfold mbind, M_bind.
    assert (Hm : exists s',
               makeMove (mkStrategy (GrimTrigger b) nm h (oh ++ [DEFECT]) sc) w
               = ((DEFECT, s'), w)
               /\ s' = mkStrategy (GrimTrigger true) nm h (oh ++ [DEFECT]) sc).
    { unfold makeMove. cbn [variant opponentHistory]. rewrite last_snoc.
      destruct b; eexists; split; reflexivity. }
    destruct Hm as (s' & -> & ->).
    destruct (runOps_triggered ops nm h (oh ++ [DEFECT]) sc w Hnr) as [HF _].
    destruct (runOps ops _ w) as [[moves s''] w']. cbn [fst] in *.
    now constructor.
  - apply (runOps_triggered ops nm h oh sc w Hnr).
  - apply (runOps_triggered ops nm h oh sc w Hnr).
  - reflexivity.
  - now apply runOps_untriggered.
  - apply (play_grim b nm h oh sc opp pm nr cp rh w).
  - apply (play_grim b nm h oh sc opp pm nr cp rh w).
Qed.

Lemma grim_latch_witness :
  Forall (fun a => a = DEFECT)
    (fst (fst (runOps [OpMakeMove; OpRecordMove DEFECT COOPERATE; OpUpdateScore 5;
                       OpMakeMove; OpRecordMove DEFECT COOPERATE; OpMakeMove]
                 (mkStrategy (GrimTrigger false) "Grim Trigger"
                             [COOPERATE] ([] ++ [DEFECT]) 0)
                 (worldWithSeed 42)))).
Proof.
  apply (grim_latch false "Grim Trigger" [COOPERATE] [] [COOPERATE] 0 (worldWithSeed 42)
           [OpRecordMove DEFECT COOPERATE; OpUpdateScore 5;
            OpMakeMove; OpRecordMove DEFECT COOPERATE; OpMakeMove]
           [OpMakeMove; OpRecordMove COOPERATE COOPERATE; OpReset; OpMakeMove]
           newAlwaysDefect (mkPayoffMatrix 5 3 1 0) 3 None []).
  - reflexivity.
  - intros H. apply list_elem_of_singleton in H. discriminate H.
  - cbn. intros H. apply list_elem_of_singleton in H. discriminate H.
Defined.

(** * Further properties of the engine *)

(** ** The books of a match *)

(** [makeMove] changes nothing of a strategy but the flag of GRIM. *)
Lemma makeMove_fields s w :
  let s' := snd (fst (makeMove s w)) in
  history s' = history s /\ opponentHistory s' = opponentHistory s
  /\ score s' = score s.
Proof.
  cbv zeta. destruct s as [v nm h oh sc]. destruct v as [| | | b | f].
  - now split_and!.
  - now split_and!.
  - unfold makeMove. cbn [variant opponentHistory]. now destruct (last oh).
  - unfold makeMove. cbn [variant opponentHistory].
    destruct b; [now split_and! |]. now destruct (last oh) as [[|]|].
  - rewrite makeMove_gtft. now destruct (last oh) as [[|]|].
Qed.

Lemma runningSums_snoc ps : forall acc p,
  runningSums acc (ps ++ [p]) = runningSums acc ps ++ [(foldl Qplus acc ps + p)%Q].
Proof.
  induction ps as [|q ps IH]; intros acc p; cbn [app runningSums foldl]; [reflexivity |].
  now rewrite IH.
Qed.

Lemma playRound_bookkept pm g w :
  bookkept pm g -> bookkept pm (fst (playRound g w)).
Proof.
  intros (Hpm & H1 & O1 & H2 & O2 & Hr & Hp & C1 & C2 & S1 & S2).
  unfold playRound, mbind, M_bind.
  destruct (makeMove_fields (strategy1 g) w) as (F1 & F2 & F3).
  destruct (makeMove (strategy1 g) w) as [[m1 s1] w1]. cbn [fst snd] in F1, F2, F3.
  destruct (makeMove_fields (strategy2 g) w1) as (G1 & G2 & G3).
  destruct (makeMove (strategy2 g) w1) as [[m2 s2] w2]. cbn [fst snd] in G1, G2, G3.
  rewrite Hpm.
  destruct (getPayoff pm m1 m2) as [p1 p2] eqn:Ep.
  cbn [fst logRound mret M_ret]. unfold bookkept.
  cbn [payoffMatrix strategy1 strategy2 roundHistory updateScore recordMove
       history opponentHistory score].
  rewrite !map_app, length_app. cbn [map length round move1 move2 payoff1 payoff2
                                     cumScore1 cumScore2].
  rewrite F1, F2, F3, G1, G2, G3, H1, O1, H2, O2, S1, S2.
  split_and!; try reflexivity.
  - rewrite Hr, seq_app. cbn [seq]. do 2 f_equal. lia.
  - apply Forall_app. split; [exact Hp |]. constructor; [exact Ep | constructor].
  - now rewrite runningSums_snoc, C1.
  - now rewrite runningSums_snoc, C2.
  - now rewrite foldl_app.
  - now rewrite foldl_app.
Qed.

Lemma bookkept_started g : bookkept (payoffMatrix g) (started g).
Proof. unfold bookkept, started, reset. cbn. split_and!; try reflexivity. constructor. Qed.

(** [play] returns the result of a game whose books agree. *)
Lemma play_bookkept g w :
  exists g', bookkept (payoffMatrix g) g' /\ fst (play g w) = resultOf g'.
Proof.
  apply play_invariant; [| apply bookkept_started].
  intros g0 w0. apply playRound_bookkept.
Qed.

Lemma last_runningSums ps : forall acc,
  ps <> [] -> last (runningSums acc ps) = Some (foldl Qplus acc ps).
Proof.
  induction ps as [|p ps IH]; intros acc Hne; [congruence |].
  cbn [runningSums foldl]. destruct ps as [|q ps]; [reflexivity |].
  rewrite <- (IH (acc + p)%Q) by discriminate. reflexivity.
Qed.

(** The books of a result, read on the result. *)
Lemma play_result_books g w :
  let res := fst (play g w) in
  let rh := result_roundHistory res in
  Forall (fun r => getPayoff (payoffMatrix g) (move1 r) (move2 r)
                   = (payoff1 r, payoff2 r)) rh
  /\ finalScore1 res = foldl Qplus 0%Q (map payoff1 rh)
  /\ finalScore2 res = foldl Qplus 0%Q (map payoff2 rh).
Proof.
  cbv zeta.
  destruct (play_bookkept g w) as (g' & (_ & _ & _ & _ & _ & _ & Hp & _ & _ & S1 & S2) & ->).
  unfold resultOf. cbn [result_roundHistory finalScore1 finalScore2]. now split_and!.
Qed.

(** X1.  In the result of every match, in either mode and for any two
    strategies: the rounds are numbered 1, 2, ..., n; each record holds
    the payoffs that the payoff matrix gives for its two moves; the
    cumulative scores of the records are the running sums of the payoffs
    from 0; and each final score is the sum of that side's payoffs, which
    is the cumulative score of the last record. *)
Theorem match_result_books :
  forall (g : Game) (w : World),
    let res := fst (play g w) in
    let rh := result_roundHistory res in
    map round rh = seq 1 (length rh)
    /\ Forall (fun r => getPayoff (payoffMatrix g) (move1 r) (move2 r)
                        = (payoff1 r, payoff2 r)) rh
    /\ map cumScore1 rh = runningSums 0 (map payoff1 rh)
    /\ map cumScore2 rh = runningSums 0 (map payoff2 rh)
    /\ finalScore1 res = foldl Qplus 0%Q (map payoff1 rh)
    /\ finalScore2 res = foldl Qplus 0%Q (map payoff2 rh)
    /\ (forall r, last rh = Some r ->
          finalScore1 res = cumScore1 r /\ finalScore2 res = cumScore2 r).
Proof.
  intros g w. cbv zeta.
  destruct (play_bookkept g w) as (g' & (_ & _ & _ & _ & _ & Hr & Hp & C1 & C2 & S1 & S2) & ->).
  unfold resultOf. cbn [result_roundHistory finalScore1 finalScore2].
  split_and!; try assumption.
  intros r Hl.
  assert (Hne : roundHistory g' <> []) by (intros E; rewrite E in Hl; discriminate).
  assert (L1 : last (map cumScore1 (roundHistory g')) = Some (cumScore1 r))
    by (now rewrite fmap_last, Hl).
  assert (L2 : last (map cumScore2 (roundHistory g')) = Some (cumScore2 r))
    by (now rewrite fmap_last, Hl).
  rewrite C1, last_runningSums in L1 by (intros E; apply fmap_nil_inv in E; contradiction).
  rewrite C2, last_runningSums in L2 by (intros E; apply fmap_nil_inv in E; contradiction).
  rewrite S1, S2. split; congruence.
Qed.

(** ** Tit-for-tat against itself: the scores *)

Lemma map_constant {A B} (f : A -> B) (c : B) (l : list A) :
  Forall (fun x => f x = c) l -> map f l = replicate (length l) c.
Proof.
  induction 1 as [|x l Hx _ IH]; [reflexivity |].
  cbn [map length replicate]. now rewrite Hx, IH.
Qed.




Lemma rateOf_range moves : (0 <= rateOf moves)%Q /\ (rateOf moves <= 1)%Q.
Proof.
  unfold rateOf. destruct (length moves) as [|k] eqn:El; cbn [Nat.eqb].
  - split; discriminate.
  - assert (Hc : (cooperations moves <= S k)%nat).
    { unfold cooperations. rewrite <- El. apply length_filter. }
    unfold Qle. cbn [Qnum Qden]. rewrite <- Pos.of_nat_succ, Zpos_P_of_succ_nat. lia.
Qed.

(** X2.  The cooperation rates of a match result are those of its round
    history: the number of rounds in which that side played COOPERATE
    over the number of rounds (0 for no round); they lie between 0 and
    1. *)
Theorem match_result_cooperation_rates :
  forall (g : Game) (w : World),
    let res := fst (play g w) in
    cooperationRate1 res = rateOf (map move1 (result_roundHistory res))
    /\ cooperationRate2 res = rateOf (map move2 (result_roundHistory res))
    /\ (0 <= cooperationRate1 res)%Q /\ (cooperationRate1 res <= 1)%Q
    /\ (0 <= cooperationRate2 res)%Q /\ (cooperationRate2 res <= 1)%Q.
Proof.
  intros g w. cbv zeta.
  destruct (play_bookkept g w) as (g' & (_ & H1 & _ & H2 & _) & ->).
  unfold resultOf. cbn [result_roundHistory cooperationRate1 cooperationRate2].
  assert (E1 : getCooperationRate (strategy1 g') = rateOf (map move1 (roundHistory g')))
    by (rewrite <- H1; reflexivity).
  assert (E2 : getCooperationRate (strategy2 g') = rateOf (map move2 (roundHistory g')))
    by (rewrite <- H2; reflexivity).
  rewrite E1, E2.
  destruct (rateOf_range (map move1 (roundHistory g'))).
  destruct (rateOf_range (map move2 (roundHistory g'))).
  now split_and!.
Qed.

(** ** Strategies that answer the last move *)

Lemma previous_snoc (theirs : list Action) x :
  previous (theirs ++ [x]) (length theirs) = last theirs.
Proof.
  rewrite last_lookup. destruct theirs as [|y theirs]; [reflexivity |].
  cbn [length previous Nat.pred]. apply lookup_app_l. cbn [length]. lia.
Qed.

Lemma responds_snoc rule mine theirs a x :
  length mine = length theirs ->
  responds rule mine theirs ->
  rule (last theirs) a ->
  responds rule (mine ++ [a]) (theirs ++ [x]).
Proof.
  intros Hlen Hm Ha i a0 Hi.
  apply lookup_snoc_Some in Hi as [[Hlt Hi] | [-> ->]].
  - specialize (Hm i a0 Hi). destruct i as [|j]; [exact Hm |].
    cbn [previous] in *. rewrite lookup_app_l by lia. exact Hm.
  - rewrite Hlen, previous_snoc. exact Ha.
Qed.

(** If every [makeMove] of a kind of strategy obeys [rule] with respect
    to the last recorded opponent move, then in the result of every match
    the moves of such a strategy obey it with respect to the opponent's
    move of the round before: as first strategy, and as second. *)
Lemma play_responds (P : Strategy -> Prop) (rule : option Action -> Action -> Prop) :
  (forall s w, P s ->
     P (snd (fst (makeMove s w)))
     /\ rule (last (opponentHistory s)) (fst (fst (makeMove s w)))) ->
  (forall s a b p, P s -> P (updateScore (recordMove s a b) p)) ->
  forall g w,
    let rh := result_roundHistory (fst (play g w)) in
    (P (reset (strategy1 g)) -> responds rule (map move1 rh) (map move2 rh))
    /\ (P (reset (strategy2 g)) -> responds rule (map move2 rh) (map move1 rh)).
Proof.
  intros Hmove Hrec g w. cbv zeta. split; intros H0.
  - destruct (play_invariant
                (fun g0 => bookkept (payoffMatrix g) g0 /\ P (strategy1 g0)
                           /\ responds rule (map move1 (roundHistory g0))
                                        (map move2 (roundHistory g0))) g w)
      as (g' & (_ & _ & Hr) & ->).
    + intros g0 w0 (Hb & HP & Hr).
      split; [now apply playRound_bookkept |].
      destruct Hb as (_ & _ & O1 & _).
      unfold playRound, mbind, M_bind.
      destruct (Hmove (strategy1 g0) w0 HP) as [HP' Hrule].
      destruct (makeMove (strategy1 g0) w0) as [[m1 s1] w1]. cbn [fst snd] in HP', Hrule.
      destruct (makeMove (strategy2 g0) w1) as [[m2 s2] w2].
      destruct (getPayoff (payoffMatrix g0) m1 m2) as [p1 p2].
      cbn [fst logRound mret M_ret strategy1 roundHistory].
      split; [now apply Hrec |].
      rewrite !map_app. cbn [map move1 move2].
      apply responds_snoc; [now rewrite !length_map | exact Hr |].
      now rewrite <- O1.
    + split; [apply bookkept_started |]. split; [exact H0 |].
      intros i a Hi. discriminate Hi.
    + exact Hr.
  - destruct (play_invariant
                (fun g0 => bookkept (payoffMatrix g) g0 /\ P (strategy2 g0)
                           /\ responds rule (map move2 (roundHistory g0))
                                        (map move1 (roundHistory g0))) g w)
      as (g' & (_ & _ & Hr) & ->).
    + intros g0 w0 (Hb & HP & Hr).
      split; [now apply playRound_bookkept |].
      destruct Hb as (_ & _ & _ & _ & O2 & _).
      unfold playRound, mbind, M_bind.
      destruct (makeMove (strategy1 g0) w0) as [[m1 s1] w1].
      destruct (Hmove (strategy2 g0) w1 HP) as [HP' Hrule].
      destruct (makeMove (strategy2 g0) w1) as [[m2 s2] w2]. cbn [fst snd] in HP', Hrule.
      destruct (getPayoff (payoffMatrix g0) m1 m2) as [p1 p2].
      cbn [fst logRound mret M_ret strategy2 roundHistory].
      split; [now apply Hrec |].
      rewrite !map_app. cbn [map move1 move2].
      apply responds_snoc; [now rewrite !length_map | exact Hr |].
      now rewrite <- O2.
    + split; [apply bookkept_started |]. split; [exact H0 |].
      intros i a Hi. discriminate Hi.
    + exact Hr.
Qed.

Lemma recordMove_variant (v : Variant) s a b p :
  variant s = v -> variant (updateScore (recordMove s a b) p) = v.
Proof. intros H. exact H. Qed.

Lemma makeMove_tft s w :
  variant s = TitForTat ->
  variant (snd (fst (makeMove s w))) = TitForTat
  /\ tftRule (last (opponentHistory s)) (fst (fst (makeMove s w))).
Proof.
  destruct s as [v nm h oh sc]. cbn [variant]. intros ->.
  unfold makeMove, tftRule. cbn [variant opponentHistory].
  now destruct (last oh).
Qed.

(** X3.  In every match, in either mode and against any opponent, TFT
    opens with COOPERATE and then plays in each round the move that the
    opponent made in the round before: as first strategy and as second. *)
Theorem tft_mirrors_previous_move :
  forall (nm : string) (h oh : list Action) (sc : Q) (opp : Strategy)
         (pm : PayoffMatrix) (nr : Z) (cp : option Q) (rh : list RoundRecord)
         (w : World),
    let s := mkStrategy TitForTat nm h oh sc in
    let r1 := result_roundHistory (fst (play (mkGame s opp pm nr cp rh) w)) in
    let r2 := result_roundHistory (fst (play (mkGame opp s pm nr cp rh) w)) in
    responds tftRule (map move1 r1) (map move2 r1)
    /\ responds tftRule (map move2 r2) (map move1 r2).
Proof.
  intros nm h oh sc opp pm nr cp rh w. cbv zeta.
  pose proof (play_responds (fun s => variant s = TitForTat) tftRule
                makeMove_tft (recordMove_variant TitForTat)) as H.
  split.
  - apply (H (mkGame (mkStrategy TitForTat nm h oh sc) opp pm nr cp rh) w). reflexivity.
  - apply (H (mkGame opp (mkStrategy TitForTat nm h oh sc) pm nr cp rh) w). reflexivity.
Qed.

Lemma makeMove_gtft_variant f s w :
  variant s = GenerousTitForTat f ->
  variant (snd (fst (makeMove s w))) = GenerousTitForTat f
  /\ provokedRule (last (opponentHistory s)) (fst (fst (makeMove s w)))
  /\ ((1 <= f)%Q -> fst (fst (makeMove s w)) = COOPERATE).
Proof.
  destruct s as [v nm h oh sc]. cbn [variant]. intros ->.
  rewrite makeMove_gtft. unfold provokedRule. cbn [opponentHistory].
  destruct (last oh) as [[|]|]; cbn [fst snd variant]; split_and!;
    try reflexivity; try discriminate.
  intros Hf. destruct (Qltb _ f) eqn:E; [reflexivity |].
  exfalso. assert (Hlt : Qltb (fst (random (globalRandom w))) f = true); [| congruence].
  apply Qltb_lt. eapply Qlt_le_trans; [apply random_range | exact Hf].
Qed.

(** X4.  In every match, in either mode, against any opponent and for
    every forgiveness probability, GTFT never defects unprovoked: when it
    plays DEFECT in a round, the opponent played DEFECT in the round
    before; in particular it never defects in the first round. *)
Theorem gtft_defects_only_when_provoked :
  forall (f : Q) (nm : string) (h oh : list Action) (sc : Q) (opp : Strategy)
         (pm : PayoffMatrix) (nr : Z) (cp : option Q) (rh : list RoundRecord)
         (w : World),
    let s := mkStrategy (GenerousTitForTat f) nm h oh sc in
    let r1 := result_roundHistory (fst (play (mkGame s opp pm nr cp rh) w)) in
    let r2 := result_roundHistory (fst (play (mkGame opp s pm nr cp rh) w)) in
    responds provokedRule (map move1 r1) (map move2 r1)
    /\ responds provokedRule (map move2 r2) (map move1 r2).
Proof.
  intros f nm h oh sc opp pm nr cp rh w. cbv zeta.
  assert (H := play_responds (fun s => variant s = GenerousTitForTat f) provokedRule).
  assert (Hm : forall s w0, variant s = GenerousTitForTat f ->
                 variant (snd (fst (makeMove s w0))) = GenerousTitForTat f
                 /\ provokedRule (last (opponentHistory s)) (fst (fst (makeMove s w0)))).
  { intros s w0 Hs. destruct (makeMove_gtft_variant f s w0 Hs) as (A & B & _). now split. }
  specialize (H Hm (recordMove_variant _)).
  split.
  - apply (H (mkGame (mkStrategy (GenerousTitForTat f) nm h oh sc) opp pm nr cp rh) w).
    reflexivity.
  - apply (H (mkGame opp (mkStrategy (GenerousTitForTat f) nm h oh sc) pm nr cp rh) w).
    reflexivity.
Qed.

Lemma responds_constant (c : Action) (proj1 proj2 : RoundRecord -> Action)
  (rh : list RoundRecord) :
  responds (fun _ a => a = c) (map proj1 rh) (map proj2 rh) ->
  Forall (fun r => proj1 r = c) rh.
Proof.
  intros H. apply Forall_lookup. intros i r Hi.
  apply (H i (proj1 r)). now rewrite list_lookup_fmap, Hi.
Qed.

(** X5.  With a forgiveness probability of 1 or more, GTFT plays COOPERATE
    in every round of every match, in either mode and against any
    opponent, whatever the opponent does. *)
Theorem gtft_full_forgiveness_cooperates :
  forall (f : Q) (nm : string) (h oh : list Action) (sc : Q) (opp : Strategy)
         (pm : PayoffMatrix) (nr : Z) (cp : option Q) (rh : list RoundRecord)
         (w : World),
    (1 <= f)%Q ->
    let s := mkStrategy (GenerousTitForTat f) nm h oh sc in
    let r1 := result_roundHistory (fst (play (mkGame s opp pm nr cp rh) w)) in
    let r2 := result_roundHistory (fst (play (mkGame opp s pm nr cp rh) w)) in
    Forall (fun r => move1 r = COOPERATE) r1
    /\ Forall (fun r => move2 r = COOPERATE) r2.
Proof.
  intros f nm h oh sc opp pm nr cp rh w Hf. cbv zeta.
  assert (H := play_responds (fun s => variant s = GenerousTitForTat f)
                             (fun _ a => a = COOPERATE)).
  assert (Hm : forall s w0, variant s = GenerousTitForTat f ->
                 variant (snd (fst (makeMove s w0))) = GenerousTitForTat f
                 /\ fst (fst (makeMove s w0)) = COOPERATE).
  { intros s w0 Hs. destruct (makeMove_gtft_variant f s w0 Hs) as (A & _ & C).
    split; [exact A | now apply C]. }
  specialize (H Hm (recordMove_variant _)).
  split; eapply responds_constant.
  - apply (H (mkGame (mkStrategy (GenerousTitForTat f) nm h oh sc) opp pm nr cp rh) w).
    reflexivity.
  - apply (H (mkGame opp (mkStrategy (GenerousTitForTat f) nm h oh sc) pm nr cp rh) w).
    reflexivity.
Qed.

Lemma gtft_full_forgiveness_cooperates_witness :
  (1 <= 1)%Q
  /\ Forall (fun r => move1 r = COOPERATE)
       (result_roundHistory
          (fst (play (mkGame (newGenerousTitForTat 1) newAlwaysDefect
                             (mkPayoffMatrix 5 3 1 0) 5 None [])
                     (worldWithSeed 42)))).
Proof.
  assert (H1 : (1 <= 1)%Q) by apply Qle_refl.
  split; [exact H1 |].
  apply (gtft_full_forgiveness_cooperates 1 "Generous TFT" [] [] 0 newAlwaysDefect
           (mkPayoffMatrix 5 3 1 0) 5 None [] (worldWithSeed 42) H1).
Defined.

(** ** The unconditional strategies *)

Lemma makeMove_always (v : Variant) (c : Action) s w :
  (v = AlwaysCooperate /\ c = COOPERATE) \/ (v = AlwaysDefect /\ c = DEFECT) ->
  variant s = v ->
  variant (snd (fst (makeMove s w))) = v /\ fst (fst (makeMove s w)) = c.
Proof.
  destruct s as [v0 nm h oh sc]. cbn [variant].
  intros [[-> ->] | [-> ->]] ->; now split.
Qed.

(** ALL-C plays COOPERATE and ALL-D plays DEFECT in every round of every
    match, on either side. *)
Lemma play_always (v : Variant) (c : Action) nm h oh sc opp pm nr cp rh w :
  (v = AlwaysCooperate /\ c = COOPERATE) \/ (v = AlwaysDefect /\ c = DEFECT) ->
  let s := mkStrategy v nm h oh sc in
  Forall (fun r => move1 r = c)
         (result_roundHistory (fst (play (mkGame s opp pm nr cp rh) w)))
  /\ Forall (fun r => move2 r = c)
            (result_roundHistory (fst (play (mkGame opp s pm nr cp rh) w))).
Proof.
  intros Hv. cbv zeta.
  assert (H := play_responds (fun s => variant s = v) (fun _ a => a = c)
                 (fun s w0 => makeMove_always v c s w0 Hv) (recordMove_variant v)).
  assert (Hr : variant (reset (mkStrategy v nm h oh sc)) = v).
  { destruct Hv as [[-> _] | [-> _]]; reflexivity. }
  split; eapply responds_constant.
  - apply (H (mkGame (mkStrategy v nm h oh sc) opp pm nr cp rh) w). exact Hr.
  - apply (H (mkGame opp (mkStrategy v nm h oh sc) pm nr cp rh) w). exact Hr.
Qed.

Lemma cooperations_all (c : Action) (moves : list Action) :
  Forall (fun a => a = c) moves ->
  cooperations moves = if decide (c = COOPERATE) then length moves else 0%nat.
Proof.
  unfold cooperations. induction moves as [|a moves IH]; intros Hall.
  - now destruct (decide (c = COOPERATE)).
  - apply Forall_cons in Hall as [-> Hall]. specialize (IH Hall).
    destruct (decide (c = COOPERATE)) as [Hc | Hc].
    + rewrite filter_cons_True by exact Hc. cbn [length]. now rewrite IH.
    + rewrite filter_cons_False by exact Hc. exact IH.
Qed.

Lemma rateOf_all (c : Action) (moves : list Action) :
  moves <> [] -> Forall (fun a => a = c) moves ->
  (rateOf moves == if decide (c = COOPERATE) then 1 else 0)%Q.
Proof.
  intros Hne Hall. unfold rateOf. rewrite (cooperations_all c moves Hall).
  destruct moves as [|a moves]; [congruence |]. cbn [length Nat.eqb].
  destruct (decide (c = COOPERATE)) as [Hc | Hc].
  - unfold Qeq. cbn [Qnum Qden]. rewrite <- Pos.of_nat_succ, Zpos_P_of_succ_nat. lia.
  - reflexivity.
Qed.

(** The number of rounds of a fixed-length match. *)
Lemma play_fixed_rounds g w :
  continuationProb g = None ->
  length (result_roundHistory (fst (play g w))) = Z.to_nat (numRounds g).
Proof.
  intros Hc. rewrite (play_fixed g w Hc). cbn [fst resultOf result_roundHistory].
  destruct (forRounds_effect (Z.to_nat (numRounds g)) (started g) w) as (Hl & _).
  exact Hl.
Qed.

(** X6.  A fixed-length match of ALL-D against ALL-C, for every positive
    round count, has that many rounds; in each of them ALL-D plays DEFECT
    and receives T, ALL-C plays COOPERATE and receives S; the final score
    of ALL-D is T added [rounds] times and that of ALL-C is S added
    [rounds] times, from 0 and from the left as [updateScore] adds them;
    the cooperation rate of ALL-D is 0 and that of ALL-C is 1. *)
Theorem alld_vs_allc_scores :
  forall (rounds : Z) (nm1 nm2 : string) (h1 oh1 h2 oh2 : list Action)
         (sc1 sc2 : Q) (pm : PayoffMatrix) (rh : list RoundRecord) (w : World),
    0 < rounds ->
    let res := fst (play (mkGame (mkStrategy AlwaysDefect nm1 h1 oh1 sc1)
                                 (mkStrategy AlwaysCooperate nm2 h2 oh2 sc2)
                                 pm rounds None rh) w) in
    Z.of_nat (length (result_roundHistory res)) = rounds
    /\ Forall (fun r => move1 r = DEFECT /\ move2 r = COOPERATE
                        /\ payoff1 r = T pm /\ payoff2 r = S_ pm)
              (result_roundHistory res)
    /\ finalScore1 res = foldl Qplus 0%Q (replicate (Z.to_nat rounds) (T pm))
    /\ finalScore2 res = foldl Qplus 0%Q (replicate (Z.to_nat rounds) (S_ pm))
    /\ (cooperationRate1 res == 0)%Q
    /\ (cooperationRate2 res == 1)%Q.
Proof.
  intros rounds nm1 nm2 h1 oh1 h2 oh2 sc1 sc2 pm rh w Hpos. cbv zeta.
  set (alld := mkStrategy AlwaysDefect nm1 h1 oh1 sc1).
  set (allc := mkStrategy AlwaysCooperate nm2 h2 oh2 sc2).
  set (g := mkGame alld allc pm rounds None rh).
  destruct (play_always AlwaysDefect DEFECT nm1 h1 oh1 sc1 allc pm rounds None rh w
              ltac:(right; now split)) as [M1 _].
  destruct (play_always AlwaysCooperate COOPERATE nm2 h2 oh2 sc2 alld pm rounds None rh w
              ltac:(left; now split)) as [_ M2].
  pose proof (play_fixed_rounds g w eq_refl) as Hlen.
  fold alld allc g in M1, M2.
  destruct (play_bookkept g w) as (g' & (_ & H1 & _ & H2 & _ & _ & Hp & _ & _ & S1 & S2) & E).
  rewrite E in *. unfold resultOf in *.
  cbn [result_roundHistory finalScore1 finalScore2 cooperationRate1 cooperationRate2
       numRounds g payoffMatrix] in *.
  assert (P1 : Forall (fun r => payoff1 r = T pm) (roundHistory g')).
  { rewrite Forall_forall in *. intros r Hr.
    specialize (Hp r Hr). rewrite (M1 r Hr), (M2 r Hr) in Hp. now injection Hp. }
  assert (P2 : Forall (fun r => payoff2 r = S_ pm) (roundHistory g')).
  { rewrite Forall_forall in *. intros r Hr.
    specialize (Hp r Hr). rewrite (M1 r Hr), (M2 r Hr) in Hp. now injection Hp. }
  assert (Hne : roundHistory g' <> []).
  { intros E0. rewrite E0 in Hlen. cbn in Hlen. lia. }
  split_and!.
  - lia.
  - rewrite Forall_forall in *. intros r Hr.
    split_and!; [exact (M1 r Hr) | exact (M2 r Hr) | exact (P1 r Hr) | exact (P2 r Hr)].
  - rewrite S1, (map_constant _ _ _ P1), Hlen. reflexivity.
  - rewrite S2, (map_constant _ _ _ P2), Hlen. reflexivity.
  - change (getCooperationRate (strategy1 g')) with (rateOf (history (strategy1 g'))).
    rewrite H1. rewrite (rateOf_all DEFECT).
    + reflexivity.
    + intros E0. apply fmap_nil_inv in E0. contradiction.
    + apply Forall_fmap. exact M1.
  - change (getCooperationRate (strategy2 g')) with (rateOf (history (strategy2 g'))).
    rewrite H2. rewrite (rateOf_all COOPERATE).
    + reflexivity.
    + intros E0. apply fmap_nil_inv in E0. contradiction.
    + apply Forall_fmap. exact M2.
Qed.

Lemma alld_vs_allc_scores_witness :
  0 < 6
  /\ finalScore1 (fst (play (mkGame newAlwaysDefect newAlwaysCooperate
                                    (mkPayoffMatrix 5 3 1 0) 6 None [])
                            (worldWithSeed 42)))
     = foldl Qplus 0%Q (replicate (Z.to_nat 6) 5%Q).
Proof.
  split; [lia |].
  apply (alld_vs_allc_scores 6 "Always Defect (ALL-D)" "Always Cooperate (ALL-C)"
           [] [] [] [] 0 0 (mkPayoffMatrix 5 3 1 0) [] (worldWithSeed 42)).
  lia.
Defined.

Lemma foldl_Qplus_le (f1 f2 : RoundRecord -> Q) (rh : list RoundRecord) :
  Forall (fun r => (f1 r <= f2 r)%Q) rh ->
  forall a b, (a <= b)%Q ->
    (foldl Qplus a (map f1 rh) <= foldl Qplus b (map f2 rh))%Q.
Proof.
  induction 1 as [|r rh Hr _ IH]; intros a b Hab; cbn [map foldl]; [exact Hab |].
  apply IH. now apply Qplus_le_compat.
Qed.

(** X7.  When S <= T, ALL-D is never outscored: in every match, in either
    mode and against any opponent, the final score of ALL-D is at least
    that of the opponent, on whichever side ALL-D plays. *)
Theorem alld_never_outscored :
  forall (nm : string) (h oh : list Action) (sc : Q) (opp : Strategy)
         (pm : PayoffMatrix) (nr : Z) (cp : option Q) (rh : list RoundRecord)
         (w : World),
    (S_ pm <= T pm)%Q ->
    let s := mkStrategy AlwaysDefect nm h oh sc in
    let r1 := fst (play (mkGame s opp pm nr cp rh) w) in
    let r2 := fst (play (mkGame opp s pm nr cp rh) w) in
    (finalScore2 r1 <= finalScore1 r1)%Q /\ (finalScore1 r2 <= finalScore2 r2)%Q.
Proof.
  intros nm h oh sc opp pm nr cp rh w Hst. cbv zeta.
  destruct (play_always AlwaysDefect DEFECT nm h oh sc opp pm nr cp rh w
              ltac:(right; now split)) as [M1 M2].
  cbv zeta in M1, M2. split.
  - destruct (play_bookkept (mkGame (mkStrategy AlwaysDefect nm h oh sc) opp pm nr cp rh) w)
      as (g' & (_ & _ & _ & _ & _ & _ & Hp & _ & _ & S1 & S2) & E).
    rewrite E in *. unfold resultOf in *.
    cbn [result_roundHistory finalScore1 finalScore2 payoffMatrix] in *.
    rewrite S1, S2. apply foldl_Qplus_le; [| apply Qle_refl].
    rewrite Forall_forall in *. intros r Hr. specialize (Hp r Hr).
    rewrite (M1 r Hr) in Hp. destruct (move2 r); cbn in Hp; injection Hp as <- <-;
      [exact Hst | apply Qle_refl].
  - destruct (play_bookkept (mkGame opp (mkStrategy AlwaysDefect nm h oh sc) pm nr cp rh) w)
      as (g' & (_ & _ & _ & _ & _ & _ & Hp & _ & _ & S1 & S2) & E).
    rewrite E in *. unfold resultOf in *.
    cbn [result_roundHistory finalScore1 finalScore2 payoffMatrix] in *.
    rewrite S1, S2. apply foldl_Qplus_le; [| apply Qle_refl].
    rewrite Forall_forall in *. intros r Hr. specialize (Hp r Hr).
    rewrite (M2 r Hr) in Hp. destruct (move1 r); cbn in Hp; injection Hp as <- <-;
      [exact Hst | apply Qle_refl].
Qed.

Lemma alld_never_outscored_witness :
  (0 <= 5)%Q
  /\ (finalScore2 (fst (play (mkGame newAlwaysDefect newTitForTat
                                     (mkPayoffMatrix 5 3 1 0) 4 None [])
                             (worldWithSeed 42)))
      <= finalScore1 (fst (play (mkGame newAlwaysDefect newTitForTat
                                        (mkPayoffMatrix 5 3 1 0) 4 None [])
                                (worldWithSeed 42))))%Q.
Proof.
  assert (H : (0 <= 5)%Q) by discriminate.
  split; [exact H |].
  apply (alld_never_outscored "Always Defect (ALL-D)" [] [] 0 newTitForTat
           (mkPayoffMatrix 5 3 1 0) 4 None [] (worldWithSeed 42) H).
Defined.

(** ** The random source in a match *)

Lemma makeMove_neverDraws s w :
  neverDraws s ->
  snd (makeMove s w) = w /\ neverDraws (snd (fst (makeMove s w))).
Proof.
  destruct s as [v nm h oh sc]. unfold neverDraws. cbn [variant].
  destruct v as [| | | b | f]; intros Hn; try contradiction.
  - now split.
  - now split.
  - unfold makeMove. cbn [variant opponentHistory]. now destruct (last oh).
  - unfold makeMove. cbn [variant opponentHistory].
    destruct b; [now split |]. now destruct (last oh) as [[|]|].
Qed.

Lemma neverDraws_drawInsensitive s : neverDraws s -> drawInsensitive s.
Proof.
  unfold neverDraws, drawInsensitive. now destruct (variant s).
Qed.

Lemma playRound_neverDraws g w :
  neverDraws (strategy1 g) -> neverDraws (strategy2 g) ->
  let g' := fst (playRound g w) in
  snd (playRound g w)
    = mkWorld (globalRandom w) (console w)
              (trace w ++ [RoundPlayed (length (roundHistory g) + 1)])
  /\ neverDraws (strategy1 g') /\ neverDraws (strategy2 g')
  /\ length (roundHistory g') = S (length (roundHistory g)).
Proof.
  intros N1 N2. cbv zeta. unfold playRound, mbind, M_bind.
  destruct (makeMove_neverDraws (strategy1 g) w N1) as [W1 N1'].
  destruct (makeMove (strategy1 g) w) as [[m1 s1] w1]. cbn [fst snd] in W1, N1'. subst w1.
  destruct (makeMove_neverDraws (strategy2 g) w N2) as [W2 N2'].
  destruct (makeMove (strategy2 g) w) as [[m2 s2] w2]. cbn [fst snd] in W2, N2'. subst w2.
  destruct (getPayoff (payoffMatrix g) m1 m2) as [p1 p2].
  cbn [fst snd logRound mret M_ret strategy1 strategy2 roundHistory].
  split_and!; try assumption; [reflexivity |].
  rewrite length_app. cbn [length]. lia.
Qed.

Lemma forRounds_neverDraws n : forall g w,
  neverDraws (strategy1 g) -> neverDraws (strategy2 g) ->
  snd (forRounds n g w)
  = mkWorld (globalRandom w) (console w)
            (trace w ++ roundsFrom (length (roundHistory g)) n).
Proof.
  induction n as [|n IH]; intros g w N1 N2.
  - cbn. rewrite app_nil_r. now destruct w.
  - cbn [forRounds]. unfold mbind, M_bind.
    destruct (playRound_neverDraws g w N1 N2) as (W & N1' & N2' & L).
    destruct (playRound g w) as [g1 w1]. cbn [fst snd] in W, N1', N2', L. subst w1.
    rewrite (IH _ _ N1' N2'), L. cbn [globalRandom console trace].
    rewrite <- app_assoc. unfold roundsFrom. cbn [seq map app].
    replace (length (roundHistory g) + 1)%nat with (S (length (roundHistory g))) by lia.
    reflexivity.
Qed.

Lemma reset_neverDraws s : neverDraws s -> neverDraws (reset s).
Proof.
  destruct s as [v nm h oh sc]. unfold neverDraws, reset. cbn [variant].
  now destruct v.
Qed.

(** X8.  A fixed-length match between two strategies other than GTFT
    makes no draw: it leaves the random source and the console as they
    were, only the rounds 1, ..., n are added to the trace, and its result
    is the same whatever the state of the random source. *)
Theorem fixed_match_without_gtft_draws_nothing :
  forall (s1 s2 : Strategy) (pm : PayoffMatrix) (rounds : Z)
         (rh : list RoundRecord) (w w' : World),
    neverDraws s1 -> neverDraws s2 ->
    let g := mkGame s1 s2 pm rounds None rh in
    snd (play g w)
      = mkWorld (globalRandom w) (console w)
                (trace w ++ map RoundPlayed (seq 1 (Z.to_nat rounds)))
    /\ fst (play g w') = fst (play g w).
Proof.
  intros s1 s2 pm rounds rh w w' N1 N2 g. subst g.
  rewrite !play_fixed by reflexivity. cbn [fst snd numRounds].
  pose proof (reset_neverDraws _ N1) as R1. pose proof (reset_neverDraws _ N2) as R2.
  split.
  - now rewrite forRounds_neverDraws.
  - rewrite !forRounds_det by (now apply neverDraws_drawInsensitive). reflexivity.
Qed.

Lemma fixed_match_without_gtft_draws_nothing_witness :
  neverDraws newGrimTrigger /\ neverDraws newAlwaysDefect
  /\ fst (play (mkGame newGrimTrigger newAlwaysDefect (mkPayoffMatrix 5 3 1 0) 7 None [])
               (worldWithSeed 123))
     = fst (play (mkGame newGrimTrigger newAlwaysDefect (mkPayoffMatrix 5 3 1 0) 7 None [])
                 (worldWithSeed 42)).
Proof.
  split; [exact I |]. split; [exact I |].
  apply (fixed_match_without_gtft_draws_nothing newGrimTrigger newAlwaysDefect
           (mkPayoffMatrix 5 3 1 0) 7 [] (worldWithSeed 42) (worldWithSeed 123) I I).
Defined.

(** ** Edge cases of the continuation mode *)

(** X9.  With a continuation probability of 0 or less the match is not
    empty: exactly one round is played, after which the engine makes one
    draw, which fails, and stops. *)
Theorem play_continuation_zero_probability :
  forall (prob : Q) (s1 s2 : Strategy) (pm : PayoffMatrix) (nr : Z)
         (rh : list RoundRecord) (w : World),
    (prob <= 0)%Q ->
    let g := mkGame s1 s2 pm nr (Some prob) rh in
    length (result_roundHistory (fst (play g w))) = 1%nat
    /\ exists d, engineEvents (trace (snd (play g w)))
                 = engineEvents (trace w) ++ [RoundPlayed 1; Drew ByEngine d].
Proof.
  intros prob s1 s2 pm nr rh w Hp g.
  rewrite (play_continuation g w prob eq_refl). cbv zeta. cbn [fst snd].
  pose proof (playRound_effect (started g) w) as Hr. cbv zeta in Hr.
  destruct (playRound (started g) w) as [g1 w1]. cbn [fst snd] in Hr |- *.
  destruct Hr as ((r & Hr & _) & _ & _ & _ & _ & Ht).
  rewrite whileContinue_cases, draw_eq. cbn [fst snd].
  assert (Ec : loopCond prob 1 (fst (random (globalRandom w1))) = false).
  { destruct (loopCond prob 1 _) eqn:E; [| reflexivity].
    apply loopCond_spec in E as [E _]. destruct (random_range (globalRandom w1)) as [H0 _].
    exfalso. apply (Qlt_not_le _ _ E). eapply Qle_trans; eassumption. }
  rewrite Ec. cbn [fst snd]. split.
  - unfold resultOf. cbn [result_roundHistory]. rewrite Hr. reflexivity.
  - exists (fst (random (globalRandom w1))).
    change (maxRounds <=? 1) with false. cbn [trace].
    rewrite engineEvents_app, Ht, <- app_assoc. reflexivity.
Qed.

Lemma play_continuation_zero_probability_witness :
  (0 <= 0)%Q
  /\ length (result_roundHistory
               (fst (play (mkGame newTitForTat newAlwaysDefect (mkPayoffMatrix 5 3 1 0)
                                  50 (Some 0%Q) [])
                          (worldWithSeed 42)))) = 1%nat.
Proof.
  assert (H : (0 <= 0)%Q) by apply Qle_refl.
  split; [exact H |].
  apply (play_continuation_zero_probability 0 newTitForTat newAlwaysDefect
           (mkPayoffMatrix 5 3 1 0) 50 [] (worldWithSeed 42) H).
Defined.

Lemma playRound_withNumRounds n g w :
  playRound (withNumRounds n g) w
  = (withNumRounds n (fst (playRound g w)), snd (playRound g w)).
Proof.
  unfold playRound, mbind, M_bind, withNumRounds.
  cbn [strategy1 strategy2 payoffMatrix continuationProb roundHistory].
  destruct (makeMove (strategy1 g) w) as [[m1 s1] w1].
  destruct (makeMove (strategy2 g) w1) as [[m2 s2] w2].
  now destruct (getPayoff (payoffMatrix g) m1 m2).
Qed.

Lemma whileContinue_withNumRounds n m : forall prob roundCount g w,
  (remaining roundCount < m)%nat ->
  whileContinue prob roundCount (withNumRounds n g) w
  = ((fst (fst (whileContinue prob roundCount g w)),
      withNumRounds n (snd (fst (whileContinue prob roundCount g w)))),
     snd (whileContinue prob roundCount g w)).
Proof.
  induction m as [|m IH]; intros prob roundCount g w Hm; [lia |].
  rewrite (whileContinue_cases prob roundCount g w),
          (whileContinue_cases prob roundCount (withNumRounds n g) w).
  destruct (loopCond prob roundCount _) eqn:Ec; [| reflexivity].
  pose proof (loopCond_remaining _ _ _ Ec) as Hrem.
  rewrite playRound_withNumRounds. cbn [fst snd]. apply IH. lia.
Qed.

(** X10.  The fixed round count at its edges.  With a continuation
    probability the round count plays no part: the result and the world
    left are the same for every value of [numRounds].  Without one, a
    round count below 0 gives what 0 gives: no round, both scores and
    both cooperation rates 0, and the world untouched. *)
Theorem numRounds_edge_cases :
  forall (s1 s2 : Strategy) (pm : PayoffMatrix) (prob : Q) (nr nr' : Z)
         (rh : list RoundRecord) (w : World),
    nr <= 0 ->
    play (mkGame s1 s2 pm nr' (Some prob) rh) w
      = play (mkGame s1 s2 pm nr (Some prob) rh) w
    /\ play (mkGame s1 s2 pm nr None rh) w
       = (mkMatchResult (name s1) (name s2) 0 0 0 0 [], w).
Proof.
  intros s1 s2 pm prob nr nr' rh w Hn. split.
  - rewrite (play_continuation (mkGame s1 s2 pm nr' (Some prob) rh) w prob eq_refl),
            (play_continuation (mkGame s1 s2 pm nr (Some prob) rh) w prob eq_refl).
    cbv zeta.
    replace (started (mkGame s1 s2 pm nr' (Some prob) rh))
      with (withNumRounds nr' (started (mkGame s1 s2 pm nr (Some prob) rh)))
      by reflexivity.
    rewrite playRound_withNumRounds. cbn [fst snd].
    destruct (playRound (started (mkGame s1 s2 pm nr (Some prob) rh)) w) as [g1 w1].
    cbn [fst snd].
    rewrite (whileContinue_withNumRounds nr' (S (remaining 1))) by lia.
    destruct (whileContinue prob 1 g1 w1) as [[rc g2] w2]. cbn [fst snd].
    reflexivity.
  - rewrite play_fixed by reflexivity. cbn [numRounds].
    replace (Z.to_nat nr) with 0%nat by lia. reflexivity.
Qed.

Lemma numRounds_edge_cases_witness :
  -3 <= 0
  /\ play (mkGame newTitForTat newAlwaysDefect (mkPayoffMatrix 5 3 1 0) (-3) None [])
          (worldWithSeed 42)
     = (mkMatchResult "Tit-for-Tat (TFT)" "Always Defect (ALL-D)" 0 0 0 0 [],
        worldWithSeed 42).
Proof.
  split; [lia |].
  apply (numRounds_edge_cases newTitForTat newAlwaysDefect (mkPayoffMatrix 5 3 1 0)
           (1 # 2) (-3) 10 [] (worldWithSeed 42)).
  lia.
Defined.

(** ** The score mapping of the round robin *)

Lemma cell_writeCell m k1 k2 v a b :
  cell (writeCell m (k1, k2, v)) a b
  = if decide (a = k1 /\ b = k2) then Some (Some v) else cell m a b.
Proof.
  unfold cell, writeCell.
  destruct (decide (a = k1)) as [-> | Ha].
  - rewrite lookup_insert_eq. cbn [mbind option_bind].
    destruct (decide (b = k2)) as [-> | Hb].
    + rewrite lookup_insert_eq. now rewrite decide_True.
    + rewrite lookup_insert_ne by congruence.
      rewrite decide_False by tauto.
      unfold lookup_total, map_lookup_total. destruct (m !! k1); reflexivity.
  - rewrite lookup_insert_ne by congruence. now rewrite decide_False by tauto.
Qed.

Lemma cell_writes_other ws : forall m a b,
  (a, b) ∉ coordinates ws -> cell (foldl writeCell m ws) a b = cell m a b.
Proof.
  induction ws as [|[[k1 k2] v] ws IH]; intros m a b Hn; [reflexivity |].
  cbn [foldl]. unfold coordinates in Hn. cbn [map fst] in Hn.
  apply not_elem_of_cons in Hn as [Hne Hn].
  rewrite IH by exact Hn. rewrite cell_writeCell.
  apply decide_False. intros [-> ->]. now apply Hne.
Qed.

(** When no cell is written twice, each write is what the cell holds in
    the end. *)
Lemma cell_writes ws : forall m a b v,
  NoDup (coordinates ws) -> (a, b, v) ∈ ws ->
  cell (foldl writeCell m ws) a b = Some (Some v).
Proof.
  induction ws as [|[[k1 k2] v0] ws IH]; intros m a b v Hnd Hin.
  - now apply elem_of_nil in Hin.
  - unfold coordinates in Hnd. cbn [map fst] in Hnd.
    apply NoDup_cons in Hnd as [Hfresh Hnd]. cbn [foldl].
    apply elem_of_cons in Hin as [Heq | Hin].
    + injection Heq as -> -> ->.
      rewrite cell_writes_other by exact Hfresh.
      rewrite cell_writeCell. now apply decide_True.
    + now apply IH.
Qed.

Lemma setCell_writeCell k1 k2 v (m : gmap string (gmap string (option Q))) :
  k1 ∈ dom m -> setCell k1 k2 (Some v) m = Returns (writeCell m (k1, k2, v)).
Proof.
  intros Hin. apply elem_of_dom in Hin as [row Hrow]. unfold setCell, writeCell.
  rewrite Hrow. unfold lookup_total, map_lookup_total. now rewrite Hrow.
Qed.

Lemma dom_writeCell k1 k2 v (m : gmap string (gmap string (option Q))) :
  k1 ∈ dom m -> dom (writeCell m (k1, k2, v)) = dom m.
Proof.
  intros Hin. unfold writeCell. apply dom_insert_lookup_L. now apply elem_of_dom.
Qed.

Lemma playPair_writes t i j mr pm tt w n1 n2 :
  rrNames !! i = Some n1 -> rrNames !! j = Some n2 ->
  (forall nm, nm ∈ rrNames -> nm ∈ dom pm) ->
  exists r w',
    playPair t getAllStrategyCodes i j (mr, pm) (tt, w)
      = (Returns (mr ++ [r], foldl writeCell pm (writesOf r)), (tt, w'))
    /\ pairing r = (n1, n2) /\ played r
    /\ (forall nm, nm ∈ rrNames -> nm ∈ dom (foldl writeCell pm (writesOf r))).
Proof.
  intros Hi Hj Hdom.
  destruct (strategyAt_name (strategyParams t) i n1 Hi) as (s1 & E1 & N1).
  destruct (strategyAt_name (strategyParams t) j n2 Hj) as (s2 & E2 & N2).
  unfold playPair. rewrite E1, E2.
  unfold mbind, TM_bind, liftO at 1 2. unfold liftM at 1.
  destruct (play_names (newGame t s1 s2) w) as [P1 P2].
  assert (Hpl : played (fst (play (newGame t s1 s2) w))) by (eexists _, _; reflexivity).
  destruct (play (newGame t s1 s2) w) as [r w']. cbn [fst newGame strategy1 strategy2] in *.
  apply list_elem_of_lookup_2 in Hi, Hj.
  assert (D1 : strategy1Name r ∈ dom pm) by (rewrite P1, N1; now apply Hdom).
  assert (D2 : strategy2Name r ∈ dom pm) by (rewrite P2, N2; now apply Hdom).
  exists r, w'. unfold liftO, writesOf. cbn [foldl].
  rewrite (setCell_writeCell _ _ _ _ D1).
  rewrite setCell_writeCell by (now rewrite dom_writeCell).
  split_and!.
  - reflexivity.
  - unfold pairing. now rewrite P1, P2, N1, N2.
  - exact Hpl.
  - intros nm Hnm. rewrite !dom_writeCell; [now apply Hdom | exact D1 |].
    now rewrite dom_writeCell.
Qed.

Lemma playSelf_writes t i pm tt w n1 :
  rrNames !! i = Some n1 ->
  (forall nm, nm ∈ rrNames -> nm ∈ dom pm) ->
  exists r w',
    playSelf t getAllStrategyCodes pm i (tt, w)
      = (Returns (writeCell pm (selfWriteOf r)), (tt, w'))
    /\ pairing r = (n1, n1)
    /\ (forall nm, nm ∈ rrNames -> nm ∈ dom (writeCell pm (selfWriteOf r))).
Proof.
  intros Hi Hdom.
  destruct (strategyAt_name (strategyParams t) i n1 Hi) as (s1 & E1 & N1).
  unfold playSelf. rewrite E1.
  unfold mbind, TM_bind, liftO at 1 2. unfold liftM at 1.
  destruct (play_names (newGame t s1 s1) w) as [P1 P2].
  destruct (play (newGame t s1 s1) w) as [r w']. cbn [fst newGame strategy1 strategy2] in *.
  apply list_elem_of_lookup_2 in Hi.
  assert (D1 : strategy1Name r ∈ dom pm) by (rewrite P1, N1; now apply Hdom).
  exists r, w'. unfold liftO, selfWriteOf.
  rewrite (setCell_writeCell _ _ _ _ D1).
  split_and!.
  - reflexivity.
  - unfold pairing. now rewrite P1, P2, N1.
  - intros nm Hnm. rewrite dom_writeCell; [now apply Hdom | exact D1].
Qed.

Ltac run_playPair_writes Hdom Hpl :=
  match goal with
  | |- context [playPair ?t _ ?i ?j (?mr, ?pm) (?tt, ?w)] =>
      let r := fresh "r" in
      let w' := fresh "w" in
      let E := fresh "E" in
      let Hp := fresh "Hp" in
      let P := fresh "P" in
      let D := fresh "D" in
      destruct (playPair_writes t i j mr pm tt w _ _ eq_refl eq_refl Hdom)
        as (r & w' & E & Hp & P & D);
      rewrite E; cbv beta iota; clear E Hdom; rename D into Hdom;
      assert (Hpl' := conj P Hpl); clear Hpl P; rename Hpl' into Hpl
  end.

(** The loop over the pairs, with what it writes in the score mapping. *)
Lemma playPairs_writes t tt w pm0 :
  (forall nm, nm ∈ rrNames -> nm ∈ dom pm0) ->
  exists mr w',
    forEach (seq 0 5)
      (fun st i =>
         forEach (seq (i + 1) (5 - (i + 1)))
                 (fun st j => playPair t getAllStrategyCodes i j st) st)
      ([], pm0) (tt, w)
    = (Returns (mr, foldl writeCell pm0 (flat_map writesOf mr)), (tt, w'))
    /\ map pairing mr = rrPairs
    /\ Forall played mr
    /\ (forall nm, nm ∈ rrNames -> nm ∈ dom (foldl writeCell pm0 (flat_map writesOf mr))).
Proof.
  intros Hdom. assert (Hpl := I).
  cbn [forEach seq Nat.add Nat.sub]. unfold mbind, TM_bind, mret, TM_ret.
  do 10 run_playPair_writes Hdom Hpl.
  match goal with
  | |- exists _ _, ?lhs = _ /\ _ =>
      match lhs with (Returns (?l, _), (_, ?w')) => exists l, w' end
  end.
  assert (Hw : forall (l : list MatchResult) x,
             flat_map writesOf (l ++ [x]) = flat_map writesOf l ++ writesOf x).
  { intros l x. rewrite flat_map_app. cbn [flat_map]. now rewrite app_nil_r. }
  rewrite !Hw, !foldl_app.
  change (foldl writeCell pm0 (flat_map writesOf [])) with pm0.
  split_and!.
  - reflexivity.
  - rewrite !map_app. cbn [map app]. unfold rrPairs. congruence.
  - cbn [app]. decompose [and] Hpl. repeat (constructor; [assumption |]). constructor.
  - exact Hdom.
Qed.

(** The self-play loop, with what it writes: one diagonal cell for each
    index, in order. *)
Lemma playSelves_writes t tt (l : list nat) : forall pm w,
  (forall i, i ∈ l -> (i < 5)%nat) ->
  (forall nm, nm ∈ rrNames -> nm ∈ dom pm) ->
  exists rs w',
    forEach l (playSelf t getAllStrategyCodes) pm (tt, w)
      = (Returns (foldl writeCell pm (map selfWriteOf rs)), (tt, w'))
    /\ map (fun r => Some (strategy1Name r)) rs = map (fun i => rrNames !! i) l
    /\ (forall nm, nm ∈ rrNames -> nm ∈ dom (foldl writeCell pm (map selfWriteOf rs))).
Proof.
  induction l as [|i l IH]; intros pm w Hl Hdom.
  - exists [], w. now split_and!.
  - destruct (lookup_lt_is_Some_2 rrNames i) as [n1 Hn1]; [apply Hl; left |].
    destruct (playSelf_writes t i pm tt w n1 Hn1 Hdom) as (r & w1 & E & Hp & D).
    destruct (IH (writeCell pm (selfWriteOf r)) w1) as (rs & w' & E' & Hn & D').
    { intros k Hk. apply Hl. now right. }
    { exact D. }
    exists (r :: rs), w'. cbn [map foldl]. split_and!.
    + cbn [forEach]. rewrite (TM_bind_returns _ _ _ _ _ E). exact E'.
    + rewrite Hn, Hn1. unfold pairing in Hp. now injection Hp as -> _.
    + exact D'.
Qed.

Lemma addToStats_full nm sc rate (agg : gmap string StrategyStats) :
  nm ∈ dom agg ->
  exists agg', addToStats nm sc rate agg = Returns agg' /\ dom agg' = dom agg
    /\ (forall k st, agg !! k = Some st ->
          exists st', agg' !! k = Some st'
            /\ st' = (if decide (nm = k)
                      then mkStrategyStats (totalScore st + sc)%Q (S (gamesPlayed st))
                             (cooperationRate st) (cooperationCount st + rate)%Q
                             (averageScore st)
                      else st)).
Proof.
  intros Hin. apply elem_of_dom in Hin as [data Hdata]. unfold addToStats. rewrite Hdata.
  eexists. split; [reflexivity |]. split.
  - apply dom_insert_lookup_L. now exists data.
  - intros k st Hk. destruct (decide (nm = k)) as [-> | Hne].
    + rewrite lookup_insert_eq. rewrite Hdata in Hk. injection Hk as ->.
      eexists. split; reflexivity.
    + rewrite lookup_insert_ne by exact Hne. eexists. split; [exact Hk | reflexivity].
Qed.

(** Adding the matches of [rs]: besides the total and the count, the
    cooperation rates of the name are summed in order, and nothing else
    of an entry changes. *)
Lemma foldOutcome_addMatch_full rs : forall (agg : gmap string StrategyStats),
  (forall r, r ∈ rs -> strategy1Name r ∈ dom agg /\ strategy2Name r ∈ dom agg) ->
  exists agg', foldOutcome addMatch rs agg = Returns agg'
    /\ (forall k st, agg !! k = Some st ->
          agg' !! k
          = Some (mkStrategyStats
                    (foldl Qplus (totalScore st) (scoresIn k rs))
                    (gamesPlayed st + length (scoresIn k rs))
                    (cooperationRate st)
                    (foldl Qplus (cooperationCount st) (ratesIn k rs))
                    (averageScore st))).
Proof.
  induction rs as [|r rs IH]; intros agg Hdom.
  - exists agg. split; [reflexivity |].
    intros k [ts gp cr cc av] Hk. cbn. now rewrite Nat.add_0_r.
  - destruct (Hdom r ltac:(left)) as [H1 H2].
    destruct (addToStats_full (strategy1Name r) (finalScore1 r) (cooperationRate1 r)
                agg H1) as (agg1 & E1 & D1 & L1).
    destruct (addToStats_full (strategy2Name r) (finalScore2 r) (cooperationRate2 r)
                agg1 ltac:(now rewrite D1)) as (agg2 & E2 & D2 & L2).
    destruct (IH agg2) as (agg' & E & L).
    { intros r' Hr'. rewrite D2, D1. apply Hdom. now right. }
    exists agg'. split.
    + cbn [foldOutcome]. unfold addMatch at 1. now rewrite E1, E2.
    + intros k st Hk.
      destruct (L1 k st Hk) as (st1 & K1 & T1).
      destruct (L2 k st1 K1) as (st2 & K2 & T2).
      rewrite (L k st2 K2). subst st2 st1.
      change (scoresIn k (r :: rs)) with (scoresOf k r ++ scoresIn k rs).
      change (ratesIn k (r :: rs)) with (ratesOf k r ++ ratesIn k rs).
      rewrite !foldl_app, length_app.
      generalize (scoresIn k rs) (ratesIn k rs). intros ss rr.
      unfold scoresOf, ratesOf.
      destruct (decide (strategy1Name r = k)), (decide (strategy2Name r = k));
        cbn [app foldl length totalScore gamesPlayed cooperationRate cooperationCount
             averageScore]; f_equal; f_equal; lia.
Qed.

(** The whole run, with the writes on the score mapping and the entries
    of [aggregated] before the averages are taken. *)
Lemma runRoundRobin_detail (t : Tournament) (w : World) :
  exists (mr rs : list MatchResult) (agg : gmap string StrategyStats) (w' : World),
    runRoundRobin (t, w)
    = (Returns (mkRoundRobinResult mr (withAverages <$> agg)
                  (foldl writeCell (initScoreMatrix rrNames)
                         (flat_map writesOf mr ++ map selfWriteOf rs))
                  rrNames),
       (mkTournament (tournament_payoffMatrix t) (tournament_numRounds t)
                     (strategyParams t) (tournament_continuationProb t) mr, w'))
    /\ map pairing mr = rrPairs
    /\ Forall played mr
    /\ map strategy1Name rs = rrNames
    /\ (forall k, k ∈ rrNames ->
          agg !! k
          = Some (mkStrategyStats (foldl Qplus 0%Q (scoresIn k mr))
                                  (length (scoresIn k mr)) 0
                                  (foldl Qplus 0%Q (ratesIn k mr)) None)).
Proof.
  unfold runRoundRobin.
  rewrite (TM_bind_returns this _ (t, w) t (t, w) eq_refl). cbv zeta.
  set (t0 := mkTournament (tournament_payoffMatrix t) (tournament_numRounds t)
                          (strategyParams t) (tournament_continuationProb t) []).
  rewrite (TM_bind_returns (setResults []) _ (t, w) tt (t0, w) eq_refl).
  rewrite (TM_bind_returns _ _ _ _ _ (names_run t t0 w)).
  destruct (playPairs_writes t t0 w (initScoreMatrix rrNames) (dom_initScoreMatrix rrNames))
    as (mr & w1 & E1 & Hp & Hpl & Hdom).
  rewrite (TM_bind_returns _ _ _ _ _ E1).
  destruct (playSelves_writes t t0 (seq 0 5)
              (foldl writeCell (initScoreMatrix rrNames) (flat_map writesOf mr)) w1)
    as (rs & w2 & E2 & Hn & _).
  { intros i Hi. apply elem_of_seq in Hi. lia. }
  { exact Hdom. }
  rewrite (TM_bind_returns _ _ _ _ _ E2).
  destruct (initStats_run t t0 w2) as (agg0 & E3 & H0).
  rewrite (TM_bind_returns _ _ _ _ _ E3).
  destruct (foldOutcome_addMatch_full mr agg0) as (agg' & E4 & L4).
  { intros r Hr.
    assert (Hin : pairing r ∈ rrPairs).
    { rewrite <- Hp. apply list_elem_of_fmap. now exists r. }
    apply rrPairs_names in Hin as [H1 H2].
    split; apply elem_of_dom; eexists; apply H0; assumption. }
  unfold mbind at 1, TM_bind at 1. rewrite forEach_liftO, E4.
  exists mr, rs, agg', w2. split_and!.
  - rewrite foldl_app. reflexivity.
  - exact Hp.
  - exact Hpl.
  - apply (inj (fmap Some)). rewrite <- list_fmap_compose. exact Hn.
  - intros k Hk. rewrite (L4 k _ (H0 k Hk)). reflexivity.
Qed.

Lemma coordinates_pairs (mr : list MatchResult) :
  coordinates (flat_map writesOf mr) = pairCells (map pairing mr).
Proof.
  unfold coordinates, pairCells. induction mr as [|r mr IH]; [reflexivity |].
  cbn [flat_map map app writesOf pairing fst snd]. now rewrite <- IH.
Qed.

Lemma coordinates_selves (rs : list MatchResult) :
  coordinates (map selfWriteOf rs) = diagonalCells (map strategy1Name rs).
Proof.
  unfold coordinates, diagonalCells. induction rs as [|r rs IH]; [reflexivity |].
  cbn [map selfWriteOf fst]. now rewrite <- IH.
Qed.

Lemma rrCells_NoDup : NoDup (pairCells rrPairs ++ diagonalCells rrNames).
Proof. apply (bool_decide_unpack _). vm_compute. exact I. Qed.

Lemma rrCells_cover a b :
  a ∈ rrNames -> b ∈ rrNames -> (a, b) ∈ pairCells rrPairs ++ diagonalCells rrNames.
Proof.
  intros Ha Hb. unfold rrNames in Ha, Hb.
  repeat (apply elem_of_cons in Ha as [-> | Ha]);
    try (now apply elem_of_nil in Ha);
    repeat (apply elem_of_cons in Hb as [-> | Hb]);
    try (now apply elem_of_nil in Hb);
    apply (bool_decide_unpack _); vm_compute; exact I.
Qed.

(** ** The run of the round robin, match by match *)

Lemma forEach_app {A S : Type} (l1 l2 : list A) (body : S -> A -> TM S) :
  forall s st,
    forEach (l1 ++ l2) body s st = (s' ← forEach l1 body s; forEach l2 body s') st.
Proof.
  induction l1 as [|x l1 IH]; intros s st; cbn [app forEach]; [reflexivity |].
  unfold mbind, TM_bind.
  destruct (body s x st) as [[s1 | e] st1]; [| reflexivity].
  rewrite IH. reflexivity.
Qed.

Lemma forEach_map {A B S : Type} (g : A -> B) (l : list A) (body : S -> B -> TM S) :
  forall s st, forEach (map g l) body s st = forEach l (fun s x => body s (g x)) s st.
Proof.
  induction l as [|x l IH]; intros s st; cbn [map forEach]; [reflexivity |].
  unfold mbind, TM_bind. destruct (body s (g x) st) as [[s1 | e] st1]; [apply IH | reflexivity].
Qed.

(** Two nested loops are one loop over the pairs. *)
Lemma forEach_nested {A B S : Type} (l : list A) (f : A -> list B)
  (body : A -> S -> B -> TM S) :
  forall s st,
    forEach l (fun s i => forEach (f i) (body i) s) s st
    = forEach (flat_map (fun i => map (pair i) (f i)) l)
              (fun s p => body (fst p) s (snd p)) s st.
Proof.
  induction l as [|i l IH]; intros s st; cbn [forEach flat_map]; [reflexivity |].
  rewrite forEach_app. unfold mbind, TM_bind.
  rewrite forEach_map. cbn [fst snd].
  destruct (forEach (f i) _ s st) as [[s1 | e] st1] eqn:E.
  - replace (forEach (f i) (fun s0 x => body i s0 x) s st) with (Returns s1, st1).
    apply IH.
  - now replace (forEach (f i) (fun s0 x => body i s0 x) s st) with (@Throws S e, st1).
Qed.

Lemma strategyAt_spec (t : Tournament) (i : nat) (nm : string) :
  rrNames !! i = Some nm ->
  createStrategyAt getAllStrategyCodes i (strategyParams t) = Returns (strategyAt t i)
  /\ name (strategyAt t i) = nm.
Proof.
  intros Hi. destruct (strategyAt_name (strategyParams t) i nm Hi) as (s & E & N).
  unfold strategyAt. rewrite E. now split.
Qed.

Lemma playPair_exact t i j mr pm tt w n1 n2 :
  rrNames !! i = Some n1 -> rrNames !! j = Some n2 ->
  (forall nm, nm ∈ rrNames -> nm ∈ dom pm) ->
  let m := play (newGame t (strategyAt t i) (strategyAt t j)) w in
  playPair t getAllStrategyCodes i j (mr, pm) (tt, w)
    = (Returns (mr ++ [fst m], foldl writeCell pm (writesOf (fst m))), (tt, snd m))
  /\ pairing (fst m) = (n1, n2)
  /\ (forall nm, nm ∈ rrNames -> nm ∈ dom (foldl writeCell pm (writesOf (fst m)))).
Proof.
  intros Hi Hj Hdom. cbv zeta.
  destruct (strategyAt_spec t i n1 Hi) as (E1 & N1).
  destruct (strategyAt_spec t j n2 Hj) as (E2 & N2).
  unfold playPair. rewrite E1, E2.
  unfold mbind, TM_bind, liftO at 1 2. unfold liftM at 1.
  destruct (play_names (newGame t (strategyAt t i) (strategyAt t j)) w) as [P1 P2].
  destruct (play (newGame t (strategyAt t i) (strategyAt t j)) w) as [r w'].
  cbn [fst snd newGame strategy1 strategy2] in *.
  apply list_elem_of_lookup_2 in Hi, Hj.
  assert (D1 : strategy1Name r ∈ dom pm) by (rewrite P1, N1; now apply Hdom).
  assert (D2 : strategy2Name r ∈ dom pm) by (rewrite P2, N2; now apply Hdom).
  unfold liftO, writesOf. cbn [foldl].
  rewrite (setCell_writeCell _ _ _ _ D1).
  rewrite setCell_writeCell by (now rewrite dom_writeCell).
  split_and!.
  - reflexivity.
  - unfold pairing. now rewrite P1, P2, N1, N2.
  - intros nm Hnm. rewrite !dom_writeCell; [now apply Hdom | exact D1 |].
    now rewrite dom_writeCell.
Qed.

Lemma playSelf_exact t i pm tt w n1 :
  rrNames !! i = Some n1 ->
  (forall nm, nm ∈ rrNames -> nm ∈ dom pm) ->
  let m := play (newGame t (strategyAt t i) (strategyAt t i)) w in
  playSelf t getAllStrategyCodes pm i (tt, w)
    = (Returns (writeCell pm (selfWriteOf (fst m))), (tt, snd m))
  /\ pairing (fst m) = (n1, n1)
  /\ (forall nm, nm ∈ rrNames -> nm ∈ dom (writeCell pm (selfWriteOf (fst m)))).
Proof.
  intros Hi Hdom. cbv zeta.
  destruct (strategyAt_spec t i n1 Hi) as (E1 & N1).
  unfold playSelf. rewrite E1.
  unfold mbind, TM_bind, liftO at 1 2. unfold liftM at 1.
  destruct (play_names (newGame t (strategyAt t i) (strategyAt t i)) w) as [P1 P2].
  destruct (play (newGame t (strategyAt t i) (strategyAt t i)) w) as [r w'].
  cbn [fst snd newGame strategy1 strategy2] in *.
  apply list_elem_of_lookup_2 in Hi.
  assert (D1 : strategy1Name r ∈ dom pm) by (rewrite P1, N1; now apply Hdom).
  unfold liftO, selfWriteOf.
  rewrite (setCell_writeCell _ _ _ _ D1).
  split_and!.
  - reflexivity.
  - unfold pairing. now rewrite P1, P2, N1.
  - intros nm Hnm. rewrite dom_writeCell; [now apply Hdom | exact D1].
Qed.

(** The loop over the pairs is [playAll] on the pairs. *)
Lemma playPairList_exact t tt (ps : list (nat * nat)) : forall mr pm w,
  (forall p, p ∈ ps -> (fst p < 5)%nat /\ (snd p < 5)%nat) ->
  (forall nm, nm ∈ rrNames -> nm ∈ dom pm) ->
  forEach ps (fun st p => playPair t getAllStrategyCodes (fst p) (snd p) st)
          (mr, pm) (tt, w)
  = (Returns (mr ++ fst (playAll t ps w),
              foldl writeCell pm (flat_map writesOf (fst (playAll t ps w)))),
     (tt, snd (playAll t ps w)))
  /\ map (fun r => (Some (strategy1Name r), Some (strategy2Name r)))
         (fst (playAll t ps w))
     = map (fun p => (rrNames !! fst p, rrNames !! snd p)) ps
  /\ (forall nm, nm ∈ rrNames ->
        nm ∈ dom (foldl writeCell pm (flat_map writesOf (fst (playAll t ps w))))).
Proof.
  induction ps as [|[i j] ps IH]; intros mr pm w Hps Hdom.
  - cbn [forEach playAll fst snd flat_map foldl map]. rewrite app_nil_r.
    now split_and!.
  - destruct (Hps (i, j) ltac:(left)) as [Hi Hj]. cbn [fst snd] in Hi, Hj.
    destruct (lookup_lt_is_Some_2 rrNames i Hi) as [n1 Hn1].
    destruct (lookup_lt_is_Some_2 rrNames j Hj) as [n2 Hn2].
    destruct (playPair_exact t i j mr pm tt w n1 n2 Hn1 Hn2 Hdom) as (E & Hp & D).
    cbv zeta in E, Hp, D.
    cbn [forEach playAll fst snd].
    rewrite (TM_bind_returns _ _ _ _ _ E).
    set (m := play (newGame t (strategyAt t i) (strategyAt t j)) w) in *.
    destruct (IH (mr ++ [fst m]) (foldl writeCell pm (writesOf (fst m))) (snd m))
      as (E' & Hn' & D').
    { intros p Hp'. apply Hps. now right. }
    { exact D. }
    rewrite E'. cbn [flat_map map fst snd]. rewrite foldl_app, <- app_assoc.
    split_and!.
    + reflexivity.
    + rewrite Hn', Hn1, Hn2. unfold pairing in Hp. now injection Hp as -> ->.
    + exact D'.
Qed.

(** The self-play loop is [playAll] on the pairs [(i, i)]. *)
Lemma playSelfList_exact t tt (l : list nat) : forall pm w,
  (forall i, i ∈ l -> (i < 5)%nat) ->
  (forall nm, nm ∈ rrNames -> nm ∈ dom pm) ->
  let ms := playAll t (map (fun i => (i, i)) l) w in
  forEach l (playSelf t getAllStrategyCodes) pm (tt, w)
  = (Returns (foldl writeCell pm (map selfWriteOf (fst ms))), (tt, snd ms))
  /\ map (fun r => (Some (strategy1Name r), Some (strategy2Name r))) (fst ms)
     = map (fun i => (rrNames !! i, rrNames !! i)) l.
Proof.
  induction l as [|i l IH]; intros pm w Hl Hdom; cbv zeta.
  - now split.
  - destruct (lookup_lt_is_Some_2 rrNames i) as [n1 Hn1]; [apply Hl; left |].
    destruct (playSelf_exact t i pm tt w n1 Hn1 Hdom) as (E & Hp & D).
    cbv zeta in E, Hp, D.
    cbn [forEach map playAll fst snd].
    rewrite (TM_bind_returns _ _ _ _ _ E).
    set (m := play (newGame t (strategyAt t i) (strategyAt t i)) w) in *.
    destruct (IH (writeCell pm (selfWriteOf (fst m))) (snd m)) as (E' & Hn').
    { intros k Hk. apply Hl. now right. }
    { exact D. }
    cbv zeta in E', Hn'. rewrite E'. cbn [foldl]. split; [reflexivity |].
    rewrite Hn', Hn1. unfold pairing in Hp. now injection Hp as -> ->.
Qed.

(** The whole run: the ten pair matches, then the five self-play
    matches, each on the world that the one before left; [matchResults]
    holds the former only, the score mapping the scores of both. *)
Lemma runRoundRobin_exact (t : Tournament) (w : World) :
  let pairs := playAll t rrPairIndices w in
  let selves := playAll t rrSelfIndices (snd pairs) in
  exists agg : gmap string StrategyStats,
    runRoundRobin (t, w)
    = (Returns (mkRoundRobinResult (fst pairs) agg
                  (foldl writeCell (initScoreMatrix rrNames)
                         (flat_map writesOf (fst pairs) ++ map selfWriteOf (fst selves)))
                  rrNames),
       (mkTournament (tournament_payoffMatrix t) (tournament_numRounds t)
                     (strategyParams t) (tournament_continuationProb t) (fst pairs),
        snd selves))
    /\ map pairing (fst pairs) = rrPairs
    /\ map pairing (fst selves) = map (fun nm => (nm, nm)) rrNames.
Proof.
  cbv zeta.
  assert (Hpairs : forall p, p ∈ rrPairIndices -> (fst p < 5)%nat /\ (snd p < 5)%nat).
  { intros p Hp. unfold rrPairIndices in Hp. cbn in Hp.
    repeat (apply elem_of_cons in Hp as [-> | Hp]; [cbn; lia |]).
    now apply elem_of_nil in Hp. }
  set (t0 := mkTournament (tournament_payoffMatrix t) (tournament_numRounds t)
                          (strategyParams t) (tournament_continuationProb t) []).
  destruct (playPairList_exact t t0 rrPairIndices [] (initScoreMatrix rrNames) w
              Hpairs (dom_initScoreMatrix rrNames)) as (E1 & Hn1 & Hdom).
  set (pairs := playAll t rrPairIndices w) in *.
  destruct (playSelfList_exact t t0 (seq 0 5)
              (foldl writeCell (initScoreMatrix rrNames) (flat_map writesOf (fst pairs)))
              (snd pairs)) as (E2 & Hn2).
  { intros i Hi. apply elem_of_seq in Hi. lia. }
  { exact Hdom. }
  fold rrSelfIndices in E2, Hn2.
  set (selves := playAll t rrSelfIndices (snd pairs)) in *.
  assert (Hp : map pairing (fst pairs) = rrPairs).
  { apply (inj (fmap (fun p : string * string => (Some (fst p), Some (snd p))))).
    rewrite <- list_fmap_compose.
    transitivity (map (fun r => (Some (strategy1Name r), Some (strategy2Name r)))
                      (fst pairs)); [reflexivity |].
    rewrite Hn1. reflexivity. }
  assert (Hs : map pairing (fst selves) = map (fun nm => (nm, nm)) rrNames).
  { apply (inj (fmap (fun p : string * string => (Some (fst p), Some (snd p))))).
    rewrite <- list_fmap_compose.
    transitivity (map (fun r => (Some (strategy1Name r), Some (strategy2Name r)))
                      (fst selves)); [reflexivity |].
    rewrite Hn2. reflexivity. }
  clearbody selves. clearbody pairs.
  unfold runRoundRobin.
  rewrite (TM_bind_returns this _ (t, w) t (t, w) eq_refl). cbv zeta.
  fold t0.
  rewrite (TM_bind_returns (setResults []) _ (t, w) tt (t0, w) eq_refl).
  rewrite (TM_bind_returns _ _ _ _ _ (names_run t t0 w)).
  assert (E1' : forEach (seq 0 (length getAllStrategyCodes))
                  (fun st i =>
                     forEach (seq (i + 1) (length getAllStrategyCodes - (i + 1)))
                             (fun st j => playPair t getAllStrategyCodes i j st) st)
                  ([], initScoreMatrix rrNames) (t0, w)
                = (Returns (fst pairs,
                            foldl writeCell (initScoreMatrix rrNames)
                                  (flat_map writesOf (fst pairs))),
                   (t0, snd pairs))).
  { change (length getAllStrategyCodes) with 5%nat.
    rewrite (forEach_nested (seq 0 5) (fun i => seq (i + 1) (5 - (i + 1)))
               (fun i st j => playPair t getAllStrategyCodes i j st)).
    exact E1. }
  rewrite (TM_bind_returns _ _ _ _ _ E1').
  change (length getAllStrategyCodes) with 5%nat.
  rewrite (TM_bind_returns _ _ _ _ _ E2).
  destruct (initStats_run t t0 (snd selves)) as (agg0 & E3 & H0).
  rewrite (TM_bind_returns _ _ _ _ _ E3).
  destruct (foldOutcome_addMatch_full (fst pairs) agg0) as (agg' & E4 & _).
  { intros r Hr.
    assert (Hin : pairing r ∈ rrPairs).
    { rewrite <- Hp. apply list_elem_of_fmap. now exists r. }
    apply rrPairs_names in Hin as [H1 H2].
    split; apply elem_of_dom; eexists; apply H0; assumption. }
  unfold mbind at 1, TM_bind at 1. rewrite forEach_liftO, E4.
  exists (withAverages <$> agg'). split_and!.
  - rewrite foldl_app. reflexivity.
  - exact Hp.
  - exact Hs.
Qed.

(** C1, as the code has it.  The round robin over the five strategies
    returns normally.  Its [matchResults] holds exactly the C(5,2) = 10
    matches between distinct strategies, in the order of the pairs, each
    played on the world that the match before left.  The five self-play
    matches are played after them, on the world that the pair matches
    left and in the order of the strategies; the first final score of
    each is stored in the diagonal cell of its strategy in the score
    mapping, and nowhere else: they are not in [matchResults].  The world
    at the end is the one that the last self-play match left.  For every
    strategy, [gamesPlayed] is 4 and [totalScore] is the sum of its final
    scores over the matches of [matchResults] in which it took part: its
    self-play match is not counted. *)
Theorem roundRobin_matches_and_totals :
  forall (t : Tournament) (w : World),
    let pairs := playAll t rrPairIndices w in
    let selves := playAll t rrSelfIndices (snd pairs) in
    exists out : RoundRobinResult,
      rrOutcome t w = Returns out
      /\ matchResults out = fst pairs
      /\ map pairing (matchResults out) = rrPairs
      /\ length (matchResults out) = 10%nat
      /\ strategyNames out = rrNames
      /\ (forall nm, nm ∈ rrNames ->
            exists data, aggregated out !! nm = Some data
              /\ gamesPlayed data = 4%nat
              /\ length (scoresIn nm (matchResults out)) = 4%nat
              /\ totalScore data = sumScores (scoresIn nm (matchResults out)))
      /\ (forall nm, nm ∈ rrNames -> diagonalSet (scoreMatrix out) nm)
      /\ map pairing (fst selves) = map (fun nm => (nm, nm)) rrNames
      /\ (forall r, r ∈ fst selves ->
            cell (scoreMatrix out) (strategy1Name r) (strategy1Name r)
            = Some (Some (finalScore1 r)))
      /\ Forall (fun r => strategy1Name r <> strategy2Name r) (matchResults out)
      /\ snd (snd (runRoundRobin (t, w))) = snd selves
      /\ results (fst (snd (runRoundRobin (t, w)))) = matchResults out.
Proof.
  intros t w. cbv zeta.
  destruct (runRoundRobin_run t w) as (out & w' & E & Hp & Hn & Ha & Hd).
  destruct (runRoundRobin_exact t w) as (agg & E' & Hp' & Hs).
  cbv zeta in E', Hs.
  set (pairs := playAll t rrPairIndices w) in *.
  set (selves := playAll t rrSelfIndices (snd pairs)) in *.
  clearbody selves. clearbody pairs.
  assert (Eout : out = mkRoundRobinResult (fst pairs) agg
                         (foldl writeCell (initScoreMatrix rrNames)
                                (flat_map writesOf (fst pairs)
                                 ++ map selfWriteOf (fst selves)))
                         rrNames
                 /\ w' = snd selves).
  { rewrite E' in E. injection E as <- _ <-. now split. }
  destruct Eout as [Eout Ew].
  exists out. unfold rrOutcome. rewrite E. cbn [fst snd results].
  split_and!; try reflexivity; try assumption.
  - now rewrite Eout.
  - rewrite <- (length_map pairing), Hp. reflexivity.
  - intros nm Hnm. destruct (Ha nm Hnm) as (data & K & G & T').
    assert (H4 : length (scoresIn nm (matchResults out)) = 4%nat).
    { rewrite scoresIn_length, Hp. now apply appearances_rrPairs. }
    exists data. split_and!; [exact K | congruence | exact H4 | exact T'].
  - intros r Hr. rewrite Eout. cbn [scoreMatrix].
    apply cell_writes.
    + unfold coordinates. rewrite map_app.
      fold (coordinates (flat_map writesOf (fst pairs))).
      fold (coordinates (map selfWriteOf (fst selves))).
      rewrite coordinates_pairs, coordinates_selves, Hp'.
      replace (map strategy1Name (fst selves)) with rrNames; [apply rrCells_NoDup |].
      transitivity (map fst (map pairing (fst selves))).
      * rewrite Hs. reflexivity.
      * rewrite map_map. reflexivity.
    + apply elem_of_app. right. apply list_elem_of_fmap. exists r. now split.
  - apply Forall_forall. intros r Hr.
    assert (Hin : pairing r ∈ rrPairs).
    { rewrite <- Hp. apply list_elem_of_fmap. now exists r. }
    unfold pairing, rrPairs in Hin.
    repeat (apply elem_of_cons in Hin as [Hin | Hin];
            [injection Hin as -> ->; discriminate |]).
    now apply elem_of_nil in Hin.
Qed.

(** X11.  The score mapping of the round robin.  For every match of
    [matchResults], the cell of the first strategy against the second
    holds the first final score and the cell of the second against the
    first holds the second final score: no later match overwrites them.
    Every cell for two of the five names holds a score in the end: none
    is left [null]. *)
Theorem roundRobin_score_mapping :
  forall (t : Tournament) (w : World),
    exists out : RoundRobinResult,
      rrOutcome t w = Returns out
      /\ (forall r, r ∈ matchResults out ->
            cell (scoreMatrix out) (strategy1Name r) (strategy2Name r)
              = Some (Some (finalScore1 r))
            /\ cell (scoreMatrix out) (strategy2Name r) (strategy1Name r)
               = Some (Some (finalScore2 r)))
      /\ (forall a b, a ∈ rrNames -> b ∈ rrNames ->
            exists x, cell (scoreMatrix out) a b = Some (Some x)).
Proof.
  intros t w.
  destruct (runRoundRobin_detail t w) as (mr & rs & agg & w' & E & Hp & _ & Hn & _).
  eexists. unfold rrOutcome. rewrite E. cbn [fst]. split; [reflexivity |].
  cbn [matchResults scoreMatrix].
  assert (Hnd : NoDup (coordinates (flat_map writesOf mr ++ map selfWriteOf rs))).
  { unfold coordinates. rewrite map_app. fold (coordinates (flat_map writesOf mr)).
    fold (coordinates (map selfWriteOf rs)).
    rewrite coordinates_pairs, coordinates_selves, Hp, Hn. apply rrCells_NoDup. }
  split.
  - intros r Hr. split; apply cell_writes; try exact Hnd;
      apply elem_of_app; left; apply list_elem_of_In, in_flat_map;
      exists r; (split; [now apply list_elem_of_In |]); unfold writesOf.
    + left. reflexivity.
    + right. left. reflexivity.
  - intros a b Ha Hb.
    pose proof (rrCells_cover a b Ha Hb) as Hin.
    rewrite <- Hp, <- Hn, <- coordinates_pairs, <- coordinates_selves in Hin.
    unfold coordinates in Hin. rewrite <- map_app in Hin.
    apply list_elem_of_fmap in Hin as ([[a' b'] x] & Heq & Hin).
    cbn [fst] in Heq. injection Heq as <- <-.
    exists x. now apply cell_writes.
Qed.

Lemma played_rates r :
  played r ->
  ((0 <= cooperationRate1 r)%Q /\ (cooperationRate1 r <= 1)%Q)
  /\ ((0 <= cooperationRate2 r)%Q /\ (cooperationRate2 r <= 1)%Q).
Proof.
  intros (g & w & ->).
  destruct (play_bookkept g w) as (g' & (_ & H1 & _ & H2 & _) & ->).
  unfold resultOf. cbn [cooperationRate1 cooperationRate2].
  change (getCooperationRate (strategy1 g')) with (rateOf (history (strategy1 g'))).
  change (getCooperationRate (strategy2 g')) with (rateOf (history (strategy2 g'))).
  split; apply rateOf_range.
Qed.

Lemma ratesIn_range nm rs :
  Forall played rs ->
  Forall (fun q => (0 <= q)%Q /\ (q <= 1)%Q) (ratesIn nm rs).
Proof.
  induction 1 as [|r rs Hr _ IH]; [constructor |].
  unfold ratesIn in *. cbn [flat_map]. apply Forall_app. split; [| exact IH].
  destruct (played_rates r Hr) as [R1 R2]. unfold ratesOf.
  destruct (decide (strategy1Name r = nm)), (decide (strategy2Name r = nm));
    cbn [app]; repeat constructor; tauto.
Qed.

Lemma ratesIn_length nm rs : length (ratesIn nm rs) = length (scoresIn nm rs).
Proof.
  induction rs as [|r rs IH]; [reflexivity |].
  unfold ratesIn, scoresIn in *. cbn [flat_map]. rewrite !length_app, IH.
  unfold ratesOf, scoresOf.
  now destruct (decide (strategy1Name r = nm)), (decide (strategy2Name r = nm)).
Qed.

Lemma foldl_Qplus_range (qs : list Q) :
  Forall (fun q => (0 <= q)%Q /\ (q <= 1)%Q) qs ->
  forall acc,
    (acc <= foldl Qplus acc qs)%Q
    /\ (foldl Qplus acc qs <= acc + inject_Z (Z.of_nat (length qs)))%Q.
Proof.
  induction 1 as [|q qs [Hq0 Hq1] _ IH]; intros acc.
  - cbn [foldl length]. change (inject_Z (Z.of_nat 0)) with 0%Q. split; lra.
  - cbn [foldl length]. destruct (IH (acc + q)%Q) as [L U].
    rewrite Nat2Z.inj_succ, <- Z.add_1_r, inject_Z_plus in *.
    change (inject_Z 1) with 1%Q. split; lra.
Qed.

(** X12.  The averages of the round robin.  For each of the five
    strategies, [cooperationCount] is the sum of its cooperation rates
    over the matches of [matchResults] in which it took part,
    [averageScore] is [totalScore / 4] and [cooperationRate] is
    [cooperationCount / 4]; the cooperation rate lies between 0 and 1. *)
Theorem roundRobin_averages :
  forall (t : Tournament) (w : World),
    exists out : RoundRobinResult,
      rrOutcome t w = Returns out
      /\ (forall nm, nm ∈ rrNames ->
            exists data, aggregated out !! nm = Some data
              /\ cooperationCount data
                 = foldl Qplus 0%Q (ratesIn nm (matchResults out))
              /\ averageScore data = Some (totalScore data / 4)%Q
              /\ cooperationRate data = (cooperationCount data / 4)%Q
              /\ (0 <= cooperationRate data)%Q
              /\ (cooperationRate data <= 1)%Q).
Proof.
  intros t w.
  destruct (runRoundRobin_detail t w) as (mr & rs & agg & w' & E & Hp & Hpl & _ & Ha).
  eexists. unfold rrOutcome. rewrite E. cbn [fst]. split; [reflexivity |].
  cbn [matchResults aggregated]. intros nm Hnm.
  assert (H4 : length (scoresIn nm mr) = 4%nat).
  { rewrite scoresIn_length, Hp. now apply appearances_rrPairs. }
  eexists. rewrite lookup_fmap, (Ha nm Hnm). cbn [fmap option_fmap option_map].
  split; [reflexivity |].
  unfold withAverages.
  cbn [cooperationCount averageScore totalScore cooperationRate gamesPlayed].
  rewrite H4. split_and!; try reflexivity.
  - destruct (foldl_Qplus_range _ (ratesIn_range nm mr Hpl) 0%Q) as [L _].
    unfold divCount. change (inject_Z (Z.of_nat 4)) with 4%Q.
    apply Qle_shift_div_l; lra.
  - destruct (foldl_Qplus_range _ (ratesIn_range nm mr Hpl) 0%Q) as [_ U].
    rewrite ratesIn_length, H4 in U.
    unfold divCount. change (inject_Z (Z.of_nat 4)) with 4%Q in *.
    apply Qle_shift_div_r; lra.
Qed.

(** ** Strategies that are never ahead *)

Lemma responds_snoc_inv rule mine theirs a x :
  length mine = length theirs ->
  responds rule (mine ++ [a]) (theirs ++ [x]) ->
  responds rule mine theirs /\ rule (last theirs) a.
Proof.
  intros Hlen H. split.
  - intros i a0 Hi. pose proof (lookup_lt_Some _ _ _ Hi) as Hlt.
    specialize (H i a0). rewrite lookup_app_l in H by exact Hlt. specialize (H Hi).
    destruct i as [|j]; [exact H |].
    cbn [previous] in *. rewrite lookup_app_l in H by lia. exact H.
  - rewrite <- previous_snoc with (x := x), <- Hlen. apply H.
    rewrite lookup_app_r, Nat.sub_diag by lia. reflexivity.
Qed.

Lemma getPayoff_swap pm a b x y :
  getPayoff pm a b = (x, y) -> getPayoff pm b a = (y, x).
Proof. destruct a, b; cbn; intros [= <- <-]; reflexivity. Qed.

(** A lower bound of the gap after a list of rounds, for a side that
    never defects unprovoked. *)
Lemma provoked_gap pm (mine theirs : RoundRecord -> Action) (pay pay' : RoundRecord -> Q) rh :
  (S_ pm <= T pm)%Q ->
  Forall (fun r => getPayoff pm (mine r) (theirs r) = (pay r, pay' r)) rh ->
  responds provokedRule (map mine rh) (map theirs rh) ->
  (gapOf pm (last (map theirs rh))
   <= foldl Qplus 0 (map pay' rh) - foldl Qplus 0 (map pay rh))%Q.
Proof.
  intros Hst. induction rh as [|x rh IH] using rev_ind; intros Hp Hr.
  - cbn. lra.
  - apply Forall_app in Hp as [Hp Hx]. rewrite Forall_singleton in Hx.
    rewrite !map_app in *. cbn [map] in *.
    apply responds_snoc_inv in Hr as [Hr Hrule]; [| now rewrite !length_map].
    specialize (IH Hp Hr). rewrite !foldl_app. cbn [foldl]. rewrite last_snoc.
    unfold provokedRule in Hrule.
    destruct (last (map theirs rh)) as [[|]|], (mine x) eqn:Em, (theirs x);
      try (specialize (Hrule eq_refl); discriminate Hrule);
      cbn in Hx; injection Hx as <- <-; cbn [gapOf] in *; lra.
Qed.

Lemma gapOf_nonneg pm prev : (S_ pm <= T pm)%Q -> (0 <= gapOf pm prev)%Q.
Proof. intros H. destruct prev as [[|]|]; cbn [gapOf]; lra. Qed.

Lemma countRounds_snoc a b mine theirs rh x :
  countRounds a b mine theirs (rh ++ [x])
  = (countRounds a b mine theirs rh
     + if Action_eqb (mine x) a && Action_eqb (theirs x) b then 1 else 0)%nat.
Proof.
  induction rh as [|r rh IH]; cbn [app countRounds]; [lia |].
  rewrite IH. lia.
Qed.

Lemma tft_balance (mine theirs : RoundRecord -> Action) rh :
  responds tftRule (map mine rh) (map theirs rh) ->
  countRounds COOPERATE DEFECT mine theirs rh
  = (countRounds DEFECT COOPERATE mine theirs rh
     + unanswered (last (map theirs rh)))%nat.
Proof.
  induction rh as [|x rh IH] using rev_ind; intros Hr; [reflexivity |].
  rewrite !map_app in *. cbn [map] in *.
  apply responds_snoc_inv in Hr as [Hr Hrule]; [| now rewrite !length_map].
  specialize (IH Hr). rewrite !countRounds_snoc, last_snoc.
  unfold tftRule in Hrule. rewrite Hrule.
  destruct (last (map theirs rh)) as [[|]|], (theirs x);
    cbn [unanswered Action_eqb andb] in *; lia.
Qed.

(** X13.  TFT is exploited at most once more than it exploits.  In every
    match, in either mode and against any opponent, the rounds in which
    TFT cooperates while the opponent defects are as many as the rounds
    in which TFT defects while the opponent cooperates, plus one when the
    opponent's last move was DEFECT; in the rounds in which both make the
    same move both receive the same payoff, and in the others one
    receives S and the other T.  On whichever side TFT plays. *)
Theorem tft_exploitation_balance :
  forall (nm : string) (h oh : list Action) (sc : Q) (opp : Strategy)
         (pm : PayoffMatrix) (nr : Z) (cp : option Q) (rh : list RoundRecord)
         (w : World),
    let s := mkStrategy TitForTat nm h oh sc in
    let r1 := result_roundHistory (fst (play (mkGame s opp pm nr cp rh) w)) in
    let r2 := result_roundHistory (fst (play (mkGame opp s pm nr cp rh) w)) in
    let paid (r : RoundRecord) :=
      (move1 r = move2 r -> payoff1 r = payoff2 r)
      /\ (move1 r = COOPERATE -> move2 r = DEFECT ->
          payoff1 r = S_ pm /\ payoff2 r = T pm)
      /\ (move1 r = DEFECT -> move2 r = COOPERATE ->
          payoff1 r = T pm /\ payoff2 r = S_ pm) in
    countRounds COOPERATE DEFECT move1 move2 r1
      = (countRounds DEFECT COOPERATE move1 move2 r1
         + unanswered (last (map move2 r1)))%nat
    /\ countRounds COOPERATE DEFECT move2 move1 r2
       = (countRounds DEFECT COOPERATE move2 move1 r2
          + unanswered (last (map move1 r2)))%nat
    /\ Forall paid r1 /\ Forall paid r2.
Proof.
  intros nm h oh sc opp pm nr cp rh w. cbv zeta.
  pose proof (play_responds (fun s => variant s = TitForTat) tftRule
                makeMove_tft (recordMove_variant TitForTat)) as H.
  assert (Hpaid : forall g w0, payoffMatrix g = pm ->
            Forall (fun r =>
                      (move1 r = move2 r -> payoff1 r = payoff2 r)
                      /\ (move1 r = COOPERATE -> move2 r = DEFECT ->
                          payoff1 r = S_ pm /\ payoff2 r = T pm)
                      /\ (move1 r = DEFECT -> move2 r = COOPERATE ->
                          payoff1 r = T pm /\ payoff2 r = S_ pm))
                   (result_roundHistory (fst (play g w0)))).
  { intros g w0 Hg. destruct (play_result_books g w0) as (Hp & _).
    rewrite Hg in Hp. eapply Forall_impl; [exact Hp |]. intros r Hr. cbn beta in Hr.
    destruct (move1 r), (move2 r); cbn in Hr; injection Hr as <- <-;
      split_and!; intros; try discriminate; try reflexivity; now split. }
  split_and!.
  - apply tft_balance.
    apply (H (mkGame (mkStrategy TitForTat nm h oh sc) opp pm nr cp rh) w). reflexivity.
  - apply tft_balance.
    apply (H (mkGame opp (mkStrategy TitForTat nm h oh sc) pm nr cp rh) w). reflexivity.
  - now apply Hpaid.
  - now apply Hpaid.
Qed.

(** X14.  When S <= T, GTFT is never ahead: in every match, in either
    mode, against any opponent, for every forgiveness probability and
    whatever the random source gives, the final score of GTFT is at most
    that of the opponent, on whichever side GTFT plays. *)
Theorem gtft_never_ahead :
  forall (f : Q) (nm : string) (h oh : list Action) (sc : Q) (opp : Strategy)
         (pm : PayoffMatrix) (nr : Z) (cp : option Q) (rh : list RoundRecord)
         (w : World),
    (S_ pm <= T pm)%Q ->
    let s := mkStrategy (GenerousTitForTat f) nm h oh sc in
    let r1 := fst (play (mkGame s opp pm nr cp rh) w) in
    let r2 := fst (play (mkGame opp s pm nr cp rh) w) in
    (finalScore1 r1 <= finalScore2 r1)%Q /\ (finalScore2 r2 <= finalScore1 r2)%Q.
Proof.
  intros f nm h oh sc opp pm nr cp rh w Hst. cbv zeta.
  assert (H := play_responds (fun s => variant s = GenerousTitForTat f) provokedRule).
  assert (Hm : forall s w0, variant s = GenerousTitForTat f ->
                 variant (snd (fst (makeMove s w0))) = GenerousTitForTat f
                 /\ provokedRule (last (opponentHistory s)) (fst (fst (makeMove s w0)))).
  { intros s w0 Hs. destruct (makeMove_gtft_variant f s w0 Hs) as (A & B & _). now split. }
  specialize (H Hm (recordMove_variant _)).
  split.
  - destruct (H (mkGame (mkStrategy (GenerousTitForTat f) nm h oh sc) opp pm nr cp rh) w)
      as [Hr _].
    destruct (play_result_books
                (mkGame (mkStrategy (GenerousTitForTat f) nm h oh sc) opp pm nr cp rh) w)
      as (Hp & -> & ->).
    cbn [payoffMatrix] in Hp.
    pose proof (provoked_gap pm move1 move2 payoff1 payoff2 _ Hst Hp (Hr eq_refl)) as G.
    pose proof (gapOf_nonneg pm
                  (last (map move2 (result_roundHistory (fst (play
                     (mkGame (mkStrategy (GenerousTitForTat f) nm h oh sc) opp pm nr cp rh)
                     w))))) Hst) as G0.
    lra.
  - destruct (H (mkGame opp (mkStrategy (GenerousTitForTat f) nm h oh sc) pm nr cp rh) w)
      as [_ Hr].
    destruct (play_result_books
                (mkGame opp (mkStrategy (GenerousTitForTat f) nm h oh sc) pm nr cp rh) w)
      as (Hp & -> & ->).
    cbn [payoffMatrix] in Hp.
    assert (Hp' : Forall (fun r => getPayoff pm (move2 r) (move1 r) = (payoff2 r, payoff1 r))
                    (result_roundHistory (fst (play
                       (mkGame opp (mkStrategy (GenerousTitForTat f) nm h oh sc) pm nr cp rh)
                       w)))).
    { eapply Forall_impl; [exact Hp |]. intros r. apply getPayoff_swap. }
    pose proof (provoked_gap pm move2 move1 payoff2 payoff1 _ Hst Hp' (Hr eq_refl)) as G.
    pose proof (gapOf_nonneg pm
                  (last (map move1 (result_roundHistory (fst (play
                     (mkGame opp (mkStrategy (GenerousTitForTat f) nm h oh sc) pm nr cp rh)
                     w))))) Hst) as G0.
    lra.
Qed.

Lemma gtft_never_ahead_witness :
  (0 <= 5)%Q
  /\ (finalScore1 (fst (play (mkGame (newGenerousTitForTat (1 # 2)) newAlwaysDefect
                                     (mkPayoffMatrix 5 3 1 0) 6 None [])
                             (worldWithSeed 42)))
      <= finalScore2 (fst (play (mkGame (newGenerousTitForTat (1 # 2)) newAlwaysDefect
                                        (mkPayoffMatrix 5 3 1 0) 6 None [])
                                (worldWithSeed 42))))%Q.
Proof.
  assert (H : (0 <= 5)%Q) by discriminate.
  split; [exact H |].
  apply (gtft_never_ahead (1 # 2) "Generous TFT" [] [] 0 newAlwaysDefect
           (mkPayoffMatrix 5 3 1 0) 6 None [] (worldWithSeed 42) H).
Defined.

(** ** Matches under a payoff matrix that passes the check *)

Lemma validatePayoffMatrix_spec pm :
  validatePayoffMatrix (T pm) (R pm) (P pm) (S_ pm) = true ->
  (R pm < T pm)%Q /\ (P pm < R pm)%Q /\ (S_ pm < P pm)%Q
  /\ (T pm + S_ pm < 2 * R pm)%Q.
Proof.
  unfold validatePayoffMatrix. cbv zeta. rewrite !andb_true_iff.
  intros [[[H1 H2] H3] H4]. split_and!; now apply Qltb_lt.
Qed.

(** X15.  Under a payoff matrix that passes [validatePayoffMatrix], in
    every round of every match, in either mode and for any two
    strategies: each payoff lies between S and T; the two payoffs add up
    to at most [2 * R], and to less when the two moves differ; and both
    sides receive at least R only when both cooperate. *)
Theorem valid_matrix_round_payoffs :
  forall (g : Game) (w : World),
    let pm := payoffMatrix g in
    validatePayoffMatrix (T pm) (R pm) (P pm) (S_ pm) = true ->
    Forall (fun r =>
              (S_ pm <= payoff1 r)%Q /\ (payoff1 r <= T pm)%Q
              /\ (S_ pm <= payoff2 r)%Q /\ (payoff2 r <= T pm)%Q
              /\ (payoff1 r + payoff2 r <= 2 * R pm)%Q
              /\ (move1 r <> move2 r -> (payoff1 r + payoff2 r < 2 * R pm)%Q)
              /\ ((R pm <= payoff1 r)%Q -> (R pm <= payoff2 r)%Q ->
                  move1 r = COOPERATE /\ move2 r = COOPERATE))
           (result_roundHistory (fst (play g w))).
Proof.
  intros g w pm Hv.
  destruct (validatePayoffMatrix_spec pm Hv) as (H1 & H2 & H3 & H4).
  destruct (play_result_books g w) as (Hp & _). fold pm in Hp.
  eapply Forall_impl; [exact Hp |]. intros r Hr. cbn beta in Hr.
  destruct (move1 r), (move2 r); cbn in Hr; injection Hr as <- <-;
    split_and!; try lra; try (intros; lra); try (intros; now split);
    try (intros Hne; now contradiction Hne).
Qed.

Lemma valid_matrix_round_payoffs_witness :
  validatePayoffMatrix 5 3 1 0 = true
  /\ Forall (fun r => (payoff1 r + payoff2 r <= 2 * 3)%Q)
            (result_roundHistory
               (fst (play (mkGame newTitForTat newAlwaysDefect
                                  (mkPayoffMatrix 5 3 1 0) 5 None [])
                          (worldWithSeed 42)))).
Proof.
  assert (H : validatePayoffMatrix 5 3 1 0 = true) by reflexivity.
  split; [exact H |].
  eapply Forall_impl.
  - apply (valid_matrix_round_payoffs
             (mkGame newTitForTat newAlwaysDefect (mkPayoffMatrix 5 3 1 0) 5 None [])
             (worldWithSeed 42) H).
  - intros r Hr. apply Hr.
Defined.


(** ** A pairwise tournament *)

Lemma createStrategy_known code params :
  code ∈ getAllStrategyCodes -> exists s, createStrategy code params = Returns s.
Proof.
  intros Hin. unfold getAllStrategyCodes in Hin. unfold createStrategy.
  repeat (apply elem_of_cons in Hin as [-> | Hin]; [cbn; eexists; reflexivity |]).
  now apply elem_of_nil in Hin.
Qed.

(** X16.  [runPairwise] with an unknown code throws "Unknown strategy:
    <code>" for the first unknown code, before any round is played: the
    tournament, its [results] included, and the world are as they were.
    With two known codes it plays the match of the two created strategies
    under the tournament's matrix and duration, returns its result, and
    replaces [results] by that one result. *)
Theorem runPairwise_outcomes :
  forall (code1 code2 : string) (t : Tournament) (w : World),
    (code1 ∉ getAllStrategyCodes ->
       runPairwise code1 code2 (t, w)
       = (Throws (Error ("Unknown strategy: " +:+ code1)), (t, w)))
    /\ (code1 ∈ getAllStrategyCodes -> code2 ∉ getAllStrategyCodes ->
          runPairwise code1 code2 (t, w)
          = (Throws (Error ("Unknown strategy: " +:+ code2)), (t, w)))
    /\ (code1 ∈ getAllStrategyCodes -> code2 ∈ getAllStrategyCodes ->
          exists s1 s2,
            createStrategy code1 (strategyParams t) = Returns s1
            /\ createStrategy code2 (strategyParams t) = Returns s2
            /\ runPairwise code1 code2 (t, w)
               = (Returns (fst (play (newGame t s1 s2) w)),
                  (mkTournament (tournament_payoffMatrix t) (tournament_numRounds t)
                                (strategyParams t) (tournament_continuationProb t)
                                [fst (play (newGame t s1 s2) w)],
                   snd (play (newGame t s1 s2) w)))).
Proof.
  intros code1 code2 t w. split_and!.
  - intros H1. unfold runPairwise, mbind, TM_bind, this, liftO.
    now rewrite (createStrategy_unknown _ _ H1).
  - intros H1 H2. destruct (createStrategy_known code1 (strategyParams t) H1) as [s1 E1].
    unfold runPairwise, mbind, TM_bind, this, liftO.
    now rewrite E1, (createStrategy_unknown _ _ H2).
  - intros H1 H2.
    destruct (createStrategy_known code1 (strategyParams t) H1) as [s1 E1].
    destruct (createStrategy_known code2 (strategyParams t) H2) as [s2 E2].
    exists s1, s2. split; [exact E1 |]. split; [exact E2 |].
    unfold runPairwise, mbind, TM_bind, this, liftO, liftM, setResults, mret, TM_ret.
    rewrite E1, E2. destruct (play (newGame t s1 s2) w) as [res w']. reflexivity.
Qed.

Lemma runPairwise_outcomes_witness :
  ("tft" ∉ getAllStrategyCodes)
  /\ runPairwise "tft" "ALLD" (standardTournament 10 (1 # 10), worldWithSeed 42)
     = (Throws (Error "Unknown strategy: tft"),
        (standardTournament 10 (1 # 10), worldWithSeed 42)).
Proof.
  assert (H : "tft" ∉ getAllStrategyCodes).
  { intros H. unfold getAllStrategyCodes in H.
    repeat (apply elem_of_cons in H as [H | H]; [discriminate H |]).
    now apply elem_of_nil in H. }
  split; [exact H |].
  apply (runPairwise_outcomes "tft" "ALLD" (standardTournament 10 (1 # 10))
           (worldWithSeed 42)).
  exact H.
Defined.

(** ** The state of the generator *)

Lemma fp_round_small z : Z.abs z < 2 ^ 53 -> JS.fp_round z = z.
Proof.
  intros H. unfold JS.fp_round. cbv zeta.
  destruct (Z.ltb_spec (Z.abs z) (2 ^ 53)); [reflexivity | lia].
Qed.

Lemma random_bits_congruent r1 r2 :
  JS.fp_round (seed r1 + 1831565813) mod JS.two32
  = JS.fp_round (seed r2 + 1831565813) mod JS.two32 ->
  fst (random_bits r1) = fst (random_bits r2).
Proof.
  intros H. unfold random_bits. cbv zeta. cbn [fst].
  unfold JS.xor at 2 4. unfold JS.or at 1 3. unfold JS.ushr at 3 6.
  unfold JS.xor, JS.or, JS.ushr, JS.ToInt32, JS.ToUint32.
  now rewrite H.
Qed.

(** X17.  The state of the generator is never wrapped to 32 bits: after
    [n] draws from a seed [s >= 0] it is [s + n * 0x6D2B79F5], as long as
    that stays below [2^53]; yet the values drawn depend on the seed
    modulo [2^32] only: two such seeds that agree modulo [2^32] give the
    same [n] values. *)
Theorem random_state_not_wrapped :
  forall (s1 s2 : Z) (n : nat),
    0 <= s1 -> 0 <= s2 ->
    s1 + Z.of_nat n * 1831565813 < 2 ^ 53 ->
    s2 + Z.of_nat n * 1831565813 < 2 ^ 53 ->
    s1 mod 4294967296 = s2 mod 4294967296 ->
    seed (snd (draws n (mkSeededRandom s1))) = s1 + Z.of_nat n * 1831565813
    /\ fst (draws n (mkSeededRandom s1)) = fst (draws n (mkSeededRandom s2)).
Proof.
  intros s1 s2 n. revert s1 s2.
  induction n as [|n IH]; intros s1 s2 P1 P2 B1 B2 Hc.
  - cbn [draws fst snd seed]. split; [lia | reflexivity].
  - assert (R1 : JS.fp_round (s1 + 1831565813) = s1 + 1831565813)
      by (apply fp_round_small; lia).
    assert (R2 : JS.fp_round (s2 + 1831565813) = s2 + 1831565813)
      by (apply fp_round_small; lia).
    assert (Hb : fst (random_bits (mkSeededRandom s1))
                 = fst (random_bits (mkSeededRandom s2))).
    { apply random_bits_congruent. cbn [seed]. rewrite R1, R2.
      unfold JS.two32. rewrite (Z.add_mod s1), (Z.add_mod s2), Hc by lia. reflexivity. }
    assert (S1 : snd (random_bits (mkSeededRandom s1))
                 = mkSeededRandom (s1 + 1831565813))
      by (unfold random_bits; cbv zeta; cbn [snd seed]; now rewrite R1).
    assert (S2 : snd (random_bits (mkSeededRandom s2))
                 = mkSeededRandom (s2 + 1831565813))
      by (unfold random_bits; cbv zeta; cbn [snd seed]; now rewrite R2).
    cbn [draws]. unfold random.
    destruct (random_bits (mkSeededRandom s1)) as [k1 r1].
    destruct (random_bits (mkSeededRandom s2)) as [k2 r2].
    cbn [fst snd] in Hb, S1, S2. subst k2 r1 r2.
    destruct (IH (s1 + 1831565813) (s2 + 1831565813)) as [IHs IHv]; try lia.
    { rewrite (Z.add_mod s1), (Z.add_mod s2), Hc by lia. reflexivity. }
    destruct (draws n (mkSeededRandom (s1 + 1831565813))) as [vs1 q1].
    destruct (draws n (mkSeededRandom (s2 + 1831565813))) as [vs2 q2].
    cbn [fst snd] in *. split; [lia | now rewrite IHv].
Qed.

Lemma random_state_not_wrapped_witness :
  seed (snd (draws 3 (mkSeededRandom 42))) = 42 + Z.of_nat 3 * 1831565813
  /\ fst (draws 3 (mkSeededRandom 42)) = fst (draws 3 (mkSeededRandom 4294967338)).
Proof.
  apply (random_state_not_wrapped 42 4294967338 3); [lia | lia | | | reflexivity].
  - vm_compute. reflexivity.
  - vm_compute. reflexivity.
Defined.

(** ** The data of the cooperation chart *)

Lemma chartLoop_snoc l : forall i r d,
  chartLoop i (l ++ [r]) d = chartStep (i + length l) r (chartLoop i l d).
Proof.
  induction l as [|x l IH]; intros i r d; cbn [app chartLoop length].
  - now rewrite Nat.add_0_r.
  - rewrite IH. now rewrite Nat.add_succ_r.
Qed.

Lemma cooperations_snoc moves a :
  cooperations (moves ++ [a])
  = (cooperations moves + if Action_eqb a COOPERATE then 1 else 0)%nat.
Proof.
  unfold cooperations. rewrite filter_app, length_app.
  destruct a; [rewrite filter_cons_True by reflexivity
              | rewrite filter_cons_False by discriminate]; reflexivity.
Qed.

Lemma map_seq_snoc_ext {A} (f g : nat -> A) n :
  (forall k, (1 <= k <= n)%nat -> f k = g k) ->
  map f (seq 1 n) = map g (seq 1 n).
Proof.
  intros H. apply map_ext_in. intros k Hk. apply in_seq in Hk. apply H. lia.
Qed.

Lemma cooperationChartData_spec rh :
  let d := cooperationChartData rh in
  coop1Count d = cooperations (map move1 rh)
  /\ coop2Count d = cooperations (map move2 rh)
  /\ totalCoopCount d
     = (cooperations (map move1 rh) + cooperations (map move2 rh))%nat
  /\ coop1Data d = map (pointOf move1 rh) (seq 1 (length rh))
  /\ coop2Data d = map (pointOf move2 rh) (seq 1 (length rh))
  /\ overallCoopData d = map (overallPointOf rh) (seq 1 (length rh)).
Proof.
  cbv zeta. unfold cooperationChartData.
  induction rh as [|r rh IH] using rev_ind; [now split_and! |].
  destruct IH as (C1 & C2 & Ct & D1 & D2 & Do).
  rewrite chartLoop_snoc. cbn [Nat.add].
  set (d := chartLoop 0 rh (mkChartData 0 0 0 [] [] [])) in *.
  unfold chartStep. cbv zeta.
  cbn [coop1Count coop2Count totalCoopCount coop1Data coop2Data overallCoopData].
  rewrite !map_app. cbn [map]. rewrite !cooperations_snoc, length_app, seq_app, !map_app.
  cbn [length map seq Nat.add]. rewrite C1, C2, Ct, D1, D2, Do.
  assert (Hlast : take (length rh + 1) (rh ++ [r]) = rh ++ [r])
    by (apply take_ge; rewrite length_app; cbn [length]; lia).
  assert (Hpre : forall k, (1 <= k <= length rh)%nat -> take k (rh ++ [r]) = take k rh)
    by (intros k Hk; apply take_app_le; lia).
  split_and!.
  - destruct (move1 r); cbn [Action_eqb]; lia.
  - destruct (move2 r); cbn [Action_eqb]; lia.
  - destruct (move1 r), (move2 r); cbn; lia.
  - f_equal.
    + apply map_seq_snoc_ext. intros k Hk. unfold pointOf. now rewrite Hpre.
    + unfold pointOf. rewrite Nat.add_1_r in Hlast. rewrite Nat.add_1_r, Hlast.
      rewrite map_app. cbn [map]. rewrite cooperations_snoc.
      f_equal. f_equal. destruct (move1 r); cbn [Action_eqb]; lia.
  - f_equal.
    + apply map_seq_snoc_ext. intros k Hk. unfold pointOf. now rewrite Hpre.
    + unfold pointOf. rewrite Nat.add_1_r in Hlast. rewrite Nat.add_1_r, Hlast.
      rewrite map_app. cbn [map]. rewrite cooperations_snoc.
      f_equal. f_equal. destruct (move2 r); cbn [Action_eqb]; lia.
  - f_equal.
    + apply map_seq_snoc_ext. intros k Hk. unfold overallPointOf. now rewrite Hpre.
    + unfold overallPointOf. rewrite Nat.add_1_r in Hlast. rewrite Nat.add_1_r, Hlast.
      rewrite !map_app. cbn [map]. rewrite !cooperations_snoc.
      f_equal. f_equal. destruct (move1 r), (move2 r); cbn; lia.
Qed.

Lemma percent_rate moves :
  moves <> [] ->
  (percent (cooperations moves) (length moves) == rateOf moves * 100)%Q.
Proof.
  intros Hne. unfold percent, rateOf.
  destruct (length moves) as [|k] eqn:El.
  - destruct moves; [congruence | discriminate El].
  - cbn [Nat.eqb]. rewrite (Qmake_Qdiv (Z.of_nat (cooperations moves))).
    now rewrite <- Pos.of_nat_succ, Zpos_P_of_succ_nat, <- Nat2Z.inj_succ.
Qed.

Lemma percent_range c n :
  (c <= n)%nat -> (0 < n)%nat ->
  (0 <= percent c n)%Q /\ (percent c n <= 100)%Q.
Proof.
  intros Hc Hn. unfold percent.
  assert (Hb : (0 < inject_Z (Z.of_nat n))%Q)
    by (rewrite <- (Zlt_Qlt 0); lia).
  assert (Ha : (0 <= inject_Z (Z.of_nat c))%Q)
    by (rewrite <- (Zle_Qle 0); lia).
  assert (Hab : (inject_Z (Z.of_nat c) <= inject_Z (Z.of_nat n))%Q)
    by (rewrite <- Zle_Qle; lia).
  assert (L : (0 <= inject_Z (Z.of_nat c) / inject_Z (Z.of_nat n))%Q)
    by (apply Qle_shift_div_l; [exact Hb | lra]).
  assert (U : (inject_Z (Z.of_nat c) / inject_Z (Z.of_nat n) <= 1)%Q)
    by (apply Qle_shift_div_r; [exact Hb | lra]).
  split; lra.
Qed.

Lemma cooperations_le moves : (cooperations moves <= length moves)%nat.
Proof. unfold cooperations. apply length_filter. Qed.

Lemma play_result_rates g w :
  let res := fst (play g w) in
  cooperationRate1 res = rateOf (map move1 (result_roundHistory res))
  /\ cooperationRate2 res = rateOf (map move2 (result_roundHistory res)).
Proof.
  cbv zeta.
  destruct (play_bookkept g w) as (g' & (_ & H1 & _ & H2 & _) & ->).
  unfold resultOf. cbn [result_roundHistory cooperationRate1 cooperationRate2].
  rewrite <- H1, <- H2. split; reflexivity.
Qed.

Lemma pointOf_rate mv rh i :
  (i < length rh)%nat ->
  (pointOf mv rh (S i) == rateOf (map mv (take (S i) rh)) * 100)%Q.
Proof.
  intros Hi. unfold pointOf.
  assert (Hl : length (map mv (take (S i) rh)) = S i)
    by (rewrite length_map, length_take; lia).
  rewrite <- Hl at 2. apply percent_rate.
  intros E. rewrite E in Hl. discriminate Hl.
Qed.

Lemma last_map_seq {A} (f : nat -> A) n x :
  last (map f (seq 1 n)) = Some x -> (0 < n)%nat /\ x = f n.
Proof.
  destruct n as [|m]; [discriminate |].
  rewrite seq_S, map_app. cbn [map]. rewrite last_snoc. intros [= <-].
  split; [lia | reflexivity].
Qed.

(** X18.  The cooperation chart.  For every round list, the point of
    each strategy's series at round [i + 1] is its cooperation rate over
    the first [i + 1] rounds, in percent: the quotient of the count by
    the number of rounds, times 100, as the result of a match has it.
    The point of the overall series is the count of both sides together
    over twice the number of rounds, in percent.  All three lie between 0
    and 100.  On the result of a match, the last points of the two
    series are the cooperation rates of the result, in percent. *)
Theorem cooperation_chart_series :
  (forall (rh : list RoundRecord) (i : nat),
     (i < length rh)%nat ->
     let d := cooperationChartData rh in
     let count1 := cooperations (map move1 (take (S i) rh)) in
     let count2 := cooperations (map move2 (take (S i) rh)) in
     exists x1 x2 xo,
       coop1Data d !! i = Some x1
       /\ coop2Data d !! i = Some x2
       /\ overallCoopData d !! i = Some xo
       /\ (x1 == rateOf (map move1 (take (S i) rh)) * 100)%Q
       /\ (x2 == rateOf (map move2 (take (S i) rh)) * 100)%Q
       /\ xo = percent (count1 + count2) (S i * 2)
       /\ (0 <= x1)%Q /\ (x1 <= 100)%Q /\ (0 <= x2)%Q /\ (x2 <= 100)%Q
       /\ (0 <= xo)%Q /\ (xo <= 100)%Q)
  /\ (forall (g : Game) (w : World) (x1 x2 : Q),
        let res := fst (play g w) in
        let d := cooperationChartData (result_roundHistory res) in
        last (coop1Data d) = Some x1 -> last (coop2Data d) = Some x2 ->
        (x1 == cooperationRate1 res * 100)%Q /\ (x2 == cooperationRate2 res * 100)%Q).
Proof.
  split.
  - intros rh i Hi. cbv zeta.
    destruct (cooperationChartData_spec rh) as (_ & _ & _ & -> & -> & ->).
    exists (pointOf move1 rh (S i)), (pointOf move2 rh (S i)), (overallPointOf rh (S i)).
    rewrite !list_lookup_fmap, !lookup_seq_lt by exact Hi. cbn [fmap option_fmap option_map Nat.add].
    pose proof (pointOf_rate move1 rh i Hi) as E1.
    pose proof (pointOf_rate move2 rh i Hi) as E2.
    destruct (rateOf_range (map move1 (take (S i) rh))) as [L1 U1].
    destruct (rateOf_range (map move2 (take (S i) rh))) as [L2 U2].
    assert (Hl : length (take (S i) rh) = S i) by (rewrite length_take; lia).
    pose proof (cooperations_le (map move1 (take (S i) rh))) as C1.
    pose proof (cooperations_le (map move2 (take (S i) rh))) as C2.
    rewrite length_map, Hl in C1, C2.
    destruct (percent_range
                (cooperations (map move1 (take (S i) rh))
                 + cooperations (map move2 (take (S i) rh))) (S i * 2))
      as [Lo Uo]; [lia | lia |].
    split_and!; try reflexivity; try assumption; try (rewrite ?E1, ?E2; lra).
  - intros g w x1 x2. cbv zeta.
    destruct (play_result_rates g w) as [-> ->].
    set (rh := result_roundHistory (fst (play g w))).
    destruct (cooperationChartData_spec rh) as (_ & _ & _ & -> & -> & _).
    intros H1 H2.
    apply last_map_seq in H1 as [Hn ->]. apply last_map_seq in H2 as [_ ->].
    assert (Ht : take (length rh) rh = rh) by (apply take_ge; lia).
    destruct (length rh) as [|m] eqn:El; [lia |].
    split.
    + rewrite (pointOf_rate move1 rh m) by lia. now rewrite Ht.
    + rewrite (pointOf_rate move2 rh m) by lia. now rewrite Ht.
Qed.

Lemma cooperation_chart_series_witness :
  (0 < length [mkRoundRecord 1 COOPERATE DEFECT 0 5 0 5])%nat
  /\ exists x1 x2 xo,
       coop1Data (cooperationChartData [mkRoundRecord 1 COOPERATE DEFECT 0 5 0 5]) !! 0%nat
       = Some x1
       /\ coop2Data (cooperationChartData [mkRoundRecord 1 COOPERATE DEFECT 0 5 0 5]) !! 0%nat
          = Some x2
       /\ overallCoopData (cooperationChartData [mkRoundRecord 1 COOPERATE DEFECT 0 5 0 5])
            !! 0%nat = Some xo
       /\ (x1 == 100)%Q /\ (x2 == 0)%Q /\ (xo == 50)%Q.
Proof.
  assert (H : (0 < length [mkRoundRecord 1 COOPERATE DEFECT 0 5 0 5])%nat)
    by (cbn; lia).
  split; [exact H |].
  destruct (proj1 cooperation_chart_series [mkRoundRecord 1 COOPERATE DEFECT 0 5 0 5]
              0%nat H) as (x1 & x2 & xo & A & B & C & _).
  exists x1, x2, xo. split_and!; try assumption.
  - vm_compute in A. injection A as <-. reflexivity.
  - vm_compute in B. injection B as <-. reflexivity.
  - vm_compute in C. injection C as <-. reflexivity.
Defined.

(** ** The rows of the results table *)

Lemma play_result_rounds g w :
  let rh := result_roundHistory (fst (play g w)) in
  map round rh = seq 1 (length rh).
Proof.
  cbv zeta.
  destruct (play_bookkept g w) as (g' & (_ & _ & _ & _ & _ & Hr & _) & ->).
  exact Hr.
Qed.

Lemma roundsToShow_rounds (rh : list RoundRecord) :
  map round rh = seq 1 (length rh) ->
  (30 < length rh)%nat ->
  roundsToShow rh = (take 20 rh ++ drop (length rh - 10) rh, true)
  /\ map round (fst (roundsToShow rh)) = seq 1 20 ++ seq (length rh - 9) 10.
Proof.
  intros Hr Hn. unfold roundsToShow.
  destruct (Nat.ltb_spec 30 (length rh)) as [_ | Hle]; [| lia].
  split; [reflexivity |]. cbn [fst].
  rewrite map_app. change (map round) with (fmap (M := list) round).
  rewrite fmap_take, fmap_drop. change (fmap (M := list) round) with (map round).
  rewrite Hr, take_seq, drop_seq.
  replace (20 `min` length rh)%nat with 20%nat by lia.
  replace (1 + (length rh - 10))%nat with (length rh - 9)%nat by lia.
  replace (length rh - (length rh - 10))%nat with 10%nat by lia.
  reflexivity.
Qed.

(** X19.  The results table of a match of more than 30 rounds shows 30
    rows: the rounds 1 to 20 and the last ten, [n - 9] to [n]; the rounds
    it leaves out are exactly those from 21 to [n - 10] that its note
    names. *)
Theorem pairwise_table_rows :
  forall (g : Game) (w : World),
    let rh := result_roundHistory (fst (play g w)) in
    (30 < length rh)%nat ->
    snd (roundsToShow rh) = true
    /\ length (fst (roundsToShow rh)) = 30%nat
    /\ map round (fst (roundsToShow rh)) = seq 1 20 ++ seq (length rh - 9) 10
    /\ (forall k, k ∈ map round rh ->
          (k ∉ map round (fst (roundsToShow rh))
           <-> (fst (omittedRounds rh) <= k <= snd (omittedRounds rh))%nat)).
Proof.
  intros g w rh Hn.
  pose proof (play_result_rounds g w) as Hr. cbv zeta in Hr. fold rh in Hr.
  destruct (roundsToShow_rounds rh Hr Hn) as [E Em].
  split_and!.
  - now rewrite E.
  - rewrite E. cbn [fst]. rewrite length_app, length_take, length_drop. lia.
  - exact Em.
  - intros k Hk. rewrite Em. rewrite Hr in Hk. apply elem_of_seq in Hk.
    unfold omittedRounds. cbn [fst snd].
    rewrite elem_of_app, !elem_of_seq. lia.
Qed.

Lemma pairwise_table_rows_witness :
  (30 < length (result_roundHistory
                  (fst (play (mkGame newTitForTat newAlwaysDefect
                                     (mkPayoffMatrix 5 3 1 0) 40 None [])
                             (worldWithSeed 42)))))%nat
  /\ map round (fst (roundsToShow
                       (result_roundHistory
                          (fst (play (mkGame newTitForTat newAlwaysDefect
                                             (mkPayoffMatrix 5 3 1 0) 40 None [])
                                     (worldWithSeed 42))))))
     = seq 1 20 ++ seq 31 10.
Proof.
  assert (H : (30 < length (result_roundHistory
                  (fst (play (mkGame newTitForTat newAlwaysDefect
                                     (mkPayoffMatrix 5 3 1 0) 40 None [])
                             (worldWithSeed 42)))))%nat)
    by (vm_compute; lia).
  split; [exact H |].
  destruct (pairwise_table_rows
              (mkGame newTitForTat newAlwaysDefect (mkPayoffMatrix 5 3 1 0) 40 None [])
              (worldWithSeed 42) H) as (_ & _ & E & _).
  rewrite E. vm_compute. reflexivity.
Defined.

(** ** The two sides of a match *)

Lemma detRound_swap g : detRound (swapGame g) = swapGame (detRound g).
Proof.
  unfold detRound, swapGame.
  cbn [strategy1 strategy2 payoffMatrix numRounds continuationProb roundHistory].
  destruct (detMove (strategy1 g)) as [m1 s1], (detMove (strategy2 g)) as [m2 s2].
  destruct (getPayoff (payoffMatrix g) m1 m2) as [p1 p2] eqn:E.
  rewrite (getPayoff_swap _ _ _ _ _ E).
  cbn [strategy1 strategy2 payoffMatrix numRounds continuationProb roundHistory].
  rewrite map_app, length_map. reflexivity.
Qed.

Lemma detRounds_swap n : forall g, detRounds n (swapGame g) = swapGame (detRounds n g).
Proof.
  induction n as [|n IH]; intros g; [reflexivity |].
  cbn [detRounds]. now rewrite detRound_swap, IH.
Qed.

(** X20.  The engine treats the two sides alike.  In a fixed-length match
    between strategies whose moves do not depend on a drawn value (every
    strategy but GTFT with a forgiveness above 0), exchanging the two
    strategies exchanges the two sides of the result: names, final
    scores, cooperation rates, and the moves, payoffs and cumulative
    scores of every round; whatever the state of the random source. *)
Theorem swapped_sides_swap_result :
  forall (s1 s2 : Strategy) (pm : PayoffMatrix) (rounds : Z)
         (rh rh' : list RoundRecord) (w w' : World),
    drawInsensitive s1 -> drawInsensitive s2 ->
    fst (play (mkGame s2 s1 pm rounds None rh') w')
    = swapResult (fst (play (mkGame s1 s2 pm rounds None rh) w)).
Proof.
  intros s1 s2 pm rounds rh rh' w w' D1 D2.
  rewrite !play_fixed by reflexivity. cbn [fst numRounds].
  rewrite !forRounds_det by (cbn [started strategy1 strategy2];
                             now apply reset_drawInsensitive).
  change (started (mkGame s2 s1 pm rounds None rh'))
    with (swapGame (started (mkGame s1 s2 pm rounds None rh))).
  rewrite detRounds_swap. reflexivity.
Qed.

Lemma swapped_sides_swap_result_witness :
  fst (play (mkGame newAlwaysDefect newGrimTrigger (mkPayoffMatrix 5 3 1 0) 3 None [])
            (worldWithSeed 7))
  = swapResult (fst (play (mkGame newGrimTrigger newAlwaysDefect
                                  (mkPayoffMatrix 5 3 1 0) 3 None [])
                          (worldWithSeed 42))).
Proof.
  apply (swapped_sides_swap_result newGrimTrigger newAlwaysDefect
           (mkPayoffMatrix 5 3 1 0) 3 [] [] (worldWithSeed 42) (worldWithSeed 7));
    exact I.
Defined.
